(** * The game controller of ssl-game-controller: tick, commit, persistence, undo

    A shallow embedding of [internal/app/controller/refBox.go].  The
    controller objects, the [TeamInfo] objects reached through pointers and
    the two persistence files live in an explicit [World]; every method of
    [GameController] is a computation in a small state-and-failure monad over
    that world.  [log.Fatal] and run-time panics are outcomes of their own. *)

From stdpp Require Import base gmap list strings.
From Stdlib Require Import ZArith Lia Strings.Byte DecimalString DecimalPos.

Set Default Proof Using "Type".

(** ** time.Duration: a signed 64-bit count of nanoseconds *)

Module Duration.

Abbreviation t := Z (only parsing).

Definition minDuration : Z := (- 2 ^ 63)%Z.
Definition maxDuration : Z := (2 ^ 63 - 1)%Z.

Definition inRange (z : Z) : Prop := (minDuration ≤ z ≤ maxDuration)%Z.

(** Two's-complement wrap-around of int64 arithmetic. *)
Definition wrap (z : Z) : Z := ((z + 2 ^ 63) `mod` 2 ^ 64 - 2 ^ 63)%Z.

(** [a + b] and [a - b] on int64. *)
Definition add (a b : t) : t := wrap (a + b).
Definition sub (a b : t) : t := wrap (a - b).

Definition Second : t := 1000000000%Z.

End Duration.

(** ** time.Time, as nanoseconds since the Unix epoch *)

Module Time.

Abbreviation t := Z (only parsing).

(** [time.Unix(0, 0)] *)
Definition Unix00 : t := 0%Z.

(** [t.After(u)] *)
Definition After (a u : t) : bool := bool_decide (u < a)%Z.

(** [t.Sub(u)]: the difference, saturated to the range of a Duration. *)
Definition Sub (a u : t) : Duration.t :=
  let d := (a - u)%Z in
  if bool_decide (d < Duration.minDuration)%Z then Duration.minDuration
  else if bool_decide (Duration.maxDuration < d)%Z then Duration.maxDuration
  else d.

End Time.

(** ** Data model *)

(** The declarations of [Team], [GameState], [State] and [TeamInfo] are
    outside refBox.go, which compares the run-mode with [GameStateRunning]
    and [GameStateTimeout], reads and writes the fields below, and reaches
    every [TeamInfo] through a pointer held in the map [TeamState]. *)

(** Modelled from the spec: the type [Team] of team identities, the key type
    of [TeamState]; its declaration is outside refBox.go. *)
Abbreviation Team := string (only parsing).

(** Modelled from the spec: the run-mode type [GameState]; its declaration
    is outside refBox.go, which names the two values [GameStateRunning] and
    [GameStateTimeout].  Every other run-mode (Halted, Stopped, ...) is a
    [GameStateOther]. *)
Inductive GameStateKind :=
| GameStateRunning
| GameStateTimeout
| GameStateOther (name : string).

Global Instance GameStateKind_eq_dec : EqDecision GameStateKind.
Proof. solve_decision. Defined.

Definition GameStateHalted : GameStateKind := GameStateOther "Halted".
Definition GameStateStopped : GameStateKind := GameStateOther "Stopped".

(** A pointer to a [TeamInfo] object; a pointer without an object in the
    store is nil (or dangling) and dereferencing it panics. *)
Abbreviation tptr := positive (only parsing).

(** Modelled from the spec: the struct [TeamInfo], declared outside
    refBox.go: the remaining yellow-card durations in issuance order and the
    remaining timeout. *)
Record TeamInfo := mkTeamInfo {
  YellowCardTimes : list Duration.t;
  TimeoutTimeLeft : Duration.t;
}.

(** Modelled from the spec: the struct [State], declared outside refBox.go,
    with the fields of the spec's MatchState.  It is named [MatchState] here
    because the controller has a field called [State].  [GameStateFor] is a
    [*Team], nil when no team is designated; [TeamState] is a
    [map[Team]*TeamInfo]. *)
Record MatchState := mkState {
  GameState : GameStateKind;
  GameStateFor : option Team;
  StageTimeElapsed : Duration.t;
  StageTimeLeft : Duration.t;
  MatchDuration : Duration.t;
  TeamState : gmap Team tptr;
}.

Abbreviation TeamStore := (gmap tptr TeamInfo) (only parsing).

(** What a reader of a state sees once the pointers are followed. *)
Definition deepTeams (s : MatchState) (h : TeamStore) : gmap Team (option TeamInfo) :=
  (λ p, h !! p) <$> TeamState s.

Record DeepState := mkDeep {
  dGameState : GameStateKind;
  dGameStateFor : option Team;
  dStageTimeElapsed : Duration.t;
  dStageTimeLeft : Duration.t;
  dMatchDuration : Duration.t;
  dTeamState : gmap Team (option TeamInfo);
}.

Definition deep (s : MatchState) (h : TeamStore) : DeepState :=
  {| dGameState := GameState s;
     dGameStateFor := GameStateFor s;
     dStageTimeElapsed := StageTimeElapsed s;
     dStageTimeLeft := StageTimeLeft s;
     dMatchDuration := MatchDuration s;
     dTeamState := deepTeams s h |}.

(** Open files ([*os.File]); a missing descriptor is a nil or closed file. *)
Abbreviation fd := positive (only parsing).

Record FileState := mkFile {
  content : list byte;
  offset : nat;
}.

(** The controller object.  Its timer, configuration, stage table, publisher
    and API server are collaborators; their calls appear as effects. *)
Abbreviation ctrl := positive (only parsing).

Record GameController := mkController {
  State : MatchState;
  MatchTimeStart : Time.t;
  StateHistory : list MatchState;
  stateHistoryFile : option fd;
  lastStateFile : option fd;
}.

(** [var RefBox = NewRefBox()]: the package-level singleton. *)
Definition RefBox : ctrl := 1%positive.

(** ** Collaborators *)

Inductive ProcessResult (Event : Type) :=
| Rejected (err : string)
| Accepted (event' : Event) (s' : MatchState) (h' : TeamStore).
Arguments Rejected {Event} err.
Arguments Accepted {Event} event' s' h'.

(** Modelled from the spec: the rules engine [processEvent], the [Event] and
    [EventCommand] types and the JSON encoding of a state are outside
    refBox.go.  The rules engine takes the event and the singleton's state
    and returns either an error or a mutation, the resulting command being
    read from the event afterwards; the codec follows the pointers of the
    state it encodes and allocates the objects of the state it decodes. *)
Class Collaborators := {
  Event : Type;
  EventCommand : Type;
  Command : Event → option EventCommand;
  processEvent : Event → MatchState → TeamStore → ProcessResult Event;
  Marshal : MatchState → TeamStore → option (list byte);
  MarshalIndent : MatchState → TeamStore → option (list byte);
  Unmarshal : list byte → MatchState → TeamStore → option (MatchState * TeamStore);
}.

(** ** The JSON codec and a sample rules engine

    One inhabitant of [Collaborators], used to run the controller on concrete
    worlds.  The codec writes a state the way [encoding/json] lays out a
    struct of these fields (compact for [Marshal], two-space indentation for
    [MarshalIndent]) and reads it back into an existing state, reusing its
    map and allocating one fresh [TeamInfo] per decoded team.  It stands for
    [encoding/json] on the states called [encodable] below: plain names,
    which JSON writes without escapes, and an object for every team. *)

Global Instance byte_eq_dec : EqDecision byte := Byte.byte_eq_dec.

Module Json.

#[local] Unset Elimination Schemes.
Inductive Json :=
| JNull
| JNum (z : Z)
| JStr (s : list byte)
| JArr (l : list Json)
| JObj (l : list (list byte * Json)).
#[local] Set Elimination Schemes.

Definition bytes (s : string) : list byte := String.list_byte_of_string s.

Definition decimal (z : Z) : list byte := bytes (NilZero.string_of_int (Z.to_int z)).

(** The quotation mark. *)
Definition quote : byte := Byte.x22.

Definition quoted (s : list byte) : list byte := quote :: s ++ [quote].

Definition intercalate (sep : list byte) (parts : list (list byte)) : list byte :=
  match parts with
  | [] => []
  | p :: ps => p ++ concat ((λ q, sep ++ q) <$> ps)
  end.

(** [json.Marshal] *)
Fixpoint render (j : Json) : list byte :=
  match j with
  | JNull => bytes "null"
  | JNum z => decimal z
  | JStr s => quoted s
  | JArr l => bytes "[" ++ intercalate (bytes ",") (render <$> l) ++ bytes "]"
  | JObj l =>
      bytes "{" ++
      intercalate (bytes ",")
        ((fix members (l : list (list byte * Json)) : list (list byte) :=
            match l with
            | [] => []
            | (k, v) :: l' => (quoted k ++ bytes ":" ++ render v) :: members l'
            end) l) ++
      bytes "}"
  end.

Definition indentation (depth : nat) : list byte :=
  Byte.x0a :: concat (replicate depth (bytes "  ")).

(** [json.MarshalIndent] with an empty prefix and a two-space indent. *)
Fixpoint renderIndent (depth : nat) (j : Json) : list byte :=
  match j with
  | JNull => bytes "null"
  | JNum z => decimal z
  | JStr s => quoted s
  | JArr [] => bytes "[]"
  | JArr l =>
      bytes "[" ++ indentation (S depth) ++
      intercalate (bytes "," ++ indentation (S depth)) (renderIndent (S depth) <$> l) ++
      indentation depth ++ bytes "]"
  | JObj [] => bytes "{}"
  | JObj l =>
      bytes "{" ++ indentation (S depth) ++
      intercalate (bytes "," ++ indentation (S depth))
        ((fix members (l : list (list byte * Json)) : list (list byte) :=
            match l with
            | [] => []
            | (k, v) :: l' => (quoted k ++ bytes ": " ++ renderIndent (S depth) v) :: members l'
            end) l) ++
      indentation depth ++ bytes "}"
  end.

Inductive Token :=
| TLBrace | TRBrace | TLBrack | TRBrack | TColon | TComma
| TNull
| TNum (z : Z)
| TStr (s : list byte).

Inductive LexState :=
| LexIdle
| LexStr (acc : list byte)
| LexNum (neg : bool) (acc : Z)
| LexWord (acc : list byte).

Definition digit (b : byte) : option Z :=
  let n := Z.of_N (Byte.to_N b) in
  if bool_decide (48 ≤ n ≤ 57)%Z then Some (n - 48)%Z else None.

Definition isSpace (b : byte) : bool :=
  bool_decide (b = Byte.x20 ∨ b = Byte.x0a ∨ b = Byte.x0d ∨ b = Byte.x09).

Definition isLetter (b : byte) : bool :=
  let n := Z.of_N (Byte.to_N b) in bool_decide (97 ≤ n ≤ 122)%Z.

(** One byte read between tokens: the token it completes, if any, and the
    state it leaves the lexer in. *)
Definition lexIdle (b : byte) : option (list Token * LexState) :=
  if isSpace b then Some ([], LexIdle)
  else if bool_decide (b = "{"%byte) then Some ([TLBrace], LexIdle)
  else if bool_decide (b = "}"%byte) then Some ([TRBrace], LexIdle)
  else if bool_decide (b = "["%byte) then Some ([TLBrack], LexIdle)
  else if bool_decide (b = "]"%byte) then Some ([TRBrack], LexIdle)
  else if bool_decide (b = ":"%byte) then Some ([TColon], LexIdle)
  else if bool_decide (b = ","%byte) then Some ([TComma], LexIdle)
  else if bool_decide (b = quote) then Some ([], LexStr [])
  else if bool_decide (b = "-"%byte) then Some ([], LexNum true 0)
  else if isLetter b then Some ([], LexWord [b])
  else match digit b with
       | Some d => Some ([], LexNum false d)
       | None => None
       end.

Definition numToken (neg : bool) (acc : Z) : Token :=
  TNum (if neg then - acc else acc)%Z.

Definition wordToken (acc : list byte) : option Token :=
  if bool_decide (rev acc = bytes "null") then Some TNull else None.

Fixpoint lex (st : LexState) (bs : list byte) : option (list Token) :=
  match bs with
  | [] =>
      match st with
      | LexIdle => Some []
      | LexStr _ => None
      | LexNum neg acc => Some [numToken neg acc]
      | LexWord acc => t ← wordToken acc; Some [t]
      end
  | b :: bs' =>
      match st with
      | LexIdle => '(ts, st') ← lexIdle b; rest ← lex st' bs'; Some (ts ++ rest)
      | LexStr acc =>
          if bool_decide (b = quote) then rest ← lex LexIdle bs'; Some (TStr (rev acc) :: rest)
          else lex (LexStr (b :: acc)) bs'
      | LexNum neg acc =>
          match digit b with
          | Some d => lex (LexNum neg (10 * acc + d)) bs'
          | None => '(ts, st') ← lexIdle b; rest ← lex st' bs'; Some (numToken neg acc :: ts ++ rest)
          end
      | LexWord acc =>
          if isLetter b then lex (LexWord (b :: acc)) bs'
          else t ← wordToken acc; '(ts, st') ← lexIdle b; rest ← lex st' bs'; Some (t :: ts ++ rest)
      end
  end.

Fixpoint parseValue (fuel : nat) (ts : list Token) : option (Json * list Token) :=
  match fuel with
  | 0 => None
  | S fuel =>
      match ts with
      | TNull :: r => Some (JNull, r)
      | TNum z :: r => Some (JNum z, r)
      | TStr s :: r => Some (JStr s, r)
      | TLBrack :: TRBrack :: r => Some (JArr [], r)
      | TLBrack :: r => '(l, r') ← parseElements fuel r; Some (JArr l, r')
      | TLBrace :: TRBrace :: r => Some (JObj [], r)
      | TLBrace :: r => '(l, r') ← parseMembers fuel r; Some (JObj l, r')
      | _ => None
      end
  end
with parseElements (fuel : nat) (ts : list Token) : option (list Json * list Token) :=
  match fuel with
  | 0 => None
  | S fuel =>
      '(v, r) ← parseValue fuel ts;
      match r with
      | TComma :: r' => '(l, r'') ← parseElements fuel r'; Some (v :: l, r'')
      | TRBrack :: r' => Some ([v], r')
      | _ => None
      end
  end
with parseMembers (fuel : nat) (ts : list Token) : option (list (list byte * Json) * list Token) :=
  match fuel with
  | 0 => None
  | S fuel =>
      match ts with
      | TStr k :: TColon :: r =>
          '(v, r') ← parseValue fuel r;
          match r' with
          | TComma :: r'' => '(l, r''') ← parseMembers fuel r''; Some ((k, v) :: l, r''')
          | TRBrace :: r'' => Some ([(k, v)], r'')
          | _ => None
          end
      | _ => None
      end
  end.

Definition parse (bs : list byte) : option Json :=
  ts ← lex LexIdle bs;
  '(j, r) ← parseValue (S (length ts)) ts;
  match r with
  | [] => Some j
  | _ => None
  end.

(** *** States as JSON *)

Definition gameStateName (g : GameStateKind) : string :=
  match g with
  | GameStateRunning => "Running"
  | GameStateTimeout => "Timeout"
  | GameStateOther name => name
  end.

Definition gameStateOfName (name : string) : GameStateKind :=
  if bool_decide (name = "Running") then GameStateRunning
  else if bool_decide (name = "Timeout") then GameStateTimeout
  else GameStateOther name.

Definition teamInfoJson (info : TeamInfo) : Json :=
  JObj [ (bytes "yellowCardTimes", JArr (JNum <$> YellowCardTimes info));
         (bytes "timeoutTimeLeft", JNum (TimeoutTimeLeft info)) ].

(** Modelled from the spec: the JSON value that [encoding/json] makes of a
    [State]; the struct and its field tags are declared outside refBox.go.
    One member per field of the spec's MatchState, the teams as an object
    keyed by team name, each team with its cards and its remaining
    timeout. *)
Definition stateJson (s : MatchState) (h : gmap positive TeamInfo) : Json :=
  JObj [ (bytes "gameState", JStr (bytes (gameStateName (GameState s))));
         (bytes "gameStateForTeam",
            match GameStateFor s with
            | Some team => JStr (bytes team)
            | None => JNull
            end);
         (bytes "stageTimeElapsed", JNum (StageTimeElapsed s));
         (bytes "stageTimeLeft", JNum (StageTimeLeft s));
         (bytes "matchDuration", JNum (MatchDuration s));
         (bytes "teamState",
            JObj ((λ kv, (bytes kv.1,
                          match h !! kv.2 with
                          | Some info => teamInfoJson info
                          | None => JNull
                          end)) <$> map_to_list (TeamState s))) ].

Definition field (k : string) (l : list (list byte * Json)) : option Json :=
  (list_find (λ kv, kv.1 = bytes k) l) ≫= λ r, Some r.2.2.

Definition asNum (j : Json) : option Z :=
  match j with JNum z => Some z | _ => None end.

Definition asNums (j : Json) : option (list Z) :=
  match j with
  | JArr l => mapM asNum l
  | JNull => Some []
  | _ => None
  end.

Definition teamInfoOfJson (j : Json) : option TeamInfo :=
  match j with
  | JObj l =>
      cards ← field "yellowCardTimes" l ≫= asNums;
      left ← field "timeoutTimeLeft" l ≫= asNum;
      Some {| YellowCardTimes := cards; TimeoutTimeLeft := left |}
  | _ => None
  end.

(** One decoded team: a fresh object, and the map entry pointing to it. *)
Definition decodeTeam (acc : option (gmap string positive * gmap positive TeamInfo))
    (kv : list byte * Json) : option (gmap string positive * gmap positive TeamInfo) :=
  '(m, h) ← acc;
  info ← teamInfoOfJson kv.2;
  let p := fresh (dom h) in
  Some (<[String.string_of_list_byte kv.1 := p]> m, <[p := info]> h).

(** Modelled from the spec: what [json.Unmarshal] makes of such a value
    when it decodes into an existing [State] [s0]: the fields are replaced,
    and the map of teams is reused, every decoded team getting a fresh
    object while the entries of [s0] that the value does not name stay. *)
Definition stateOfJson (j : Json) (s0 : MatchState) (h : gmap positive TeamInfo)
  : option (MatchState * gmap positive TeamInfo) :=
  match j with
  | JObj l =>
      mode ← match field "gameState" l with
             | Some (JStr name) => Some (gameStateOfName (String.string_of_list_byte name))
             | _ => None
             end;
      for_ ← match field "gameStateForTeam" l with
             | Some (JStr team) => Some (Some (String.string_of_list_byte team))
             | Some JNull => Some None
             | _ => None
             end;
      elapsed ← field "stageTimeElapsed" l ≫= asNum;
      left ← field "stageTimeLeft" l ≫= asNum;
      duration ← field "matchDuration" l ≫= asNum;
      '(m, h') ← match field "teamState" l with
                 | Some (JObj entries) => foldl decodeTeam (Some (TeamState s0, h)) entries
                 | _ => None
                 end;
      Some ({| GameState := mode; GameStateFor := for_;
               StageTimeElapsed := elapsed; StageTimeLeft := left;
               MatchDuration := duration; TeamState := m |}, h')
  | _ => None
  end.

(** *** The token stream of a value *)

(** Token runs with a comma between them. *)
Definition joinTokens (parts : list (list Token)) : list Token :=
  match parts with
  | [] => []
  | p :: ps => p ++ concat ((λ q, TComma :: q) <$> ps)
  end.

(** The tokens that the lexer is to find in an encoding of [j]. *)
Fixpoint tokens (j : Json) : list Token :=
  match j with
  | JNull => [TNull]
  | JNum z => [TNum z]
  | JStr s => [TStr s]
  | JArr l => TLBrack :: joinTokens (tokens <$> l) ++ [TRBrack]
  | JObj l => TLBrace :: joinTokens ((λ '(k, v), TStr k :: TColon :: tokens v) <$> l) ++ [TRBrace]
  end.

(** Fuel that suffices to parse the tokens of a value. *)
Fixpoint weight (j : Json) : nat :=
  match j with
  | JArr l => S (foldr (λ v n, S (weight v) + n) 0 l)
  | JObj l => S (foldr (λ '(k, v) n, S (weight v) + n) 0 l)
  | _ => 1
  end.

(** The number that a run of digits denotes, read from the left. *)
Fixpoint horner (d : Decimal.uint) (acc : Z) : Z :=
  match d with
  | Decimal.Nil => acc
  | Decimal.D0 d => horner d (10 * acc)
  | Decimal.D1 d => horner d (10 * acc + 1)
  | Decimal.D2 d => horner d (10 * acc + 2)
  | Decimal.D3 d => horner d (10 * acc + 3)
  | Decimal.D4 d => horner d (10 * acc + 4)
  | Decimal.D5 d => horner d (10 * acc + 5)
  | Decimal.D6 d => horner d (10 * acc + 6)
  | Decimal.D7 d => horner d (10 * acc + 7)
  | Decimal.D8 d => horner d (10 * acc + 8)
  | Decimal.D9 d => horner d (10 * acc + 9)
  end%Z.

(** What may come after a number or a word: the end of the input, or a byte
    that ends it. *)
Definition follows (rest : list byte) : Prop :=
  match rest with
  | [] => True
  | b :: _ => digit b = None ∧ isLetter b = false
  end.

(** No string of the value holds a quotation mark. *)
Fixpoint good (j : Json) : Prop :=
  match j with
  | JStr s => quote ∉ s
  | JArr l => foldr (λ v P, good v ∧ P) True l
  | JObj l => foldr (λ '(k, v) P, ((quote ∉ k) ∧ good v) ∧ P) True l
  | _ => True
  end.

(** The first token of a value opens it. *)
Definition opens (t : Token) : Prop :=
  match t with
  | TNull | TNum _ | TStr _ | TLBrack | TLBrace => True
  | _ => False
  end.

(** Bytes that lex to the tokens [ts], whatever comes after them. *)
Definition lexesTo (bs : list byte) (ts : list Token) : Prop :=
  ∀ rest, follows rest → lex LexIdle (bs ++ rest) = (ts ++.) <$> lex LexIdle rest.

(** With enough fuel the parser reads the tokens of [j] as [j]. *)
Definition parsesAs (j : Json) : Prop :=
  ∀ fuel r, weight j ≤ fuel → parseValue fuel (tokens j ++ r) = Some (j, r).

(** *** The states that the codec stands for

    A name is plain when it is made of printable ASCII bytes that JSON
    writes as they are (no quotation mark, backslash, angle bracket or
    ampersand). *)
Definition plainByte (b : byte) : bool :=
  let n := Z.of_N (Byte.to_N b) in
  bool_decide (32 ≤ n ≤ 126 ∧ n ≠ 34 ∧ n ≠ 92 ∧ n ≠ 60 ∧ n ≠ 62 ∧ n ≠ 38)%Z.

Definition plain (name : string) : Prop := Forall (λ b, plainByte b = true) (bytes name).

(** The run-mode is written under its own name, every name is plain and
    every team has its object. *)
Definition encodable (s : MatchState) (h : gmap positive TeamInfo) : Prop :=
  gameStateOfName (gameStateName (GameState s)) = GameState s ∧
  plain (gameStateName (GameState s)) ∧
  (∀ team, GameStateFor s = Some team → plain team) ∧
  (∀ team p, TeamState s !! team = Some p → plain team ∧ is_Some (h !! p)).

(** A team of a state as the encoder writes it. *)
Definition teamEntry (h : gmap positive TeamInfo) (kv : string * positive) : list byte * Json :=
  (bytes kv.1,
   match h !! kv.2 with
   | Some info => teamInfoJson info
   | None => JNull
   end).

End Json.

(** The sample rules engine: a command event changes the run-mode, a card
    event (an event without a command) gives a team a two-minute yellow card,
    anything else is rejected. *)
Record SampleEvent := mkEvent {
  eventCommand : option string;
  eventCard : option Team;
}.

Definition sampleProcessEvent (event : SampleEvent) (s : MatchState)
    (h : gmap positive TeamInfo) : ProcessResult SampleEvent :=
  let mode (g : GameStateKind) :=
    {| GameState := g; GameStateFor := None;
       StageTimeElapsed := StageTimeElapsed s; StageTimeLeft := StageTimeLeft s;
       MatchDuration := MatchDuration s; TeamState := TeamState s |} in
  match eventCommand event with
  | Some command =>
      if bool_decide (command = "start") then Accepted event (mode GameStateRunning) h
      else if bool_decide (command = "halt") then Accepted event (mode GameStateHalted) h
      else Rejected "unknown command"
  | None =>
      match eventCard event with
      | Some team =>
          match TeamState s !! team ≫= λ p, (λ info, (p, info)) <$> h !! p with
          | Some (p, info) =>
              Accepted event s
                (<[p := {| YellowCardTimes := YellowCardTimes info ++ [120 * Duration.Second]%Z;
                           TimeoutTimeLeft := TimeoutTimeLeft info |}]> h)
          | None => Rejected "unknown team"
          end
      | None => Rejected "empty event"
      end
  end.

Definition sampleCollaborators : Collaborators :=
  {| Event := SampleEvent;
     EventCommand := string;
     Command := eventCommand;
     processEvent := sampleProcessEvent;
     Marshal := λ s h, Some (Json.render (Json.stateJson s h));
     MarshalIndent := λ s h, Some (Json.renderIndent 0 (Json.stateJson s h));
     Unmarshal := λ b s0 h, Json.parse b ≫= λ j, Json.stateOfJson j s0 h |}.

(** ** Card loops on the backing array of [YellowCardTimes] *)

(** [for i := range s { s[i] -= delta }] *)
Definition reduce_step (delta : Duration.t) (arr : list Duration.t) (i : nat) : list Duration.t :=
  match arr !! i with
  | Some x => <[i := Duration.sub x delta]> arr
  | None => arr
  end.

Definition reduce_loop (delta : Duration.t) (s : list Duration.t) : list Duration.t :=
  foldl (reduce_step delta) s (seq 0 (length s)).

(** [b := s[:0]; for _, x := range s { if x > 0 { b = append(b, x) } }]:
    [b] shares the backing array of [s], so [append] writes slot [len(b)] of
    the array the loop is still reading.  The loop state is the array and
    [len(b)]. *)
Definition remove_step (st : list Duration.t * nat) (i : nat) : list Duration.t * nat :=
  match st.1 !! i with
  | Some x => if bool_decide (0 < x)%Z then (<[st.2 := x]> st.1, S st.2) else st
  | None => st
  end.

Definition remove_loop (s : list Duration.t) : list Duration.t :=
  let st := foldl remove_step (s, 0) (seq 0 (length s)) in
  take st.2 st.1.

(** ** The world and the monad of controller methods *)

Section Controller.
Context {C : Collaborators}.

Inductive IOError := EOF | ErrInvalid.

(** Calls that leave the controller: log lines, system calls on the two
    files, and the two publish sinks. *)
Inductive Effect :=
| EvLog (msg : string)
| EvTruncate (f : fd) (size : nat)
| EvWriteAt (f : fd) (data : list byte) (off : nat)
| EvWrite (f : fd) (data : list byte)
| EvSync (f : fd)
| EvApiPublishState (r : ctrl) (s : MatchState)
| EvPublish (r : ctrl) (s : MatchState) (command : option EventCommand).

Record World := mkWorld {
  ctrls : gmap ctrl GameController;
  teams : TeamStore;
  files : gmap fd FileState;
  trace : list Effect;
}.

Inductive Outcome (A : Type) :=
| Ok (a : A) (w : World)
| Fatal (w : World)
| Panic (w : World).
Arguments Ok {A} a w.
Arguments Fatal {A} w.
Arguments Panic {A} w.

Definition M (A : Type) : Type := World → Outcome A.

Global Instance M_ret : MRet M := λ A a w, Ok a w.
Global Instance M_bind : MBind M := λ A B f m w,
  match m w with
  | Ok a w' => f a w'
  | Fatal w' => Fatal w'
  | Panic w' => Panic w'
  end.

Definition panic {A} : M A := λ w, Panic w.
Definition emit (e : Effect) : M unit := λ w,
  Ok tt {| ctrls := ctrls w; teams := teams w; files := files w; trace := trace w ++ [e] |}.

(** [log.Print]: a line on the log. *)
Definition logPrint (msg : string) : M unit := emit (EvLog msg).

(** [log.Fatal]: a line on the log, then the process exits. *)
Definition logFatal {A} (msg : string) : M A := λ w,
  Fatal {| ctrls := ctrls w; teams := teams w; files := files w; trace := trace w ++ [EvLog msg] |}.

Definition getTeams : M TeamStore := λ w, Ok (teams w) w.
Definition setTeams (h : TeamStore) : M unit := λ w,
  Ok tt {| ctrls := ctrls w; teams := h; files := files w; trace := trace w |}.

(** Dereference of a controller pointer. *)
Definition getCtrl (r : ctrl) : M GameController := λ w,
  match ctrls w !! r with
  | Some c => Ok c w
  | None => Panic w
  end.

Definition setCtrl (r : ctrl) (c : GameController) : M unit := λ w,
  Ok tt {| ctrls := <[r := c]> (ctrls w); teams := teams w; files := files w; trace := trace w |}.

Definition withState (c : GameController) (s : MatchState) : GameController :=
  {| State := s; MatchTimeStart := MatchTimeStart c; StateHistory := StateHistory c;
     stateHistoryFile := stateHistoryFile c; lastStateFile := lastStateFile c |}.

Definition withStateHistory (c : GameController) (l : list MatchState) : GameController :=
  {| State := State c; MatchTimeStart := MatchTimeStart c; StateHistory := l;
     stateHistoryFile := stateHistoryFile c; lastStateFile := lastStateFile c |}.

(** [*r.State = s] *)
Definition setState (r : ctrl) (s : MatchState) : M unit :=
  c ← getCtrl r; setCtrl r (withState c s).

(** Dereference of a [*TeamInfo]. *)
Definition getTeam (p : tptr) : M TeamInfo := λ w,
  match teams w !! p with
  | Some info => Ok info w
  | None => Panic w
  end.

Definition setTeam (p : tptr) (info : TeamInfo) : M unit := λ w,
  Ok tt {| ctrls := ctrls w; teams := <[p := info]> (teams w); files := files w; trace := trace w |}.

(** A [for] loop over a list, stopping at the first failure. *)
Fixpoint forEach {A} (body : A → M unit) (l : list A) : M unit :=
  match l with
  | [] => mret tt
  | x :: l' => body x ≫= λ _, forEach body l'
  end.

(** *** System calls on [*os.File]

    A call on a nil or closed file fails with [ErrInvalid] and touches
    nothing; a call on an open file succeeds and is recorded. *)

Definition setFile (f : fd) (st : FileState) : M unit := λ w,
  Ok tt {| ctrls := ctrls w; teams := teams w; files := <[f := st]> (files w); trace := trace w |}.

Definition openFile (h : option fd) : M (option (fd * FileState)) := λ w,
  match h with
  | Some f => match files w !! f with
              | Some st => Ok (Some (f, st)) w
              | None => Ok None w
              end
  | None => Ok None w
  end.

(** [f.Read(b)] with [len(b) = n]: the bytes read and the error. *)
Definition file_Read (h : option fd) (n : nat) : M (list byte * option IOError) :=
  o ← openFile h;
  match o with
  | None => mret ([], Some ErrInvalid)
  | Some (f, st) =>
      let b := take n (drop (offset st) (content st)) in
      setFile f {| content := content st; offset := offset st + length b |} ;;
      mret (b, if bool_decide (length b = 0 ∧ 0 < n) then Some EOF else None)
  end.

(** [f.Truncate(size)] *)
Definition file_Truncate (h : option fd) (size : nat) : M (option IOError) :=
  o ← openFile h;
  match o with
  | None => mret (Some ErrInvalid)
  | Some (f, st) =>
      emit (EvTruncate f size) ;;
      setFile f {| content := take size (content st) ++ replicate (size - length (content st)) Byte.x00;
                   offset := offset st |} ;;
      mret None
  end.

(** [f.WriteAt(b, off)] *)
Definition file_WriteAt (h : option fd) (b : list byte) (off : nat) : M (option IOError) :=
  o ← openFile h;
  match o with
  | None => mret (Some ErrInvalid)
  | Some (f, st) =>
      let padded := content st ++ replicate (off - length (content st)) Byte.x00 in
      emit (EvWriteAt f b off) ;;
      setFile f {| content := take off padded ++ b ++ drop (off + length b) padded;
                   offset := offset st |} ;;
      mret None
  end.

(** [f.Write(b)] on a file opened with [O_APPEND]. *)
Definition file_Write (h : option fd) (b : list byte) : M (option IOError) :=
  o ← openFile h;
  match o with
  | None => mret (Some ErrInvalid)
  | Some (f, st) =>
      emit (EvWrite f b) ;;
      setFile f {| content := content st ++ b; offset := offset st |} ;;
      mret None
  end.

(** [f.Sync()] *)
Definition file_Sync (h : option fd) : M (option IOError) :=
  o ← openFile h;
  match o with
  | None => mret (Some ErrInvalid)
  | Some (f, _) => emit (EvSync f) ;; mret None
  end.

(** ** The methods of refBox.go *)

(** [bufSize := 10000] in [readLastState]. *)
Definition bufSize : nat := Z.to_nat 10000.

Definition withStageTimes (s : MatchState) (elapsed left : Duration.t) : MatchState :=
  {| GameState := GameState s; GameStateFor := GameStateFor s;
     StageTimeElapsed := elapsed; StageTimeLeft := left;
     MatchDuration := MatchDuration s; TeamState := TeamState s |}.

Definition withMatchDuration (s : MatchState) (d : Duration.t) : MatchState :=
  {| GameState := GameState s; GameStateFor := GameStateFor s;
     StageTimeElapsed := StageTimeElapsed s; StageTimeLeft := StageTimeLeft s;
     MatchDuration := d; TeamState := TeamState s |}.

Definition withYellowCardTimes (info : TeamInfo) (l : list Duration.t) : TeamInfo :=
  {| YellowCardTimes := l; TimeoutTimeLeft := TimeoutTimeLeft info |}.

Definition withTimeoutTimeLeft (info : TeamInfo) (d : Duration.t) : TeamInfo :=
  {| YellowCardTimes := YellowCardTimes info; TimeoutTimeLeft := d |}.

(** [reduceYellowCardTimes(teamState *TeamInfo, delta)] *)
Definition reduceYellowCardTimes (teamState : tptr) (delta : Duration.t) : M unit :=
  info ← getTeam teamState;
  setTeam teamState (withYellowCardTimes info (reduce_loop delta (YellowCardTimes info))).

(** [removeElapsedYellowCards(teamState *TeamInfo)]: after the loop,
    [teamState.YellowCardTimes = b]. *)
Definition removeElapsedYellowCards (teamState : tptr) : M unit :=
  info ← getTeam teamState;
  setTeam teamState (withYellowCardTimes info (remove_loop (YellowCardTimes info))).

(** The pointers visited by [range r.State.TeamState]; Go fixes no order. *)
Definition teamPointers (s : MatchState) : list tptr := (map_to_list (TeamState s)).*2.

(** [updateTimes(r, delta)]: two [if] statements in sequence.  Running: the
    two stage times move, then every team has its cards reduced and the
    elapsed ones removed.  Timeout with [GameStateFor != nil]: the map is
    indexed with the designated team and [TimeoutTimeLeft] of the result is
    decremented; a team without an entry yields the nil pointer, and the
    field access through it panics. *)
Definition updateTimes (r : ctrl) (delta : Duration.t) : M unit :=
  c ← getCtrl r;
  (if bool_decide (GameState (State c) = GameStateRunning) then
     setState r (withStageTimes (State c)
                   (Duration.add (StageTimeElapsed (State c)) delta)
                   (Duration.sub (StageTimeLeft (State c)) delta)) ;;
     forEach (λ teamState,
                reduceYellowCardTimes teamState delta ;;
                removeElapsedYellowCards teamState)
             (teamPointers (State c))
   else mret tt) ;;
  c ← getCtrl r;
  if bool_decide (GameState (State c) = GameStateTimeout) then
    match GameStateFor (State c) with
    | Some team =>
        match TeamState (State c) !! team with
        | Some p =>
            info ← getTeam p;
            setTeam p (withTimeoutTimeLeft info (Duration.sub (TimeoutTimeLeft info) delta))
        | None => panic
        end
    | None => mret tt
    end
  else mret tt.

(** [Tick()]: [updateTimes(r, r.timer.Delta())], then the match duration is
    set to [time.Now().Sub(r.MatchTimeStart)] if the match start is after
    [time.Unix(0, 0)].  The timer's delta and the current time are inputs. *)
Definition Tick (r : ctrl) (delta : Duration.t) (now : Time.t) : M unit :=
  updateTimes r delta ;;
  c ← getCtrl r;
  if Time.After (MatchTimeStart c) Time.Unix00 then
    setState r (withMatchDuration (State c) (Time.Sub now (MatchTimeStart c)))
  else mret tt.

(** [SaveLatestState()]: encode with indentation (a failure is logged and
    ends the call), truncate the snapshot file to zero (a failure is fatal),
    write the encoding at offset zero (a failure is logged), sync. *)
Definition SaveLatestState (r : ctrl) : M unit :=
  c ← getCtrl r;
  h ← getTeams;
  match MarshalIndent (State c) h with
  | None => logPrint "Can not marshal state "
  | Some jsonState =>
      err ← file_Truncate (lastStateFile c) 0;
      match err with
      | Some _ => logFatal "Can not truncate last state file "
      | None =>
          err ← file_WriteAt (lastStateFile c) jsonState 0;
          match err with
          | Some _ => logPrint "Could not write last state "
          | None => mret tt
          end ;;
          file_Sync (lastStateFile c) ;;
          mret tt
      end
  end.

Definition newline : list byte := [Byte.x0a].

(** [SaveStateHistory()]: [append(r.StateHistory, *r.State)], a copy of the
    struct, pointers included; then the compact encoding and a line break
    are written to the history file (errors ignored), and the file synced. *)
Definition SaveStateHistory (r : ctrl) : M unit :=
  c ← getCtrl r;
  setCtrl r (withStateHistory c (StateHistory c ++ [State c])) ;;
  h ← getTeams;
  match Marshal (State c) h with
  | None => logPrint "Can not marshal state "
  | Some jsonState =>
      file_Write (stateHistoryFile c) jsonState ;;
      file_Write (stateHistoryFile c) newline ;;
      file_Sync (stateHistoryFile c) ;;
      mret tt
  end.

(** [SaveState()] *)
Definition SaveState (r : ctrl) : M unit :=
  SaveLatestState r ;; SaveStateHistory r.

(** [Publish(command)]: [if command != nil { RefBox.SaveState() }], then
    [r.ApiServer.PublishState] of the value of [RefBox.State] and
    [RefBox.Publisher.Publish(RefBox.State, command)]. *)
Definition Publish (r : ctrl) (command : option EventCommand) : M unit :=
  match command with
  | Some _ => SaveState RefBox
  | None => mret tt
  end ;;
  _ ← getCtrl r;
  g ← getCtrl RefBox;
  emit (EvApiPublishState r (State g)) ;;
  g ← getCtrl RefBox;
  emit (EvPublish RefBox (State g) command).

(** [OnNewEvent(event)]: [processEvent(&event)]; on an error, a log line and
    return; otherwise [r.Publish(event.Command)].  [processEvent] has no
    receiver: it works on the singleton. *)
Definition OnNewEvent (r : ctrl) (event : Event) : M unit :=
  g ← getCtrl RefBox;
  h ← getTeams;
  match processEvent event (State g) h with
  | Rejected err => logPrint "Could not process event:"
  | Accepted event' s' h' =>
      setState RefBox s' ;;
      setTeams h' ;;
      Publish r (Command event')
  end.

(** [readLastState()]: one [Read] of [r.lastStateFile] into a buffer of
    [bufSize] bytes; an error other than [io.EOF] is fatal, a full buffer is
    fatal, and [n > 0] bytes are decoded into [RefBox.State], a decoding
    error being fatal. *)
Definition readLastState (r : ctrl) : M unit :=
  c ← getCtrl r;
  res ← file_Read (lastStateFile c) bufSize;
  match res.2 with
  | Some ErrInvalid => logFatal "Could not read from last state file "
  | _ =>
      if bool_decide (length res.1 = bufSize) then logFatal "Buffer size too small"
      else if bool_decide (0 < length res.1) then
        g ← getCtrl RefBox;
        h ← getTeams;
        match Unmarshal res.1 (State g) h with
        | None => logFatal "Could not read last state: "
        | Some (s', h') => setState RefBox s' ;; setTeams h'
        end
      else mret tt
  end.

(** [UndoLastAction()]: with [lastIndex := len(r.StateHistory) - 2], if
    [lastIndex >= 0] then [*r.State = r.StateHistory[lastIndex]] and
    [r.StateHistory = r.StateHistory[0:lastIndex]]. *)
Definition UndoLastAction (r : ctrl) : M unit :=
  c ← getCtrl r;
  let lastIndex := (Z.of_nat (length (StateHistory c)) - 2)%Z in
  if bool_decide (0 ≤ lastIndex)%Z then
    match StateHistory c !! Z.to_nat lastIndex with
    | Some s =>
        setState r s ;;
        c ← getCtrl r;
        setCtrl r (withStateHistory c (take (Z.to_nat lastIndex) (StateHistory c)))
    | None => panic
    end
  else mret tt.

(** The loop started by [Run], for as many rounds as the clock has
    readings: each round takes the timer's delta and the current time, ticks,
    and publishes without a command. *)
Fixpoint runLoop (r : ctrl) (clock : list (Duration.t * Time.t)) : M unit :=
  match clock with
  | [] => mret tt
  | (delta, now) :: clock' => Tick r delta now ;; Publish r None ;; runLoop r clock'
  end.

(** ** Vocabulary of the statements *)

(** The world an outcome ends in; after [Fatal] or [Panic] it is the world
    the process dies in. *)
Definition outcomeWorld {A} (o : Outcome A) : World :=
  match o with
  | Ok _ w => w
  | Fatal w => w
  | Panic w => w
  end.

(** Whether a run returned. *)
Definition returned {A} (o : Outcome A) : bool :=
  match o with
  | Ok _ _ => true
  | _ => false
  end.

(** Every pointer of [TeamState] has its object. *)
Definition teamsAllocated (s : MatchState) (h : TeamStore) : Prop :=
  map_Forall (λ _ p, is_Some (h !! p)) (TeamState s).

(** No two teams share one [TeamInfo] object. *)
Definition teamsUnshared (s : MatchState) : Prop :=
  ∀ t1 t2 p, TeamState s !! t1 = Some p → TeamState s !! t2 = Some p → t1 = t2.

(** The effect of one iteration of the card loop on the object at [p]. *)
Definition tickCards (delta : Duration.t) (info : TeamInfo) : TeamInfo :=
  withYellowCardTimes info
    (filter (λ x, 0 < x)%Z ((λ x, Duration.sub x delta) <$> YellowCardTimes info)).

Definition tickTeam (delta : Duration.t) (h : TeamStore) (p : tptr) : TeamStore :=
  match h !! p with
  | Some info => <[p := tickCards delta info]> h
  | None => h
  end.

Definition withTeams (w : World) (h : TeamStore) : World :=
  {| ctrls := ctrls w; teams := h; files := files w; trace := trace w |}.

Definition withCtrls (w : World) (m : gmap ctrl GameController) : World :=
  {| ctrls := m; teams := teams w; files := files w; trace := trace w |}.

(** The recomputation of the match duration at the end of [Tick]. *)
Definition stampDuration (c : GameController) (now : Time.t) : GameController :=
  if Time.After (MatchTimeStart c) Time.Unix00
  then withState c (withMatchDuration (State c) (Time.Sub now (MatchTimeStart c)))
  else c.

(** A computation preserves [R] when every outcome, also a fatal exit or a
    panic, ends in a world related to the one it started in. *)
Definition preserves {A} (R : World → World → Prop) (m : M A) : Prop :=
  ∀ w, R w (outcomeWorld (m w)).

(** Everything of a controller but its [State]. *)
Definition ctrlFrame (c c' : GameController) : Prop :=
  MatchTimeStart c' = MatchTimeStart c ∧ StateHistory c' = StateHistory c ∧
  stateHistoryFile c' = stateHistoryFile c ∧ lastStateFile c' = lastStateFile c.

(** No controller appears or disappears, none changes outside its [State]
    (so every HistoryLog is as it was), no file changes and no call leaves
    the controller. *)
Definition tickFrame (w w' : World) : Prop :=
  files w' = files w ∧ trace w' = trace w ∧
  ∀ r, option_Forall2 ctrlFrame (ctrls w !! r) (ctrls w' !! r).

(** Every [TeamInfo] object that is not reached through a pointer of [ps]
    is as it was. *)
Definition objectsKept (ps : list tptr) (w w' : World) : Prop :=
  ∀ p, p ∉ ps → teams w' !! p = teams w !! p.

(** Every [TeamInfo] object keeps its remaining timeout. *)
Definition timeoutsKept (w w' : World) : Prop :=
  ∀ p info, teams w !! p = Some info →
    ∃ info', teams w' !! p = Some info' ∧ TimeoutTimeLeft info' = TimeoutTimeLeft info.

(** The same world with another HistoryLog in controller [r0]. *)
Definition setHistory (r0 : ctrl) (l : list MatchState) (w : World) : World :=
  withCtrls w (alter (λ c, withStateHistory c l) r0 (ctrls w)).

Definition mapOutcome {A} (f : World → World) (o : Outcome A) : Outcome A :=
  match o with
  | Ok a w => Ok a (f w)
  | Fatal w => Fatal (f w)
  | Panic w => Panic (f w)
  end.

(** A computation does not read the HistoryLog of any controller: run with
    another HistoryLog, it does the same and leaves that HistoryLog in
    place. *)
Definition readsNoHistory {A} (m : M A) : Prop :=
  ∀ r0 l w, m (setHistory r0 l w) = mapOutcome (setHistory r0 l) (m w).

(** ** Compositions and frames of the further statements *)

(** [k] calls of [UndoLastAction] in a row. *)
Fixpoint undoTimes (k : nat) (r : ctrl) : M unit :=
  match k with
  | 0 => mret tt
  | S k' => UndoLastAction r ;; undoTimes k' r
  end.

(** Every card of every team is an int64 and stays one when [d] is taken
    off. *)
Definition cardsWithin (d : Z) (s : MatchState) (h : TeamStore) : Prop :=
  ∀ team p info, TeamState s !! team = Some p → h !! p = Some info →
    Forall (λ x, Duration.inRange x ∧ Duration.inRange (x - d)) (YellowCardTimes info).

(** The in-memory part of the world is as it was. *)
Definition memoryFrame (w w' : World) : Prop :=
  ctrls w' = ctrls w ∧ teams w' = teams w.

(** Every file holds what it held (its read offset may have moved), and no
    file appeared or disappeared. *)
Definition contentFrame (w w' : World) : Prop :=
  ∀ f, content <$> files w' !! f = content <$> files w !! f.

(** The calls of a publish without a command. *)
Definition isHeartbeat (e : Effect) : Prop :=
  match e with
  | EvApiPublishState _ _ => True
  | EvPublish _ _ None => True
  | _ => False
  end.

(** Nothing but heartbeats left the controller, no file changed, and every
    controller is as it was outside its [State]. *)
Definition heartbeatFrame (w w' : World) : Prop :=
  files w' = files w ∧
  (∀ r, option_Forall2 ctrlFrame (ctrls w !! r) (ctrls w' !! r)) ∧
  ∃ evs, trace w' = trace w ++ evs ∧ Forall isHeartbeat evs.

End Controller.

Arguments Ok {C A} a w.
Arguments Fatal {C A} w.
Arguments Panic {C A} w.

(** ** The stage table *)

(** Modelled from the spec: the part of [Config] that [loadStages] reads,
    declared outside refBox.go: the scheduled durations of a half, of the
    half-time break and of the break after, for regulation time ([Normal])
    and for overtime ([Overtime]). *)
Record ConfigSpecial := mkConfigSpecial {
  HalfDuration : Duration.t;
  HalfTimeDuration : Duration.t;
  BreakAfter : Duration.t;
}.

Record Config := mkConfig {
  Normal : ConfigSpecial;
  Overtime : ConfigSpecial;
}.

Section Stages.
Context {Stage : Type} `{Countable Stage}.

(** The type [Stage], the eight stage constants that [loadStages] names and
    the list [Stages] are declared outside refBox.go. *)
Variables StageFirstHalf StageHalfTime StageSecondHalf StageOvertimeBreak : Stage.
Variables StageOvertimeFirstHalf StageOvertimeHalfTime StageOvertimeSecondHalf : Stage.
Variable StageShootoutBreak : Stage.
Variable Stages : list Stage.

(** A run of assignments [m[k] = v], first to last. *)
Definition assign (kvs : list (Stage * Z)) (m : gmap Stage Z) : gmap Stage Z :=
  foldl (λ m kv, <[kv.1 := kv.2]> m) m kvs.

(** The stages with a duration of their own, in the order of assignment. *)
Definition timedStages : list Stage :=
  [StageFirstHalf; StageHalfTime; StageSecondHalf; StageOvertimeBreak;
   StageOvertimeFirstHalf; StageOvertimeHalfTime; StageOvertimeSecondHalf;
   StageShootoutBreak].

(** [loadStages()]: the table [r.StageTimes] it builds from [r.Config]: a
    fresh map, zero for every stage of [Stages], then the eight
    assignments. *)
Definition loadStages (config : Config) : gmap Stage Duration.t :=
  let t := foldl (λ m stage, <[stage := 0%Z]> m) ∅ Stages in
  let t := <[StageFirstHalf := HalfDuration (Normal config)]> t in
  let t := <[StageHalfTime := HalfTimeDuration (Normal config)]> t in
  let t := <[StageSecondHalf := HalfDuration (Normal config)]> t in
  let t := <[StageOvertimeBreak := BreakAfter (Normal config)]> t in
  let t := <[StageOvertimeFirstHalf := HalfDuration (Overtime config)]> t in
  let t := <[StageOvertimeHalfTime := HalfTimeDuration (Overtime config)]> t in
  let t := <[StageOvertimeSecondHalf := HalfDuration (Overtime config)]> t in
  <[StageShootoutBreak := BreakAfter (Overtime config)]> t.

(** The eight assignments, as pairs. *)
Definition stageAssignments (config : Config) : list (Stage * Z) :=
  [(StageFirstHalf, HalfDuration (Normal config));
   (StageHalfTime, HalfTimeDuration (Normal config));
   (StageSecondHalf, HalfDuration (Normal config));
   (StageOvertimeBreak, BreakAfter (Normal config));
   (StageOvertimeFirstHalf, HalfDuration (Overtime config));
   (StageOvertimeHalfTime, HalfTimeDuration (Overtime config));
   (StageOvertimeSecondHalf, HalfDuration (Overtime config));
   (StageShootoutBreak, BreakAfter (Overtime config))].

End Stages.

(** Sample stage names. *)
Definition sampleStages : list string :=
  ["Pre-First Half"; "First Half"; "Half Time"; "Pre-Second Half"; "Second Half";
   "Overtime Break"; "Pre-Overtime First Half"; "Overtime First Half";
   "Overtime Half Time"; "Pre-Overtime Second Half"; "Overtime Second Half";
   "Shootout Break"; "Shootout"; "End of Game"].

Definition sampleLoadStages (config : Config) : gmap string Z :=
  loadStages "First Half" "Half Time" "Second Half" "Overtime Break"
    "Overtime First Half" "Overtime Half Time" "Overtime Second Half" "Shootout Break"
    sampleStages config.

Definition sampleConfig : Config :=
  {| Normal := {| HalfDuration := 300 * Duration.Second;
                  HalfTimeDuration := 300 * Duration.Second;
                  BreakAfter := 300 * Duration.Second |};
     Overtime := {| HalfDuration := 150 * Duration.Second;
                    HalfTimeDuration := 120 * Duration.Second;
                    BreakAfter := 120 * Duration.Second |} |}%Z.

(** ** Sample worlds

    Two teams, the singleton with its two files, and a second controller
    with files of its own; the collaborators are the sample ones. *)

Module Sample.

Definition yellow : TeamInfo :=
  {| YellowCardTimes := [120 * Duration.Second; 1 * Duration.Second]%Z;
     TimeoutTimeLeft := (300 * Duration.Second)%Z |}.

Definition blue : TeamInfo :=
  {| YellowCardTimes := []; TimeoutTimeLeft := (300 * Duration.Second)%Z |}.

Definition store : gmap positive TeamInfo := {[ 1%positive := yellow; 2%positive := blue ]}.

Definition state (mode : GameStateKind) (team : option Team) : MatchState :=
  {| GameState := mode; GameStateFor := team;
     StageTimeElapsed := 0; StageTimeLeft := (600 * Duration.Second)%Z;
     MatchDuration := 0;
     TeamState := {[ "Yellow" := 1%positive; "Blue" := 2%positive ]} |}.

Definition controller (s : MatchState) (history : list MatchState) : GameController :=
  {| State := s; MatchTimeStart := Time.Unix00; StateHistory := history;
     stateHistoryFile := Some 2%positive; lastStateFile := Some 1%positive |}.

(** The world of the singleton alone, with a given recovery snapshot. *)
Definition world (s : MatchState) (history : list MatchState) (snapshot : list byte)
  : @World sampleCollaborators :=
  {| ctrls := {[ RefBox := controller s history ]};
     teams := store;
     files := {[ 1%positive := {| content := snapshot; offset := 0 |};
                 2%positive := {| content := []; offset := 0 |} ]};
     trace := [] |}.

(** A second controller, Halted, with a snapshot file of its own. *)
Definition other : positive := 2%positive.

Definition otherController : GameController :=
  {| State := {| GameState := GameStateHalted; GameStateFor := None;
                 StageTimeElapsed := 7; StageTimeLeft := 8; MatchDuration := 9;
                 TeamState := ∅ |};
     MatchTimeStart := Time.Unix00; StateHistory := [];
     stateHistoryFile := Some 4%positive; lastStateFile := Some 3%positive |}.

Definition twoControllers (s : MatchState) (snapshot : list byte)
  : @World sampleCollaborators :=
  {| ctrls := {[ RefBox := controller s []; other := otherController ]};
     teams := store;
     files := {[ 1%positive := {| content := []; offset := 0 |};
                 2%positive := {| content := []; offset := 0 |};
                 3%positive := {| content := snapshot; offset := 0 |};
                 4%positive := {| content := []; offset := 0 |} ]};
     trace := [] |}.

Definition S0 : MatchState := state GameStateHalted None.
Definition S1 : MatchState := state GameStateRunning None.
Definition S2 : MatchState := state GameStateTimeout (Some "Yellow").

(** A yellow card for team Yellow: an event without a command. *)
Definition cardEvent : SampleEvent := {| eventCommand := None; eventCard := Some "Yellow" |}.
Definition startEvent : SampleEvent := {| eventCommand := Some "start"; eventCard := None |}.
Definition bogusEvent : SampleEvent := {| eventCommand := Some "dance"; eventCard := None |}.

(** A state with a thousand yellow cards on one team. *)
Definition manyCards : list Z := replicate 1000 (120 * Duration.Second)%Z.

Definition bigWorld : @World sampleCollaborators :=
  {| ctrls := {[ RefBox := controller S1 [] ]};
     teams := {[ 1%positive := {| YellowCardTimes := manyCards; TimeoutTimeLeft := 0 |};
                 2%positive := blue ]};
     files := {[ 1%positive := {| content := []; offset := 0 |};
                 2%positive := {| content := []; offset := 0 |} ]};
     trace := [] |}.

(** The indented snapshot of [S1] with the sample teams. *)
Definition snapshot : list byte := Json.renderIndent 0 (Json.stateJson S1 store).

(** What the sample decoder makes of [snapshot] on top of a sample state:
    the decoded fields, and two fresh objects for the two teams. *)
Definition decoded : MatchState * gmap positive TeamInfo := Eval vm_compute in
  default (S0, store) (@Unmarshal sampleCollaborators snapshot S0 store).

(** A fresh start: default state [S0], and [snapshot] on disk. *)
Definition atStartup : @World sampleCollaborators := world S0 [] snapshot.

(** Named worlds: the singleton after two commits, while Halted, in play,
    in Yellow's timeout, and in a timeout for a team without an entry. *)
Definition afterTwoCommits : @World sampleCollaborators := world S2 [S0; S1; S2] [].
Definition whileHalted : @World sampleCollaborators := world S0 [S0] [].
Definition inPlay : @World sampleCollaborators := world S1 [] [].
Definition inTimeout : @World sampleCollaborators := world S2 [] [].
Definition strayTimeout : @World sampleCollaborators :=
  world (state GameStateTimeout (Some "Green")) [] [].

(** In play right after a commit: the HistoryLog holds a copy of the current
    state. *)
Definition afterCommit : @World sampleCollaborators := world S1 [S1] [].

(** In play with ten minutes left and one card of two minutes. *)
Definition oneCard : @World sampleCollaborators :=
  {| ctrls := {[ RefBox := controller S1 [] ]};
     teams := {[ 1%positive := {| YellowCardTimes := [120 * Duration.Second]%Z;
                                  TimeoutTimeLeft := 0 |};
                 2%positive := blue ]};
     files := ∅;
     trace := [] |}.

(** A clock that ticks once a second. *)
Definition seconds (n : nat) : list (Z * Z) := replicate n (Duration.Second, 0%Z).

(** The stage times of the singleton and Yellow's cards, where a run ends. *)
Definition reading (o : @Outcome sampleCollaborators unit) : option (Z * Z) * option (list Z) :=
  ((λ c, (StageTimeElapsed (State c), StageTimeLeft (State c))) <$> ctrls (outcomeWorld o) !! RefBox,
   YellowCardTimes <$> teams (outcomeWorld o) !! 1%positive).

End Sample.

(** ** Further sample worlds *)

(** Collaborators whose encoder always fails. *)
Definition brokenCollaborators : Collaborators :=
  {| Event := SampleEvent;
     EventCommand := string;
     Command := eventCommand;
     processEvent := sampleProcessEvent;
     Marshal := λ _ _, None;
     MarshalIndent := λ _ _, None;
     Unmarshal := λ _ _ _, None |}.

Module Further.

(** A controller as [NewRefBox] leaves it: no file opened yet. *)
Definition unopenedController : GameController :=
  {| State := Sample.S1; MatchTimeStart := Time.Unix00; StateHistory := [];
     stateHistoryFile := None; lastStateFile := None |}.

Definition unopened : @World sampleCollaborators :=
  {| ctrls := {[ RefBox := unopenedController ]}; teams := Sample.store;
     files := ∅; trace := [] |}.

(** In play, with a team whose entry points to no object. *)
Definition strayState : MatchState :=
  {| GameState := GameStateRunning; GameStateFor := None;
     StageTimeElapsed := 0; StageTimeLeft := (600 * Duration.Second)%Z;
     MatchDuration := 0;
     TeamState := {[ "Yellow" := 1%positive; "Green" := 9%positive ]} |}.

Definition strayPointer : @World sampleCollaborators :=
  Sample.world strayState [] [].

(** Halted, the match having started a thousand seconds after the epoch. *)
Definition startedController : GameController :=
  {| State := Sample.S0; MatchTimeStart := (1000 * Duration.Second)%Z; StateHistory := [];
     stateHistoryFile := None; lastStateFile := None |}.

Definition started : @World sampleCollaborators :=
  {| ctrls := {[ RefBox := startedController ]}; teams := Sample.store;
     files := ∅; trace := [] |}.

(** In play, the HistoryLog holding an entry whose team has an object of its
    own. *)
Definition ownEntry : MatchState :=
  {| GameState := GameStateHalted; GameStateFor := None;
     StageTimeElapsed := 0; StageTimeLeft := (600 * Duration.Second)%Z;
     MatchDuration := 0;
     TeamState := {[ "Yellow" := 3%positive ]} |}.

Definition detached : @World sampleCollaborators :=
  {| ctrls := {[ RefBox := Sample.controller Sample.S1 [ownEntry] ]};
     teams := <[3%positive := Sample.yellow]> Sample.store;
     files := ∅; trace := [] |}.

(** After four commits. *)
Definition afterFourCommits : @World sampleCollaborators :=
  Sample.world Sample.S1 [Sample.S0; Sample.S1; Sample.S2; Sample.S1] [].

(** In play, with an old snapshot on disk that is twice as long as the
    next one. *)
Definition staleSnapshot : @World sampleCollaborators :=
  Sample.world Sample.S1 [] (Sample.snapshot ++ Sample.snapshot).

(** In play, with an encoder that fails. *)
Definition unencodable : @World brokenCollaborators :=
  {| ctrls := {[ RefBox := Sample.controller Sample.S1 [] ]}; teams := Sample.store;
     files := {[ 1%positive := {| content := []; offset := 0 |};
                 2%positive := {| content := []; offset := 0 |} ]};
     trace := [] |}.

End Further.

(** * Properties *)

(** ** int64 arithmetic *)

Lemma wrap_inRange z : Duration.inRange z → Duration.wrap z = z.
Proof.
  unfold Duration.inRange, Duration.minDuration, Duration.maxDuration, Duration.wrap.
  intros Hz. rewrite Z.mod_small; lia.
Qed.

Lemma wrap_is_inRange z : Duration.inRange (Duration.wrap z).
Proof.
  unfold Duration.inRange, Duration.minDuration, Duration.maxDuration, Duration.wrap.
  pose proof (Z.mod_pos_bound (z + 2 ^ 63) (2 ^ 64)). lia.
Qed.

Lemma wrap_congr a b : ((a - b) `mod` 2 ^ 64 = 0)%Z → Duration.wrap a = Duration.wrap b.
Proof.
  intros Hab. unfold Duration.wrap. f_equal.
  apply Z.mod_divide in Hab as [k Hk]; [|lia].
  replace (a + 2 ^ 63)%Z with (b + 2 ^ 63 + k * 2 ^ 64)%Z by lia.
  apply Z.mod_add. lia.
Qed.

Lemma wrap_diff z : ∃ k, (Duration.wrap z = z + k * 2 ^ 64)%Z.
Proof.
  unfold Duration.wrap. exists (- ((z + 2 ^ 63) `div` 2 ^ 64))%Z.
  pose proof (Z.div_mod (z + 2 ^ 63) (2 ^ 64)). lia.
Qed.

Lemma add_sub_lockstep a b d :
  Duration.add (Duration.add a d) (Duration.sub b d) = Duration.add a b.
Proof.
  unfold Duration.add, Duration.sub. apply wrap_congr.
  destruct (wrap_diff (a + d)) as [k1 ->], (wrap_diff (b - d)) as [k2 ->].
  replace (a + d + k1 * 2 ^ 64 + (b - d + k2 * 2 ^ 64) - (a + b))%Z
    with ((k1 + k2) * 2 ^ 64)%Z by lia.
  apply Z.mod_mul. lia.
Qed.

(** ** The card loops compute a map and a filter *)

Lemma reduce_steps delta suf : ∀ pre,
  foldl (reduce_step delta) (pre ++ suf) (seq (length pre) (length suf))
  = pre ++ ((λ x, Duration.sub x delta) <$> suf).
Proof.
  induction suf as [|x suf IH]; intros pre; simpl; [done|].
  unfold reduce_step at 2.
  rewrite list_lookup_middle by done.
  rewrite insert_app_r_alt, Nat.sub_diag by lia. simpl.
  specialize (IH (pre ++ [Duration.sub x delta])).
  rewrite length_app, <- !app_assoc in IH. simpl in IH.
  rewrite Nat.add_1_r in IH. by rewrite IH.
Qed.

Lemma reduce_loop_map delta s :
  reduce_loop delta s = (λ x, Duration.sub x delta) <$> s.
Proof. apply (reduce_steps delta s []). Qed.

Lemma remove_steps suf : ∀ kept junk,
  ∃ junk',
    foldl remove_step (kept ++ junk ++ suf, length kept)
          (seq (length kept + length junk) (length suf))
    = (kept ++ filter (λ x, 0 < x)%Z suf ++ junk', length (kept ++ filter (λ x, 0 < x)%Z suf)).
Proof.
  induction suf as [|x suf IH]; intros kept junk; simpl.
  { exists junk. by rewrite !app_nil_r. }
  unfold remove_step at 2. simpl.
  assert (Hx : (kept ++ junk ++ x :: suf) !! (length kept + length junk) = Some x).
  { rewrite app_assoc. rewrite <- length_app. by apply list_lookup_middle. }
  rewrite Hx. case_bool_decide as Hpos.
  - rewrite filter_cons_True by done.
    destruct junk as [|y junk].
    + simpl. rewrite insert_app_r_alt, Nat.sub_diag by lia. simpl.
      destruct (IH (kept ++ [x]) []) as [junk' Hj].
      rewrite length_app in Hj. simpl in Hj.
      rewrite Nat.add_0_r in *. rewrite Nat.add_1_r in Hj.
      rewrite <- !app_assoc in Hj. simpl in Hj.
      exists junk'. rewrite Hj. f_equal; rewrite ?length_app; simpl; lia.
    + rewrite insert_app_r_alt, Nat.sub_diag by lia. simpl.
      destruct (IH (kept ++ [x]) (junk ++ [x])) as [junk' Hj].
      rewrite !length_app in Hj. simpl in Hj.
      rewrite <- !app_assoc in Hj. simpl in Hj.
      replace (length kept + 1 + (length junk + 1)) with (S (length kept + S (length junk))) in Hj by lia.
      rewrite Nat.add_1_r in Hj.
      exists junk'. rewrite Hj. f_equal; rewrite ?length_app; simpl; lia.
  - rewrite filter_cons_False by done.
    destruct (IH kept (junk ++ [x])) as [junk' Hj].
    rewrite !length_app in Hj. simpl in Hj.
    rewrite <- !app_assoc in Hj. simpl in Hj.
    replace (length kept + (length junk + 1)) with (S (length kept + length junk)) in Hj by lia.
    exists junk'. rewrite Hj. f_equal; rewrite ?length_app; simpl; lia.
Qed.

Lemma remove_loop_filter s :
  remove_loop s = filter (λ x, 0 < x)%Z s.
Proof.
  unfold remove_loop.
  destruct (remove_steps s [] []) as [junk' Hj]. simpl in Hj. rewrite Hj. simpl.
  by rewrite take_app_length.
Qed.

Section Properties.
Context {C : Collaborators}.

(** ** The card loop over the store *)

(** Projections of worlds and records, without touching the finite maps. *)
Ltac wsimpl :=
  cbn [outcomeWorld mapOutcome ctrls teams files trace withCtrls withTeams
       State MatchTimeStart StateHistory stateHistoryFile lastStateFile
       withState withStateHistory
       GameState GameStateFor StageTimeElapsed StageTimeLeft MatchDuration TeamState
       withStageTimes withMatchDuration
       YellowCardTimes TimeoutTimeLeft withYellowCardTimes withTimeoutTimeLeft
       content offset] in *.

Lemma bind_Ok {A B} (m : M A) (f : A → M B) (w w' : World) a :
  m w = Ok a w' → (m ≫= f) w = f a w'.
Proof. intros Hm. unfold mbind, M_bind. by rewrite Hm. Qed.

Lemma bind_Fatal {A B} (m : M A) (f : A → M B) (w w' : World) :
  m w = Fatal w' → (m ≫= f) w = Fatal w'.
Proof. intros Hm. unfold mbind, M_bind. by rewrite Hm. Qed.

Lemma bind_Panic {A B} (m : M A) (f : A → M B) (w w' : World) :
  m w = Panic w' → (m ≫= f) w = Panic w'.
Proof. intros Hm. unfold mbind, M_bind. by rewrite Hm. Qed.

Lemma getTeam_Ok p info (w : World) :
  teams w !! p = Some info → getTeam p w = Ok info w.
Proof. intros Hp. unfold getTeam. by rewrite Hp. Qed.

Lemma getTeam_Panic p (w : World) :
  teams w !! p = None → getTeam p w = Panic w.
Proof. intros Hp. unfold getTeam. by rewrite Hp. Qed.

Lemma getCtrl_Ok r c (w : World) :
  ctrls w !! r = Some c → getCtrl r w = Ok c w.
Proof. intros Hr. unfold getCtrl. by rewrite Hr. Qed.

Lemma getCtrl_Panic r (w : World) :
  ctrls w !! r = None → getCtrl r w = Panic w.
Proof. intros Hr. unfold getCtrl. by rewrite Hr. Qed.

Lemma setState_Ok r c s (w : World) :
  ctrls w !! r = Some c →
  setState r s w = Ok tt (withCtrls w (<[r := withState c s]> (ctrls w))).
Proof. intros Hr. unfold setState. by rewrite (bind_Ok _ _ _ _ _ (getCtrl_Ok _ _ _ Hr)). Qed.

Lemma card_iteration delta p info (w : World) :
  teams w !! p = Some info →
  (reduceYellowCardTimes p delta ;; removeElapsedYellowCards p) w
  = Ok tt (withTeams w (tickTeam delta (teams w) p)).
Proof.
  intros Hp. unfold reduceYellowCardTimes, removeElapsedYellowCards.
  rewrite (bind_Ok _ _ w (withTeams w (<[p := withYellowCardTimes info (reduce_loop delta (YellowCardTimes info))]> (teams w))) tt).
  2: { by rewrite (bind_Ok _ _ _ _ _ (getTeam_Ok _ _ _ Hp)). }
  erewrite bind_Ok; [|apply getTeam_Ok, lookup_insert_eq].
  unfold setTeam, withTeams, tickTeam, tickCards, withYellowCardTimes. cbn [teams ctrls files trace YellowCardTimes TimeoutTimeLeft].
  rewrite Hp, insert_insert_eq.
  by rewrite reduce_loop_map, remove_loop_filter.
Qed.

Lemma tickTeam_allocated delta h p q :
  is_Some (tickTeam delta h p !! q) ↔ is_Some (h !! q).
Proof.
  unfold tickTeam. destruct (h !! p) as [info|] eqn:Hp; [|done].
  destruct (decide (p = q)) as [->|Hne].
  - rewrite lookup_insert_eq, Hp. split; eauto.
  - by rewrite lookup_insert_ne.
Qed.

Lemma card_loop delta ps : ∀ w : World,
  Forall (λ p, is_Some (teams w !! p)) ps →
  forEach (λ p, reduceYellowCardTimes p delta ;; removeElapsedYellowCards p) ps w
  = Ok tt (withTeams w (foldl (tickTeam delta) (teams w) ps)).
Proof.
  induction ps as [|p ps IH]; intros w Hps; simpl.
  { by destruct w. }
  apply Forall_cons in Hps as [[info Hp] Hps].
  unfold mbind at 1, M_bind at 1.
  rewrite (card_iteration _ _ _ _ Hp).
  rewrite IH; [done|].
  simpl. eapply Forall_impl; [exact Hps|].
  intros q Hq. simpl in Hq. by apply tickTeam_allocated.
Qed.

(** ** [updateTimes] and [Tick], branch by branch *)

Lemma world_eta (w : World) : withCtrls w (ctrls w) = w.
Proof. by destruct w. Qed.

Lemma teamPointers_spec s p :
  p ∈ teamPointers s ↔ ∃ team, TeamState s !! team = Some p.
Proof.
  unfold teamPointers. rewrite list_elem_of_fmap. split.
  - intros [[team q] [-> Hin]]. exists team. by apply elem_of_map_to_list.
  - intros [team Hteam]. exists (team, p). split; [done|]. by apply elem_of_map_to_list.
Qed.

Lemma teamPointers_NoDup s : teamsUnshared s → NoDup (teamPointers s).
Proof.
  intros Hun. unfold teamPointers. apply NoDup_fmap_2_strong.
  - intros [t1 p1] [t2 p2] H1%elem_of_map_to_list H2%elem_of_map_to_list Heq.
    simpl in Heq. subst p2. f_equal. eapply Hun; eauto.
  - apply NoDup_map_to_list.
Qed.

Lemma teamPointers_allocated s (h : gmap positive TeamInfo) :
  teamsAllocated s h → Forall (λ p, is_Some (h !! p)) (teamPointers s).
Proof.
  intros Hal. apply Forall_forall. intros p [team Hteam]%teamPointers_spec. eauto.
Qed.

Lemma updateTimes_running r c delta (w : World) :
  ctrls w !! r = Some c →
  GameState (State c) = GameStateRunning →
  teamsAllocated (State c) (teams w) →
  updateTimes r delta w
  = Ok tt {| ctrls := <[r := withState c (withStageTimes (State c)
                                 (Duration.add (StageTimeElapsed (State c)) delta)
                                 (Duration.sub (StageTimeLeft (State c)) delta))]> (ctrls w);
             teams := foldl (tickTeam delta) (teams w) (teamPointers (State c));
             files := files w; trace := trace w |}.
Proof.
  intros Hr Hrun Hal. unfold updateTimes.
  rewrite (bind_Ok _ _ _ _ _ (getCtrl_Ok _ _ _ Hr)).
  rewrite Hrun. rewrite bool_decide_eq_true_2 by done.
  erewrite bind_Ok; cycle 1.
  { erewrite bind_Ok; [|by apply setState_Ok].
    apply card_loop. by apply teamPointers_allocated. }
  erewrite bind_Ok; [|apply getCtrl_Ok; apply lookup_insert_eq].
  cbn [State withState GameState withStageTimes].
  rewrite Hrun. by rewrite bool_decide_eq_false_2.
Qed.

Lemma updateTimes_timeout_lookup r c team delta (w : World) :
  ctrls w !! r = Some c →
  GameState (State c) = GameStateTimeout →
  GameStateFor (State c) = Some team →
  updateTimes r delta w
  = match TeamState (State c) !! team ≫= λ p, (λ info, (p, info)) <$> teams w !! p with
    | Some (p, info) =>
        Ok tt (withTeams w (<[p := withTimeoutTimeLeft info
                                     (Duration.sub (TimeoutTimeLeft info) delta)]> (teams w)))
    | None => Panic w
    end.
Proof.
  intros Hr Hmode Hfor. unfold updateTimes.
  rewrite (bind_Ok _ _ _ _ _ (getCtrl_Ok _ _ _ Hr)).
  rewrite Hmode. rewrite bool_decide_eq_false_2 by done.
  erewrite bind_Ok; [|reflexivity].
  rewrite (bind_Ok _ _ _ _ _ (getCtrl_Ok _ _ _ Hr)).
  rewrite Hmode, bool_decide_eq_true_2, Hfor by done.
  destruct (TeamState (State c) !! team) as [p|]; [|done]. simpl.
  destruct (teams w !! p) as [info|] eqn:Hp; simpl.
  - by rewrite (bind_Ok _ _ _ _ _ (getTeam_Ok _ _ _ Hp)).
  - by rewrite (bind_Panic _ _ _ _ (getTeam_Panic _ _ Hp)).
Qed.

Lemma updateTimes_idle r c delta (w : World) :
  ctrls w !! r = Some c →
  GameState (State c) ≠ GameStateRunning →
  GameState (State c) ≠ GameStateTimeout ∨ GameStateFor (State c) = None →
  updateTimes r delta w = Ok tt w.
Proof.
  intros Hr Hrun Hidle. unfold updateTimes.
  rewrite (bind_Ok _ _ _ _ _ (getCtrl_Ok _ _ _ Hr)).
  rewrite bool_decide_eq_false_2 by done.
  erewrite bind_Ok; [|reflexivity].
  rewrite (bind_Ok _ _ _ _ _ (getCtrl_Ok _ _ _ Hr)).
  destruct Hidle as [Hmode|Hfor].
  - by rewrite bool_decide_eq_false_2.
  - rewrite Hfor. by case_bool_decide.
Qed.

(** The second half of [Tick], after [updateTimes] has returned. *)
Lemma Tick_after_update r c1 delta now (w w1 : World) :
  updateTimes r delta w = Ok tt w1 →
  ctrls w1 !! r = Some c1 →
  Tick r delta now w = Ok tt (withCtrls w1 (<[r := stampDuration c1 now]> (ctrls w1))).
Proof.
  intros Hup Hr1. unfold Tick.
  rewrite (bind_Ok _ _ _ _ _ Hup).
  rewrite (bind_Ok _ _ _ _ _ (getCtrl_Ok _ _ _ Hr1)).
  unfold stampDuration. destruct (Time.After _ _).
  - by apply setState_Ok.
  - rewrite insert_id by done. by rewrite world_eta.
Qed.

Lemma tickTeam_lookup delta (h : gmap positive TeamInfo) p q :
  tickTeam delta h q !! p = if decide (p = q) then tickCards delta <$> h !! p else h !! p.
Proof.
  unfold tickTeam. case_decide as Hpq.
  - subst q. destruct (h !! p) as [info|] eqn:Hp.
    + by rewrite lookup_insert_eq.
    + by rewrite Hp.
  - destruct (h !! q); [|done]. by rewrite lookup_insert_ne.
Qed.

Lemma tickTeams_lookup_notin delta ps : ∀ (h : gmap positive TeamInfo) p,
  p ∉ ps → foldl (tickTeam delta) h ps !! p = h !! p.
Proof.
  induction ps as [|q ps IH]; intros h p Hp; simpl; [done|].
  apply not_elem_of_cons in Hp as [Hne Hp].
  rewrite IH by done. rewrite tickTeam_lookup. by case_decide.
Qed.

Lemma tickTeams_lookup_in delta ps : ∀ (h : gmap positive TeamInfo) p,
  NoDup ps → p ∈ ps → foldl (tickTeam delta) h ps !! p = tickCards delta <$> h !! p.
Proof.
  induction ps as [|q ps IH]; intros h p Hnd Hp; simpl.
  { by apply elem_of_nil in Hp. }
  apply NoDup_cons in Hnd as [Hq Hnd].
  apply elem_of_cons in Hp as [->|Hp].
  - rewrite tickTeams_lookup_notin by done.
    rewrite tickTeam_lookup. by case_decide.
  - rewrite IH by done. rewrite tickTeam_lookup.
    case_decide; [by subst|done].
Qed.

(** Go fixes no order for [range] over a map.  The card loop does the same
    whatever the order: its iterations commute. *)
Lemma tickTeam_comm delta (h : gmap positive TeamInfo) p q :
  tickTeam delta (tickTeam delta h p) q = tickTeam delta (tickTeam delta h q) p.
Proof.
  apply map_eq. intros i. rewrite !tickTeam_lookup.
  repeat case_decide; subst; done.
Qed.

Lemma tickTeams_order delta ps ps' :
  ps ≡ₚ ps' → ∀ h : gmap positive TeamInfo,
  foldl (tickTeam delta) h ps = foldl (tickTeam delta) h ps'.
Proof.
  induction 1 as [|p ps ps' _ IH|p q ps|ps1 ps2 ps3 _ IH1 _ IH2]; intros h; simpl.
  - done.
  - apply IH.
  - by rewrite tickTeam_comm.
  - by rewrite IH1.
Qed.

(** X15: the card loop does not depend on the order in which [range] visits
    the teams: over any two orders of the same pointers, all allocated, it
    returns the same world. *)
Lemma card_loop_order delta ps ps' (w : World) :
  ps ≡ₚ ps' →
  Forall (λ p, is_Some (teams w !! p)) ps →
  forEach (λ p, reduceYellowCardTimes p delta ;; removeElapsedYellowCards p) ps w
  = forEach (λ p, reduceYellowCardTimes p delta ;; removeElapsedYellowCards p) ps' w.
Proof.
  intros Hperm Hps.
  rewrite !card_loop; [|by rewrite <- Hperm|done].
  by rewrite (tickTeams_order _ _ _ Hperm).
Qed.

(** The run-mode test of the timeout branch fails right after the running
    branch, whatever the stage times have become. *)
Lemma Tick_running r c delta now (w : World) :
  ctrls w !! r = Some c →
  GameState (State c) = GameStateRunning →
  teamsAllocated (State c) (teams w) →
  Tick r delta now w
  = Ok tt {| ctrls := <[r := stampDuration
                            (withState c (withStageTimes (State c)
                               (Duration.add (StageTimeElapsed (State c)) delta)
                               (Duration.sub (StageTimeLeft (State c)) delta))) now]> (ctrls w);
             teams := foldl (tickTeam delta) (teams w) (teamPointers (State c));
             files := files w; trace := trace w |}.
Proof.
  intros Hr Hrun Hal.
  erewrite Tick_after_update; [|by apply updateTimes_running|apply lookup_insert_eq].
  unfold withCtrls. cbn [ctrls teams files trace]. by rewrite insert_insert_eq.
Qed.

Lemma stampDuration_stage_times c now :
  StageTimeElapsed (State (stampDuration c now)) = StageTimeElapsed (State c) ∧
  StageTimeLeft (State (stampDuration c now)) = StageTimeLeft (State c) ∧
  TeamState (State (stampDuration c now)) = TeamState (State c) ∧
  GameState (State (stampDuration c now)) = GameState (State c) ∧
  GameStateFor (State (stampDuration c now)) = GameStateFor (State c).
Proof. unfold stampDuration. by destruct (Time.After _ _). Qed.

(** C3: a tick of [delta] in run-mode Running adds [delta] to the elapsed
    stage time and subtracts it from the remaining stage time, in int64
    arithmetic, so their int64 sum is the same before and after; as long as
    the results are representable these are the exact integers
    [elapsed + delta] and [left - delta] (the latter negative once the stage
    has run over) and the integer sum is unchanged. *)
Theorem tick_running_stage_times r c delta now (w : World) :
  ctrls w !! r = Some c →
  GameState (State c) = GameStateRunning →
  teamsAllocated (State c) (teams w) →
  ∃ w' c',
    Tick r delta now w = Ok tt w' ∧ ctrls w' !! r = Some c' ∧
    StageTimeElapsed (State c') = Duration.add (StageTimeElapsed (State c)) delta ∧
    StageTimeLeft (State c') = Duration.sub (StageTimeLeft (State c)) delta ∧
    Duration.add (StageTimeElapsed (State c')) (StageTimeLeft (State c'))
    = Duration.add (StageTimeElapsed (State c)) (StageTimeLeft (State c)) ∧
    (Duration.inRange (StageTimeElapsed (State c) + delta) →
     StageTimeElapsed (State c') = (StageTimeElapsed (State c) + delta)%Z) ∧
    (Duration.inRange (StageTimeLeft (State c) - delta) →
     StageTimeLeft (State c') = (StageTimeLeft (State c) - delta)%Z) ∧
    (Duration.inRange (StageTimeElapsed (State c) + delta) →
     Duration.inRange (StageTimeLeft (State c) - delta) →
     (StageTimeElapsed (State c') + StageTimeLeft (State c')
      = StageTimeElapsed (State c) + StageTimeLeft (State c))%Z).
Proof.
  intros Hr Hrun Hal.
  eexists _, _. split; [by apply Tick_running|].
  split; [apply lookup_insert_eq|].
  destruct (stampDuration_stage_times
              (withState c (withStageTimes (State c)
                 (Duration.add (StageTimeElapsed (State c)) delta)
                 (Duration.sub (StageTimeLeft (State c)) delta))) now)
    as (-> & -> & _).
  cbn [State withState withStageTimes StageTimeElapsed StageTimeLeft].
  split; [done|]. split; [done|].
  split; [apply add_sub_lockstep|].
  unfold Duration.add, Duration.sub.
  split; [apply wrap_inRange|].
  split; [apply wrap_inRange|].
  intros H1 H2. rewrite !wrap_inRange by done. lia.
Qed.

(** C4: a tick of [delta] in run-mode Running turns the card sequence of
    every team into the cards [r - delta] (int64 subtraction) that are
    strictly positive, in their original order: a card is dropped exactly
    when its decremented value is [<= 0], a kept card holds exactly the
    decremented value, and kept cards keep their relative order.  With
    representable differences the decremented value is the integer
    [r - delta]. *)
Theorem tick_running_cards r c delta now team p info (w : World) :
  ctrls w !! r = Some c →
  GameState (State c) = GameStateRunning →
  teamsAllocated (State c) (teams w) →
  teamsUnshared (State c) →
  TeamState (State c) !! team = Some p →
  teams w !! p = Some info →
  ∃ w' c' info',
    Tick r delta now w = Ok tt w' ∧
    ctrls w' !! r = Some c' ∧ TeamState (State c') !! team = Some p ∧
    teams w' !! p = Some info' ∧
    YellowCardTimes info'
    = filter (λ x, 0 < x)%Z ((λ x, Duration.sub x delta) <$> YellowCardTimes info) ∧
    (Forall (λ x, Duration.inRange (x - delta)) (YellowCardTimes info) →
     YellowCardTimes info'
     = filter (λ x, 0 < x)%Z ((λ x, x - delta)%Z <$> YellowCardTimes info)).
Proof.
  intros Hr Hrun Hal Hun Hteam Hp.
  eexists _, _, _. split; [by apply Tick_running|].
  cbn [ctrls teams].
  split; [apply lookup_insert_eq|].
  split.
  { destruct (stampDuration_stage_times
                (withState c (withStageTimes (State c)
                   (Duration.add (StageTimeElapsed (State c)) delta)
                   (Duration.sub (StageTimeLeft (State c)) delta))) now)
      as (_ & _ & -> & _). done. }
  split.
  { rewrite tickTeams_lookup_in.
    - by rewrite Hp.
    - by apply teamPointers_NoDup.
    - apply teamPointers_spec. eauto. }
  cbn [tickCards withYellowCardTimes YellowCardTimes].
  split; [done|].
  intros Hrange. f_equal. apply Forall_fmap_ext_1.
  eapply Forall_impl; [exact Hrange|].
  intros x Hx. by apply wrap_inRange.
Qed.

(** ** Frames: what a computation leaves alone in every outcome *)

Lemma preserves_bind {A B} (R : World → World → Prop) (m : M A) (f : A → M B) :
  Transitive R → preserves R m → (∀ a, preserves R (f a)) → preserves R (m ≫= f).
Proof.
  intros HR Hm Hf w. specialize (Hm w). unfold mbind, M_bind.
  destruct (m w) as [a w'| |]; simpl in *; [|done..].
  etrans; [exact Hm|apply Hf].
Qed.

Lemma preserves_ret {A} (R : World → World → Prop) (a : A) :
  Reflexive R → preserves R (mret a).
Proof. intros HR w. apply HR. Qed.

Lemma preserves_panic {A} (R : World → World → Prop) :
  Reflexive R → preserves R (@panic C A).
Proof. intros HR w. apply HR. Qed.

Lemma preserves_getCtrl (R : World → World → Prop) r :
  Reflexive R → preserves R (getCtrl r).
Proof. intros HR w. unfold getCtrl. destruct (ctrls w !! r); apply HR. Qed.

Lemma preserves_getTeam (R : World → World → Prop) p :
  Reflexive R → preserves R (getTeam p).
Proof. intros HR w. unfold getTeam. destruct (teams w !! p); apply HR. Qed.

Lemma preserves_forEach {A} (R : World → World → Prop) (body : A → M unit) l :
  Reflexive R → Transitive R → (∀ a, preserves R (body a)) → preserves R (forEach body l).
Proof.
  intros HR HT Hbody. induction l as [|a l IH]; simpl.
  - by apply preserves_ret.
  - apply preserves_bind; [done|apply Hbody|]. by intros [].
Qed.

Global Instance ctrlFrame_refl : Reflexive ctrlFrame.
Proof. by intros c. Qed.

Global Instance ctrlFrame_trans : Transitive ctrlFrame.
Proof. intros c1 c2 c3 (?&?&?&?) (?&?&?&?). unfold ctrlFrame. split_and!; congruence. Qed.

Global Instance tickFrame_refl : Reflexive tickFrame.
Proof.
  intros w. split_and!; [done..|]. intros r.
  destruct (ctrls w !! r); by constructor.
Qed.

Global Instance tickFrame_trans : Transitive tickFrame.
Proof.
  intros w1 w2 w3 (Hf1 & Ht1 & Hc1) (Hf2 & Ht2 & Hc2).
  split_and!; [congruence..|].
  intros r. specialize (Hc1 r). specialize (Hc2 r).
  destruct Hc1 as [c1 c2 H12|]; inversion Hc2 as [c2' c3 H23|]; subst; constructor.
  by etrans.
Qed.

Global Instance timeoutsKept_refl : Reflexive timeoutsKept.
Proof. intros w p info Hp. eauto. Qed.

Global Instance timeoutsKept_trans : Transitive timeoutsKept.
Proof.
  intros w1 w2 w3 H12 H23 p info Hp.
  destruct (H12 _ _ Hp) as (info2 & Hp2 & Heq2).
  destruct (H23 _ _ Hp2) as (info3 & Hp3 & Heq3).
  exists info3. split; [done|congruence].
Qed.

Lemma tickFrame_setState r s : preserves tickFrame (setState r s).
Proof.
  intros w. unfold setState, setCtrl, getCtrl, mbind, M_bind.
  destruct (ctrls w !! r) as [c|] eqn:Hr; wsimpl; [|reflexivity].
  unfold tickFrame. wsimpl. split_and!; [done..|]. intros r'.
  destruct (decide (r' = r)) as [->|Hne].
  - rewrite lookup_insert_eq, Hr. by constructor.
  - rewrite lookup_insert_ne by done. destruct (ctrls w !! r'); by constructor.
Qed.

Lemma tickFrame_setTeam p info : preserves tickFrame (setTeam p info).
Proof.
  intros w. unfold setTeam, tickFrame. wsimpl. split_and!; [done..|].
  intros r. destruct (ctrls w !! r); by constructor.
Qed.

Lemma timeoutsKept_setState r s : preserves timeoutsKept (setState r s).
Proof.
  intros w. unfold setState, setCtrl, getCtrl, mbind, M_bind.
  destruct (ctrls w !! r) as [c|] eqn:Hr; wsimpl; [|reflexivity].
  intros p info Hp. wsimpl. eauto.
Qed.

Lemma timeoutsKept_cards p (f : list Z → list Z) :
  preserves timeoutsKept
    (info ← getTeam p; setTeam p (withYellowCardTimes info (f (YellowCardTimes info)))).
Proof.
  intros w. unfold getTeam, setTeam, mbind, M_bind.
  destruct (teams w !! p) as [info|] eqn:Hp; wsimpl; [|reflexivity].
  intros q info' Hq. wsimpl. destruct (decide (q = p)) as [->|Hne].
  - rewrite lookup_insert_eq. eexists. split; [done|]. wsimpl. congruence.
  - rewrite lookup_insert_ne by done. eauto.
Qed.

Lemma preserves_bind_at {A B} (R : World → World → Prop) (m : M A) (f : A → M B) w :
  Transitive R → R w (outcomeWorld (m w)) → (∀ a, preserves R (f a)) →
  R w (outcomeWorld ((m ≫= f) w)).
Proof.
  intros HR Hm Hf. unfold mbind, M_bind.
  destruct (m w) as [a w'| |]; wsimpl; [|done..].
  etrans; [exact Hm|apply Hf].
Qed.

Ltac frame_step :=
  first
    [ apply preserves_ret; apply _
    | apply preserves_panic; apply _
    | apply preserves_getCtrl; apply _
    | apply preserves_getTeam; apply _
    | apply tickFrame_setState
    | apply tickFrame_setTeam
    | apply timeoutsKept_setState
    | apply timeoutsKept_cards
    | apply preserves_forEach; [apply _|apply _|intros ?]
    | apply preserves_bind; [apply _| |intros ?]
    | match goal with
      | |- preserves _ (if ?b then _ else _) => destruct b
      | |- preserves _ (match ?x with _ => _ end) => destruct x
      end ].

Lemma tickFrame_updateTimes r delta : preserves tickFrame (updateTimes r delta).
Proof.
  unfold updateTimes, reduceYellowCardTimes, removeElapsedYellowCards.
  repeat frame_step.
Qed.

Lemma tickFrame_Tick r delta now : preserves tickFrame (Tick r delta now).
Proof.
  unfold Tick. apply preserves_bind; [apply _|apply tickFrame_updateTimes|].
  intros []. repeat frame_step.
Qed.

Lemma timeoutsKept_card_loop delta ps :
  preserves timeoutsKept
    (forEach (λ p, reduceYellowCardTimes p delta ;; removeElapsedYellowCards p) ps).
Proof.
  unfold reduceYellowCardTimes, removeElapsedYellowCards.
  repeat frame_step.
Qed.

Lemma ctrls_card_loop delta ps :
  preserves (λ w w', ctrls w' = ctrls w)
    (forEach (λ p, reduceYellowCardTimes p delta ;; removeElapsedYellowCards p) ps).
Proof.
  assert (Reflexive (λ w w' : World, ctrls w' = ctrls w)) by (by intros ?).
  assert (Transitive (λ w w' : World, ctrls w' = ctrls w)) by (intros ???; congruence).
  unfold reduceYellowCardTimes, removeElapsedYellowCards.
  apply preserves_forEach; [done..|]. intros p.
  apply preserves_bind; [done| |intros []].
  all: apply preserves_bind; [done|by apply preserves_getTeam|intros info; by intros w].
Qed.

(** In run-mode Running [updateTimes] is the stage-time update followed by
    the card loop, in every outcome of the loop. *)
Lemma updateTimes_running_loop r c delta (w : World) :
  ctrls w !! r = Some c →
  GameState (State c) = GameStateRunning →
  updateTimes r delta w
  = forEach (λ p, reduceYellowCardTimes p delta ;; removeElapsedYellowCards p)
      (teamPointers (State c))
      (withCtrls w (<[r := withState c (withStageTimes (State c)
                              (Duration.add (StageTimeElapsed (State c)) delta)
                              (Duration.sub (StageTimeLeft (State c)) delta))]> (ctrls w))).
Proof.
  intros Hr Hrun. unfold updateTimes.
  rewrite (bind_Ok _ _ _ _ _ (getCtrl_Ok _ _ _ Hr)).
  rewrite Hrun. rewrite bool_decide_eq_true_2 by done.
  unfold mbind at 1, M_bind at 1.
  rewrite (bind_Ok _ _ _ _ _ (setState_Ok _ _ _ _ Hr)).
  set (w1 := withCtrls w _).
  pose proof (ctrls_card_loop delta (teamPointers (State c)) w1) as Hctrls.
  destruct (forEach _ _ w1) as [[] w2| |] eqn:Hloop; [|done..].
  wsimpl.
  erewrite bind_Ok; [|apply getCtrl_Ok; rewrite Hctrls; apply lookup_insert_eq].
  wsimpl. rewrite Hrun. by rewrite bool_decide_eq_false_2.
Qed.

Lemma timeoutsKept_updateTimes r c delta (w : World) :
  ctrls w !! r = Some c →
  GameState (State c) ≠ GameStateTimeout ∨ GameStateFor (State c) = None →
  timeoutsKept w (outcomeWorld (updateTimes r delta w)).
Proof.
  intros Hr Hidle.
  destruct (decide (GameState (State c) = GameStateRunning)) as [Hrun|Hrun].
  - rewrite (updateTimes_running_loop _ _ _ _ Hr Hrun).
    etrans; [|apply timeoutsKept_card_loop].
    intros p info Hp. eauto.
  - rewrite (updateTimes_idle _ _ _ _ Hr Hrun Hidle). reflexivity.
Qed.

(** ** Independence of the HistoryLog *)

Lemma rnh_ret {A} (a : A) : readsNoHistory (mret a).
Proof. by intros r0 l w. Qed.

Lemma rnh_panic {A} : readsNoHistory (@panic C A).
Proof. by intros r0 l w. Qed.

Lemma rnh_bind {A B} (m : M A) (f : A → M B) :
  readsNoHistory m → (∀ a, readsNoHistory (f a)) → readsNoHistory (m ≫= f).
Proof.
  intros Hm Hf r0 l w. unfold mbind, M_bind. rewrite Hm.
  destruct (m w) as [a w'| |]; wsimpl; [apply Hf|done..].
Qed.

Lemma rnh_getTeam p : readsNoHistory (getTeam p).
Proof.
  intros r0 l w. unfold getTeam, setHistory. wsimpl.
  by destruct (teams w !! p).
Qed.

Lemma rnh_setTeam p info : readsNoHistory (setTeam p info).
Proof. by intros r0 l w. Qed.

Lemma rnh_forEach {A} (body : A → M unit) ps :
  (∀ a, readsNoHistory (body a)) → readsNoHistory (forEach body ps).
Proof.
  intros Hbody. induction ps as [|a ps IH]; simpl.
  - apply rnh_ret.
  - apply rnh_bind; [apply Hbody|by intros []].
Qed.

Lemma rnh_getCtrl_bind {B} r (k : GameController → M B) :
  (∀ c, readsNoHistory (k c)) →
  (∀ c l, k (withStateHistory c l) = k c) →
  readsNoHistory (getCtrl r ≫= k).
Proof.
  intros Hk Hsame r0 l w. unfold mbind, M_bind, getCtrl, setHistory at 1. wsimpl.
  rewrite lookup_alter. case_decide as Hr.
  - subst r0. destruct (ctrls w !! r) as [c|]; simpl; [|done].
    rewrite Hsame. apply Hk.
  - destruct (ctrls w !! r) as [c|]; simpl; [|done]. apply Hk.
Qed.

Lemma alter_history_insert (m : gmap positive GameController) r0 r l c s :
  <[r := withState (if decide (r0 = r) then withStateHistory c l else c) s]>
    (alter (λ c, withStateHistory c l) r0 m)
  = alter (λ c, withStateHistory c l) r0 (<[r := withState c s]> m).
Proof.
  apply map_eq. intros i. rewrite lookup_alter.
  destruct (decide (i = r)) as [->|Hi].
  - rewrite lookup_insert_eq. case_decide as Hr0.
    + subst r0. by rewrite lookup_insert_eq.
    + by rewrite lookup_insert_eq.
  - rewrite lookup_insert_ne by done. rewrite lookup_alter.
    case_decide as Hr0.
    + subst r0. by rewrite lookup_insert_ne.
    + by rewrite lookup_insert_ne.
Qed.

Lemma rnh_setState r s : readsNoHistory (setState r s).
Proof.
  intros r0 l w. unfold setState, mbind, M_bind, getCtrl, setCtrl, setHistory. wsimpl.
  rewrite lookup_alter.
  pose proof (alter_history_insert (ctrls w) r0 r l) as Hmap.
  destruct (decide (r0 = r)) as [->|Hr].
  - destruct (ctrls w !! r) as [c|] eqn:Hc; simpl; [|done].
    by rewrite <- Hmap.
  - destruct (ctrls w !! r) as [c|] eqn:Hc; simpl; [|done].
    by rewrite <- Hmap.
Qed.

Ltac rnh_step :=
  first
    [ apply rnh_ret
    | apply rnh_panic
    | apply rnh_getTeam
    | apply rnh_setTeam
    | apply rnh_setState
    | apply rnh_forEach; intros ?
    | apply rnh_getCtrl_bind; [intros ?|reflexivity]
    | apply rnh_bind; [|intros ?]
    | match goal with
      | |- readsNoHistory (if ?b then _ else _) => destruct b
      | |- readsNoHistory (match ?x with _ => _ end) => destruct x
      end ].

Lemma rnh_updateTimes r delta : readsNoHistory (updateTimes r delta).
Proof.
  unfold updateTimes, reduceYellowCardTimes, removeElapsedYellowCards.
  repeat rnh_step.
Qed.

Lemma rnh_Tick r delta now : readsNoHistory (Tick r delta now).
Proof.
  unfold Tick. apply rnh_bind; [apply rnh_updateTimes|].
  intros []. repeat rnh_step.
Qed.

(** ** Ticks in run-mode Timeout and in the other run-modes *)

Lemma Tick_timeout r c team p info delta now (w : World) :
  ctrls w !! r = Some c →
  GameState (State c) = GameStateTimeout →
  GameStateFor (State c) = Some team →
  TeamState (State c) !! team = Some p →
  teams w !! p = Some info →
  Tick r delta now w
  = Ok tt {| ctrls := <[r := stampDuration c now]> (ctrls w);
             teams := <[p := withTimeoutTimeLeft info
                                (Duration.sub (TimeoutTimeLeft info) delta)]> (teams w);
             files := files w; trace := trace w |}.
Proof.
  intros Hr Hmode Hfor Hteam Hp.
  assert (Hup : updateTimes r delta w
                = Ok tt (withTeams w (<[p := withTimeoutTimeLeft info
                                             (Duration.sub (TimeoutTimeLeft info) delta)]> (teams w)))).
  { rewrite (updateTimes_timeout_lookup _ _ _ _ _ Hr Hmode Hfor).
    rewrite Hteam. simpl. by rewrite Hp. }
  by rewrite (Tick_after_update _ c _ now _ _ Hup Hr).
Qed.

Lemma Tick_timeout_panic r c team delta now (w : World) :
  ctrls w !! r = Some c →
  GameState (State c) = GameStateTimeout →
  GameStateFor (State c) = Some team →
  (TeamState (State c) !! team ≫= λ p, teams w !! p) = None →
  Tick r delta now w = Panic w.
Proof.
  intros Hr Hmode Hfor Hnone. unfold Tick.
  apply bind_Panic.
  rewrite (updateTimes_timeout_lookup _ _ _ _ _ Hr Hmode Hfor).
  destruct (TeamState (State c) !! team) as [p|]; simpl in *; [|done].
  by rewrite Hnone.
Qed.

Lemma Tick_idle r c delta now (w : World) :
  ctrls w !! r = Some c →
  GameState (State c) ≠ GameStateRunning →
  GameState (State c) ≠ GameStateTimeout ∨ GameStateFor (State c) = None →
  Tick r delta now w = Ok tt (withCtrls w (<[r := stampDuration c now]> (ctrls w))).
Proof.
  intros Hr Hrun Hidle.
  by rewrite (Tick_after_update _ c _ now _ _ (updateTimes_idle _ _ delta _ Hr Hrun Hidle) Hr).
Qed.

Lemma stampDuration_unset c now :
  Time.After (MatchTimeStart c) Time.Unix00 = false → stampDuration c now = c.
Proof. intros Hstart. unfold stampDuration. by rewrite Hstart. Qed.

Lemma stampDuration_spec c now :
  stampDuration c now
  = withState c (withMatchDuration (State c)
                   (if Time.After (MatchTimeStart c) Time.Unix00
                    then Time.Sub now (MatchTimeStart c)
                    else MatchDuration (State c))).
Proof.
  unfold stampDuration. destruct (Time.After _ _); [done|].
  by destruct c as [[] ? ? ? ?].
Qed.

(** C5: a tick in run-mode Timeout with a designated team subtracts [delta]
    (int64) from the remaining timeout of that team's object and changes no
    other object and no other field of that object: its cards, the objects
    of all other teams, and the team map are as before.  In every other
    situation (another run-mode, or no designated team) every object keeps
    its remaining timeout, in every outcome of the tick. *)
Theorem tick_timeout_decrement r c delta now (w : World) :
  ctrls w !! r = Some c →
  (∀ team p info,
     GameState (State c) = GameStateTimeout →
     GameStateFor (State c) = Some team →
     TeamState (State c) !! team = Some p →
     teams w !! p = Some info →
     ∃ w' c',
       Tick r delta now w = Ok tt w' ∧
       ctrls w' !! r = Some c' ∧ TeamState (State c') = TeamState (State c) ∧
       teams w' !! p = Some {| YellowCardTimes := YellowCardTimes info;
                               TimeoutTimeLeft := Duration.sub (TimeoutTimeLeft info) delta |} ∧
       (Duration.inRange (TimeoutTimeLeft info - delta) →
        TimeoutTimeLeft <$> teams w' !! p = Some (TimeoutTimeLeft info - delta)%Z) ∧
       (∀ q, q ≠ p → teams w' !! q = teams w !! q) ∧
       (teamsUnshared (State c) →
        ∀ team' q, team' ≠ team → TeamState (State c) !! team' = Some q →
                   teams w' !! q = teams w !! q)) ∧
  (GameState (State c) ≠ GameStateTimeout ∨ GameStateFor (State c) = None →
   timeoutsKept w (outcomeWorld (Tick r delta now w))).
Proof.
  intros Hr. split.
  - intros team p info Hmode Hfor Hteam Hp.
    eexists _, _. split; [by eapply Tick_timeout|]. wsimpl.
    split; [apply lookup_insert_eq|].
    split; [by destruct (stampDuration_stage_times c now) as (_ & _ & -> & _)|].
    split; [apply lookup_insert_eq|].
    split.
    { intros Hrange. rewrite lookup_insert_eq. simpl. f_equal.
      by apply wrap_inRange. }
    split.
    { intros q Hq. by rewrite lookup_insert_ne. }
    intros Hun team' q Hne Hteam'.
    rewrite lookup_insert_ne; [done|].
    intros ->. apply Hne. eapply Hun; eauto.
  - intros Hidle. unfold Tick.
    apply preserves_bind_at; [apply _|by eapply timeoutsKept_updateTimes|].
    intros []. repeat frame_step.
Qed.

(** ** Objects out of reach of the ticking controller *)

Global Instance objectsKept_refl ps : Reflexive (objectsKept ps).
Proof. by intros w p Hp. Qed.

Global Instance objectsKept_trans ps : Transitive (objectsKept ps).
Proof. intros w1 w2 w3 H12 H23 p Hp. by rewrite (H23 p Hp), (H12 p Hp). Qed.

Lemma objectsKept_setTeam ps p info : p ∈ ps → preserves (objectsKept ps) (setTeam p info).
Proof.
  intros Hp w q Hq. unfold setTeam. wsimpl.
  apply lookup_insert_ne. by intros ->.
Qed.

Lemma objectsKept_setState ps r s : preserves (objectsKept ps) (setState r s).
Proof.
  intros w. unfold setState, setCtrl, getCtrl, mbind, M_bind.
  destruct (ctrls w !! r) as [c|] eqn:Hr; wsimpl; by intros p Hp.
Qed.

Lemma objectsKept_card_loop ps delta qs :
  (∀ p, p ∈ qs → p ∈ ps) →
  preserves (objectsKept ps)
    (forEach (λ p, reduceYellowCardTimes p delta ;; removeElapsedYellowCards p) qs).
Proof.
  induction qs as [|q qs IH]; intros Hsub; simpl.
  - apply preserves_ret, _.
  - assert (Hq : q ∈ ps) by (apply Hsub; left).
    apply preserves_bind; [apply _| |intros []; apply IH; intros p Hp; apply Hsub; by right].
    unfold reduceYellowCardTimes, removeElapsedYellowCards.
    apply preserves_bind; [apply _| |intros []].
    all: apply preserves_bind; [apply _|apply preserves_getTeam, _|intros info].
    all: by apply objectsKept_setTeam.
Qed.

Lemma objectsKept_updateTimes r c delta (w : World) :
  ctrls w !! r = Some c →
  objectsKept (teamPointers (State c)) w (outcomeWorld (updateTimes r delta w)).
Proof.
  intros Hr.
  destruct (decide (GameState (State c) = GameStateRunning)) as [Hrun|Hrun].
  { rewrite (updateTimes_running_loop _ _ _ _ Hr Hrun).
    etrans; [|by apply objectsKept_card_loop]. by intros p Hp. }
  destruct (decide (GameState (State c) = GameStateTimeout)) as [Hmode|Hmode];
    [|rewrite (updateTimes_idle _ _ _ _ Hr Hrun (or_introl Hmode)); reflexivity].
  destruct (GameStateFor (State c)) as [team|] eqn:Hfor;
    [|rewrite (updateTimes_idle _ _ _ _ Hr Hrun (or_intror Hfor)); reflexivity].
  rewrite (updateTimes_timeout_lookup _ _ _ _ _ Hr Hmode Hfor).
  destruct (TeamState (State c) !! team) as [p|] eqn:Hteam; simpl; [|reflexivity].
  destruct (teams w !! p) as [info|] eqn:Hp; simpl; [|reflexivity].
  intros q Hq. wsimpl. apply lookup_insert_ne. intros ->.
  apply Hq, teamPointers_spec. eauto.
Qed.

Lemma objectsKept_Tick r c delta now (w : World) :
  ctrls w !! r = Some c →
  objectsKept (teamPointers (State c)) w (outcomeWorld (Tick r delta now w)).
Proof.
  intros Hr. unfold Tick.
  apply preserves_bind_at; [apply _|by apply objectsKept_updateTimes|].
  intros []. apply preserves_bind; [apply _|apply preserves_getCtrl, _|intros c1].
  destruct (Time.After _ _); [apply objectsKept_setState|apply preserves_ret, _].
Qed.

Lemma deep_objectsKept ps e (w w' : World) :
  objectsKept ps w w' →
  (∀ team p, TeamState e !! team = Some p → p ∉ ps) →
  deep e (teams w') = deep e (teams w).
Proof.
  intros Hkept Hout. unfold deep, deepTeams. f_equal.
  apply map_eq. intros team. rewrite !lookup_fmap.
  destruct (TeamState e !! team) as [p|] eqn:Hteam; simpl; [|done].
  f_equal. apply Hkept. by eapply Hout.
Qed.

(** C6, as the code has it: when the run-mode is neither Running nor Timeout
    a tick succeeds and changes nothing but the match duration of the
    ticking controller, and that only when the match start lies after the
    epoch; and in every run-mode and every outcome a tick leaves each
    HistoryLog (its length and the fields its entries hold), each file and
    the list of calls as they were, and behaves the same whatever the
    HistoryLog holds.  The entries hold pointers to [TeamInfo] objects: a
    tick changes no object that the current state of the ticking controller
    does not point to, so what an entry shows with its pointers followed
    changes only through the objects it shares with the current state, and
    outside Running and Timeout not at all. *)
Theorem tick_idle_frame r delta now (w : World) :
  (∀ c,
     ctrls w !! r = Some c →
     GameState (State c) ≠ GameStateRunning →
     GameState (State c) ≠ GameStateTimeout →
     Tick r delta now w
     = Ok tt (withCtrls w
                (<[r := withState c (withMatchDuration (State c)
                                       (if Time.After (MatchTimeStart c) Time.Unix00
                                        then Time.Sub now (MatchTimeStart c)
                                        else MatchDuration (State c)))]> (ctrls w))) ∧
     (Time.After (MatchTimeStart c) Time.Unix00 = false → Tick r delta now w = Ok tt w)) ∧
  tickFrame w (outcomeWorld (Tick r delta now w)) ∧
  readsNoHistory (Tick r delta now) ∧
  (∀ c,
     ctrls w !! r = Some c →
     objectsKept (teamPointers (State c)) w (outcomeWorld (Tick r delta now w)) ∧
     (∀ e,
        (∀ team p, TeamState e !! team = Some p → p ∉ teamPointers (State c)) →
        deep e (teams (outcomeWorld (Tick r delta now w))) = deep e (teams w)) ∧
     (GameState (State c) ≠ GameStateRunning →
      GameState (State c) ≠ GameStateTimeout →
      ∀ e, deep e (teams (outcomeWorld (Tick r delta now w))) = deep e (teams w))).
Proof.
  split; [|split; [apply tickFrame_Tick|split; [apply rnh_Tick|]]].
  - intros c Hr Hrun Hmode.
    rewrite (Tick_idle _ _ _ _ _ Hr Hrun (or_introl Hmode)).
    split; [by rewrite stampDuration_spec|].
    intros Hstart. rewrite stampDuration_unset by done.
    rewrite insert_id by done. by rewrite world_eta.
  - intros c Hr. pose proof (objectsKept_Tick _ _ delta now _ Hr) as Hkept.
    split; [exact Hkept|]. split.
    + intros e Hout. by eapply deep_objectsKept.
    + intros Hrun Hmode e.
      by rewrite (Tick_idle _ _ _ _ _ Hr Hrun (or_introl Hmode)).
Qed.

(** C10: a tick in run-mode Timeout with a designated team looks the team up
    in [TeamState] and dereferences what it finds without a test: it returns
    exactly when the team has an entry and the entry points to an object,
    and panics in the unchanged world otherwise, in particular when the team
    has no entry. *)
Theorem tick_timeout_unguarded r c team delta now (w : World) :
  ctrls w !! r = Some c →
  GameState (State c) = GameStateTimeout →
  GameStateFor (State c) = Some team →
  (TeamState (State c) !! team = None → Tick r delta now w = Panic w) ∧
  ((∃ w', Tick r delta now w = Ok tt w') ↔
   (∃ p info, TeamState (State c) !! team = Some p ∧ teams w !! p = Some info)) ∧
  ((∀ p, TeamState (State c) !! team = Some p → teams w !! p = None) →
   Tick r delta now w = Panic w).
Proof.
  intros Hr Hmode Hfor. split_and!.
  - intros Hnone. eapply Tick_timeout_panic; [done..|]. by rewrite Hnone.
  - split.
    + intros [w' Hok].
      destruct (TeamState (State c) !! team) as [p|] eqn:Hteam.
      * destruct (teams w !! p) as [info|] eqn:Hp; [by eauto|].
        rewrite (Tick_timeout_panic _ _ _ _ _ _ Hr Hmode Hfor) in Hok; [done|].
        by rewrite Hteam.
      * rewrite (Tick_timeout_panic _ _ _ _ _ _ Hr Hmode Hfor) in Hok; [done|].
        by rewrite Hteam.
    + intros (p & info & Hteam & Hp). eexists. by eapply Tick_timeout.
  - intros Hnil. eapply Tick_timeout_panic; [done..|].
    destruct (TeamState (State c) !! team) as [p|] eqn:Hteam; [|done].
    simpl. by apply Hnil.
Qed.

(** ** Undo *)

Lemma UndoLastAction_short r c (w : World) :
  ctrls w !! r = Some c →
  length (StateHistory c) < 2 →
  UndoLastAction r w = Ok tt w.
Proof.
  intros Hr Hlen. unfold UndoLastAction.
  rewrite (bind_Ok _ _ _ _ _ (getCtrl_Ok _ _ _ Hr)).
  rewrite bool_decide_eq_false_2; [done|lia].
Qed.

Lemma UndoLastAction_pop r c pre s last (w : World) :
  ctrls w !! r = Some c →
  StateHistory c = pre ++ [s; last] →
  UndoLastAction r w
  = Ok tt (withCtrls w (<[r := withStateHistory (withState c s) pre]> (ctrls w))).
Proof.
  intros Hr Hhist. unfold UndoLastAction.
  rewrite (bind_Ok _ _ _ _ _ (getCtrl_Ok _ _ _ Hr)).
  rewrite Hhist, length_app. change (length [s; last]) with 2.
  rewrite bool_decide_eq_true_2 by lia.
  replace (Z.to_nat (Z.of_nat (length pre + 2) - 2)) with (length pre) by lia.
  rewrite list_lookup_middle by done.
  rewrite (bind_Ok _ _ _ _ _ (setState_Ok _ _ _ _ Hr)).
  erewrite bind_Ok; [|apply getCtrl_Ok; apply lookup_insert_eq].
  unfold setCtrl, withCtrls. wsimpl.
  rewrite insert_insert_eq, Hhist. by rewrite take_app_length.
Qed.

(** C1: [UndoLastAction] on a history of fewer than two entries changes
    nothing; on a history [S0 ... S(n-1) Sn] it makes [S(n-1)] the current
    state and [S0 ... S(n-2)] the history, so that from [S0; S1; S2] the
    current state becomes [S1] and the history [S0]. *)
Theorem undo_last_action r c (w : World) :
  ctrls w !! r = Some c →
  (length (StateHistory c) < 2 → UndoLastAction r w = Ok tt w) ∧
  (∀ pre s last,
     StateHistory c = pre ++ [s; last] →
     ∃ w' c',
       UndoLastAction r w = Ok tt w' ∧ ctrls w' !! r = Some c' ∧
       State c' = s ∧ StateHistory c' = pre ∧
       teams w' = teams w ∧ files w' = files w ∧ trace w' = trace w ∧
       (∀ r', r' ≠ r → ctrls w' !! r' = ctrls w !! r')) ∧
  (∀ S0 S1 S2,
     StateHistory c = [S0; S1; S2] →
     ∃ w' c',
       UndoLastAction r w = Ok tt w' ∧ ctrls w' !! r = Some c' ∧
       State c' = S1 ∧ StateHistory c' = [S0]).
Proof.
  intros Hr. split_and!.
  - by apply UndoLastAction_short.
  - intros pre s last Hhist. eexists _, _.
    split; [by eapply UndoLastAction_pop|]. wsimpl.
    split; [apply lookup_insert_eq|].
    split_and!; try done.
    intros r' Hne. by rewrite lookup_insert_ne.
  - intros S0 S1 S2 Hhist. eexists _, _.
    split; [by eapply (UndoLastAction_pop _ _ [S0] S1 S2)|]. wsimpl.
    split; [apply lookup_insert_eq|]. done.
Qed.

(** ** System calls *)

Lemma openFile_Some f st (w : World) :
  files w !! f = Some st → openFile (Some f) w = Ok (Some (f, st)) w.
Proof. intros Hf. unfold openFile. by rewrite Hf. Qed.

Lemma file_Truncate_zero f st (w : World) :
  files w !! f = Some st →
  file_Truncate (Some f) 0 w
  = Ok None {| ctrls := ctrls w; teams := teams w;
               files := <[f := {| content := []; offset := offset st |}]> (files w);
               trace := trace w ++ [EvTruncate f 0] |}.
Proof.
  intros Hf. unfold file_Truncate.
  by rewrite (bind_Ok _ _ _ _ _ (openFile_Some _ _ _ Hf)).
Qed.

Lemma file_WriteAt_start f st b (w : World) :
  files w !! f = Some st → content st = [] →
  file_WriteAt (Some f) b 0 w
  = Ok None {| ctrls := ctrls w; teams := teams w;
               files := <[f := {| content := b; offset := offset st |}]> (files w);
               trace := trace w ++ [EvWriteAt f b 0] |}.
Proof.
  intros Hf Hempty. unfold file_WriteAt.
  rewrite (bind_Ok _ _ _ _ _ (openFile_Some _ _ _ Hf)).
  rewrite Hempty. cbn [length Nat.sub replicate app take].
  rewrite drop_nil, app_nil_r. done.
Qed.

Lemma file_Write_append f st b (w : World) :
  files w !! f = Some st →
  file_Write (Some f) b w
  = Ok None {| ctrls := ctrls w; teams := teams w;
               files := <[f := {| content := content st ++ b; offset := offset st |}]> (files w);
               trace := trace w ++ [EvWrite f b] |}.
Proof.
  intros Hf. unfold file_Write.
  by rewrite (bind_Ok _ _ _ _ _ (openFile_Some _ _ _ Hf)).
Qed.

Lemma file_Sync_open f st (w : World) :
  files w !! f = Some st →
  file_Sync (Some f) w
  = Ok None {| ctrls := ctrls w; teams := teams w; files := files w;
               trace := trace w ++ [EvSync f] |}.
Proof.
  intros Hf. unfold file_Sync.
  by rewrite (bind_Ok _ _ _ _ _ (openFile_Some _ _ _ Hf)).
Qed.

Lemma file_Read_open f st n (w : World) :
  files w !! f = Some st →
  file_Read (Some f) n w
  = Ok (take n (drop (offset st) (content st)),
        if bool_decide (length (take n (drop (offset st) (content st))) = 0 ∧ 0 < n)
        then Some EOF else None)
       {| ctrls := ctrls w; teams := teams w;
          files := <[f := {| content := content st;
                             offset := offset st + length (take n (drop (offset st) (content st))) |}]>
                     (files w);
          trace := trace w |}.
Proof.
  intros Hf. unfold file_Read.
  by rewrite (bind_Ok _ _ _ _ _ (openFile_Some _ _ _ Hf)).
Qed.

(** ** Persistence *)

Lemma SaveLatestState_written r c f st js (w : World) :
  ctrls w !! r = Some c →
  lastStateFile c = Some f →
  files w !! f = Some st →
  MarshalIndent (State c) (teams w) = Some js →
  SaveLatestState r w
  = Ok tt {| ctrls := ctrls w; teams := teams w;
             files := <[f := {| content := js; offset := offset st |}]> (files w);
             trace := trace w ++ [EvTruncate f 0; EvWriteAt f js 0; EvSync f] |}.
Proof.
  intros Hr Hfile Hf Hjs. unfold SaveLatestState.
  rewrite (bind_Ok _ _ _ _ _ (getCtrl_Ok _ _ _ Hr)).
  erewrite bind_Ok; [|reflexivity].
  rewrite Hjs, Hfile.
  rewrite (bind_Ok _ _ _ _ _ (file_Truncate_zero _ _ _ Hf)).
  erewrite bind_Ok; [|eapply file_WriteAt_start; [apply lookup_insert_eq|done]].
  erewrite bind_Ok; [|reflexivity].
  erewrite bind_Ok; [|eapply file_Sync_open; wsimpl; apply lookup_insert_eq].
  unfold mret, M_ret. wsimpl.
  by rewrite insert_insert_eq, <- !app_assoc.
Qed.

Lemma SaveStateHistory_appended r c f st js (w : World) :
  ctrls w !! r = Some c →
  stateHistoryFile c = Some f →
  files w !! f = Some st →
  Marshal (State c) (teams w) = Some js →
  SaveStateHistory r w
  = Ok tt {| ctrls := <[r := withStateHistory c (StateHistory c ++ [State c])]> (ctrls w);
             teams := teams w;
             files := <[f := {| content := content st ++ js ++ newline; offset := offset st |}]> (files w);
             trace := trace w ++ [EvWrite f js; EvWrite f newline; EvSync f] |}.
Proof.
  intros Hr Hfile Hf Hjs. unfold SaveStateHistory.
  rewrite (bind_Ok _ _ _ _ _ (getCtrl_Ok _ _ _ Hr)).
  erewrite bind_Ok; [|reflexivity].
  erewrite bind_Ok; [|reflexivity].
  wsimpl. rewrite Hjs, Hfile.
  erewrite bind_Ok; [|by eapply file_Write_append].
  erewrite bind_Ok; [|eapply file_Write_append; wsimpl; apply lookup_insert_eq].
  erewrite bind_Ok; [|eapply file_Sync_open; wsimpl; apply lookup_insert_eq].
  unfold mret, M_ret. wsimpl.
  by rewrite insert_insert_eq, <- !app_assoc.
Qed.

Lemma SaveState_committed r c fs fh sts sth js jc (w : World) :
  ctrls w !! r = Some c →
  lastStateFile c = Some fs → stateHistoryFile c = Some fh → fs ≠ fh →
  files w !! fs = Some sts → files w !! fh = Some sth →
  MarshalIndent (State c) (teams w) = Some js →
  Marshal (State c) (teams w) = Some jc →
  SaveState r w
  = Ok tt {| ctrls := <[r := withStateHistory c (StateHistory c ++ [State c])]> (ctrls w);
             teams := teams w;
             files := <[fh := {| content := content sth ++ jc ++ newline; offset := offset sth |}]>
                        (<[fs := {| content := js; offset := offset sts |}]> (files w));
             trace := trace w ++ [EvTruncate fs 0; EvWriteAt fs js 0; EvSync fs;
                                  EvWrite fh jc; EvWrite fh newline; EvSync fh] |}.
Proof.
  intros Hr Hfs Hfh Hne Hsts Hsth Hjs Hjc. unfold SaveState.
  rewrite (bind_Ok _ _ _ _ _ (SaveLatestState_written _ _ _ _ _ _ Hr Hfs Hsts Hjs)).
  erewrite SaveStateHistory_appended; [|exact Hr|exact Hfh| |exact Hjc].
  - wsimpl. by rewrite <- !app_assoc.
  - wsimpl. by rewrite lookup_insert_ne.
Qed.

(** The two sinks, reached after the optional save. *)
Lemma Publish_sinks r c g command (w : World) :
  ctrls w !! r = Some c →
  ctrls w !! RefBox = Some g →
  (_ ← getCtrl r; g ← getCtrl RefBox; emit (EvApiPublishState r (State g)) ;;
   g ← getCtrl RefBox; emit (EvPublish RefBox (State g) command)) w
  = Ok tt {| ctrls := ctrls w; teams := teams w; files := files w;
             trace := trace w ++ [EvApiPublishState r (State g);
                                  EvPublish RefBox (State g) command] |}.
Proof.
  intros Hr Hg.
  rewrite (bind_Ok _ _ _ _ _ (getCtrl_Ok _ _ _ Hr)).
  rewrite (bind_Ok _ _ _ _ _ (getCtrl_Ok _ _ _ Hg)).
  erewrite bind_Ok; [|reflexivity].
  erewrite bind_Ok; [|by apply getCtrl_Ok].
  unfold emit. wsimpl. by rewrite <- !app_assoc.
Qed.

Lemma Publish_heartbeat r c g (w : World) :
  ctrls w !! r = Some c →
  ctrls w !! RefBox = Some g →
  Publish r None w
  = Ok tt {| ctrls := ctrls w; teams := teams w; files := files w;
             trace := trace w ++ [EvApiPublishState r (State g);
                                  EvPublish RefBox (State g) None] |}.
Proof.
  intros Hr Hg. unfold Publish.
  erewrite bind_Ok; [|reflexivity].
  by eapply Publish_sinks.
Qed.

Lemma Publish_command r c g command fs fh sts sth js jc (w : World) :
  ctrls w !! r = Some c →
  ctrls w !! RefBox = Some g →
  lastStateFile g = Some fs → stateHistoryFile g = Some fh → fs ≠ fh →
  files w !! fs = Some sts → files w !! fh = Some sth →
  MarshalIndent (State g) (teams w) = Some js →
  Marshal (State g) (teams w) = Some jc →
  Publish r (Some command) w
  = Ok tt {| ctrls := <[RefBox := withStateHistory g (StateHistory g ++ [State g])]> (ctrls w);
             teams := teams w;
             files := <[fh := {| content := content sth ++ jc ++ newline; offset := offset sth |}]>
                        (<[fs := {| content := js; offset := offset sts |}]> (files w));
             trace := trace w ++ [EvTruncate fs 0; EvWriteAt fs js 0; EvSync fs;
                                  EvWrite fh jc; EvWrite fh newline; EvSync fh;
                                  EvApiPublishState r (State g);
                                  EvPublish RefBox (State g) (Some command)] |}.
Proof.
  intros Hr Hg Hfs Hfh Hne Hsts Hsth Hjs Hjc. unfold Publish.
  rewrite (bind_Ok _ _ _ _ _
             (SaveState_committed _ _ _ _ _ _ _ _ _ Hg Hfs Hfh Hne Hsts Hsth Hjs Hjc)).
  destruct (decide (r = RefBox)) as [->|Hr'].
  - erewrite Publish_sinks; [|apply lookup_insert_eq..].
    wsimpl. by rewrite <- !app_assoc.
  - erewrite Publish_sinks;
      [|wsimpl; rewrite lookup_insert_ne by done; exact Hr|apply lookup_insert_eq].
    wsimpl. by rewrite <- !app_assoc.
Qed.

Lemma Publish_fatal r g command (w : World) :
  ctrls w !! RefBox = Some g →
  is_Some (MarshalIndent (State g) (teams w)) →
  lastStateFile g = None →
  Publish r (Some command) w
  = Fatal {| ctrls := ctrls w; teams := teams w; files := files w;
             trace := trace w ++ [EvLog "Can not truncate last state file "] |}.
Proof.
  intros Hg [js Hjs] Hnil. unfold Publish, SaveState.
  apply bind_Fatal, bind_Fatal. unfold SaveLatestState.
  rewrite (bind_Ok _ _ _ _ _ (getCtrl_Ok _ _ _ Hg)).
  erewrite bind_Ok; [|reflexivity].
  rewrite Hjs, Hnil.
  erewrite bind_Ok; [|reflexivity]. done.
Qed.

(** ** Events *)

Lemma OnNewEvent_rejected r g event err (w : World) :
  ctrls w !! RefBox = Some g →
  processEvent event (State g) (teams w) = Rejected err →
  OnNewEvent r event w
  = Ok tt {| ctrls := ctrls w; teams := teams w; files := files w;
             trace := trace w ++ [EvLog "Could not process event:"] |}.
Proof.
  intros Hg Hrej. unfold OnNewEvent.
  rewrite (bind_Ok _ _ _ _ _ (getCtrl_Ok _ _ _ Hg)).
  erewrite bind_Ok; [|reflexivity].
  by rewrite Hrej.
Qed.

Lemma OnNewEvent_accepted r g event event' s' h' (w : World) :
  ctrls w !! RefBox = Some g →
  processEvent event (State g) (teams w) = Accepted event' s' h' →
  OnNewEvent r event w
  = Publish r (Command event')
      {| ctrls := <[RefBox := withState g s']> (ctrls w); teams := h';
         files := files w; trace := trace w |}.
Proof.
  intros Hg Hacc. unfold OnNewEvent.
  rewrite (bind_Ok _ _ _ _ _ (getCtrl_Ok _ _ _ Hg)).
  erewrite bind_Ok; [|reflexivity].
  rewrite Hacc.
  rewrite (bind_Ok _ _ _ _ _ (setState_Ok _ _ _ _ Hg)).
  erewrite bind_Ok; [|reflexivity]. done.
Qed.

Lemma lookup_after_singleton_update r c g g' (m : gmap positive GameController) :
  m !! r = Some c → m !! RefBox = Some g →
  <[RefBox := g']> m !! r = Some (if decide (r = RefBox) then g' else c).
Proof.
  intros Hr Hg. case_decide as Heq.
  - subst r. apply lookup_insert_eq.
  - by rewrite lookup_insert_ne.
Qed.

(** C2, as the code has it: a rejected event leaves state, history and files
    alone and reaches no sink (it writes one log line); an accepted event
    installs the new state and reaches each sink exactly once with its
    resulting command.  Only when that command is present is the publish
    preceded by one snapshot write, one HistoryLog append and one audit
    record; an accepted event whose resulting command is absent is published
    without any of them. *)
Theorem on_new_event_commit r c g event (w : World) :
  ctrls w !! r = Some c →
  ctrls w !! RefBox = Some g →
  (∀ err,
     processEvent event (State g) (teams w) = Rejected err →
     OnNewEvent r event w
     = Ok tt {| ctrls := ctrls w; teams := teams w; files := files w;
                trace := trace w ++ [EvLog "Could not process event:"] |}) ∧
  (∀ event' s' h',
     processEvent event (State g) (teams w) = Accepted event' s' h' →
     Command event' = None →
     OnNewEvent r event w
     = Ok tt {| ctrls := <[RefBox := withState g s']> (ctrls w); teams := h';
                files := files w;
                trace := trace w ++ [EvApiPublishState r s'; EvPublish RefBox s' None] |}) ∧
  (∀ event' s' h' command fs fh sts sth js jc,
     processEvent event (State g) (teams w) = Accepted event' s' h' →
     Command event' = Some command →
     lastStateFile g = Some fs → stateHistoryFile g = Some fh → fs ≠ fh →
     files w !! fs = Some sts → files w !! fh = Some sth →
     MarshalIndent s' h' = Some js →
     Marshal s' h' = Some jc →
     OnNewEvent r event w
     = Ok tt {| ctrls := <[RefBox := withStateHistory (withState g s') (StateHistory g ++ [s'])]>
                           (ctrls w);
                teams := h';
                files := <[fh := {| content := content sth ++ jc ++ newline;
                                    offset := offset sth |}]>
                           (<[fs := {| content := js; offset := offset sts |}]> (files w));
                trace := trace w ++ [EvTruncate fs 0; EvWriteAt fs js 0; EvSync fs;
                                     EvWrite fh jc; EvWrite fh newline; EvSync fh;
                                     EvApiPublishState r s';
                                     EvPublish RefBox s' (Some command)] |}).
Proof.
  intros Hr Hg. split_and!.
  - intros err Hrej. by eapply OnNewEvent_rejected.
  - intros event' s' h' Hacc Hcmd.
    rewrite (OnNewEvent_accepted _ _ _ _ _ _ _ Hg Hacc), Hcmd.
    erewrite Publish_heartbeat;
      [|apply (lookup_after_singleton_update _ _ _ _ _ Hr Hg)|apply lookup_insert_eq].
    done.
  - intros event' s' h' command fs fh sts sth js jc Hacc Hcmd Hfs Hfh Hne Hsts Hsth Hjs Hjc.
    rewrite (OnNewEvent_accepted _ _ _ _ _ _ _ Hg Hacc), Hcmd.
    erewrite Publish_command;
      [|apply (lookup_after_singleton_update _ _ _ _ _ Hr Hg)|apply lookup_insert_eq|done..].
    wsimpl. by rewrite insert_insert_eq.
Qed.

(** ** Startup recovery *)

Lemma readLastState_read r c f st (w : World) :
  ctrls w !! r = Some c →
  lastStateFile c = Some f →
  files w !! f = Some st →
  let b := take bufSize (drop (offset st) (content st)) in
  let fs' := <[f := {| content := content st; offset := offset st + length b |}]> (files w) in
  readLastState r w
  = if bool_decide (length b = bufSize) then
      Fatal {| ctrls := ctrls w; teams := teams w; files := fs';
               trace := trace w ++ [EvLog "Buffer size too small"] |}
    else if bool_decide (0 < length b) then
      match ctrls w !! RefBox with
      | Some g =>
          match Unmarshal b (State g) (teams w) with
          | Some (s', h') =>
              Ok tt {| ctrls := <[RefBox := withState g s']> (ctrls w); teams := h';
                       files := fs'; trace := trace w |}
          | None =>
              Fatal {| ctrls := ctrls w; teams := teams w; files := fs';
                       trace := trace w ++ [EvLog "Could not read last state: "] |}
          end
      | None => Panic {| ctrls := ctrls w; teams := teams w; files := fs'; trace := trace w |}
      end
    else Ok tt {| ctrls := ctrls w; teams := teams w; files := fs'; trace := trace w |}.
Proof.
  intros Hr Hfile Hf b fs'. unfold readLastState.
  rewrite (bind_Ok _ _ _ _ _ (getCtrl_Ok _ _ _ Hr)).
  rewrite Hfile.
  rewrite (bind_Ok _ _ _ _ _ (file_Read_open _ _ _ _ Hf)).
  fold b. cbn [fst snd].
  assert (Herr : ∀ (k1 k2 : M unit),
            match (if bool_decide (length b = 0 ∧ 0 < bufSize) then Some EOF else None) with
            | Some ErrInvalid => k1
            | _ => k2
            end = k2) by (intros; by case_bool_decide).
  rewrite Herr. clear Herr.
  case_bool_decide as Hfull; [done|].
  case_bool_decide as Hpos; [|done].
  unfold mbind at 1, M_bind at 1, getCtrl at 1. wsimpl.
  destruct (ctrls w !! RefBox) as [g|] eqn:Hg; [|done].
  erewrite bind_Ok; [|reflexivity]. wsimpl.
  destruct (Unmarshal b (State g) (teams w)) as [[s' h']|]; [|done].
  erewrite bind_Ok; [|by apply setState_Ok]. done.
Qed.

Lemma file_eta (st : FileState) n :
  n = 0 → {| content := content st; offset := offset st + n |} = st.
Proof. intros ->. destruct st. simpl. by rewrite Nat.add_0_r. Qed.

Lemma world_files_eta (w : World) f st :
  files w !! f = Some st →
  {| ctrls := ctrls w; teams := teams w; files := <[f := st]> (files w); trace := trace w |} = w.
Proof. intros Hf. rewrite insert_id by done. by destruct w. Qed.

Lemma readLastState_full r c f st (w : World) :
  ctrls w !! r = Some c →
  lastStateFile c = Some f →
  files w !! f = Some st →
  bufSize ≤ length (drop (offset st) (content st)) →
  readLastState r w
  = Fatal {| ctrls := ctrls w; teams := teams w;
             files := <[f := {| content := content st; offset := offset st + bufSize |}]> (files w);
             trace := trace w ++ [EvLog "Buffer size too small"] |}.
Proof.
  intros Hr Hfile Hf Hlen.
  rewrite (readLastState_read _ _ _ _ _ Hr Hfile Hf). cbv zeta.
  assert (Hb : length (take bufSize (drop (offset st) (content st))) = bufSize)
    by (rewrite length_take; lia).
  rewrite Hb. by rewrite bool_decide_eq_true_2.
Qed.

Lemma readLastState_decode r c g f st (w : World) :
  ctrls w !! r = Some c →
  ctrls w !! RefBox = Some g →
  lastStateFile c = Some f →
  files w !! f = Some st →
  0 < length (drop (offset st) (content st)) < bufSize →
  readLastState r w
  = match Unmarshal (drop (offset st) (content st)) (State g) (teams w) with
    | Some (s', h') =>
        Ok tt {| ctrls := <[RefBox := withState g s']> (ctrls w); teams := h';
                 files := <[f := {| content := content st;
                                    offset := offset st + length (drop (offset st) (content st)) |}]>
                            (files w);
                 trace := trace w |}
    | None =>
        Fatal {| ctrls := ctrls w; teams := teams w;
                 files := <[f := {| content := content st;
                                    offset := offset st + length (drop (offset st) (content st)) |}]>
                            (files w);
                 trace := trace w ++ [EvLog "Could not read last state: "] |}
    end.
Proof.
  intros Hr Hg Hfile Hf [Hpos Hlen].
  rewrite (readLastState_read _ _ _ _ _ Hr Hfile Hf). cbv zeta.
  rewrite Hg, take_ge by lia.
  rewrite bool_decide_eq_false_2 by lia.
  by rewrite bool_decide_eq_true_2 by lia.
Qed.


(** Saving and reading back: the snapshot file holds the encoding, and a
    read from the start of the file hands exactly these bytes to the
    decoder, or exits when they fill the buffer. *)
Lemma SaveLatestState_read_back r c g f st js (w : World) :
  ctrls w !! r = Some c →
  ctrls w !! RefBox = Some g →
  lastStateFile c = Some f →
  files w !! f = Some st →
  offset st = 0 →
  MarshalIndent (State c) (teams w) = Some js →
  ∃ w1,
    SaveLatestState r w = Ok tt w1 ∧
    content <$> files w1 !! f = Some js ∧
    (0 < length js < bufSize →
     ∀ s' h', Unmarshal js (State g) (teams w) = Some (s', h') →
       ∃ w2, readLastState r w1 = Ok tt w2 ∧
             ctrls w2 !! RefBox = Some (withState g s') ∧ teams w2 = h') ∧
    (bufSize ≤ length js →
     ∃ w2, readLastState r w1 = Fatal w2 ∧ ctrls w2 = ctrls w ∧ teams w2 = teams w ∧
           trace w2 = trace w1 ++ [EvLog "Buffer size too small"]).
Proof.
  intros Hr Hg Hfile Hf Hoff Hjs.
  eexists. split; [by eapply SaveLatestState_written|]. wsimpl.
  split; [by rewrite lookup_insert_eq|]. split.
  - intros Hlen s' h' Hdec. eexists. split.
    + erewrite readLastState_decode;
        [|exact Hr|exact Hg|exact Hfile|apply lookup_insert_eq|wsimpl; by rewrite Hoff, drop_0].
      wsimpl. rewrite Hoff, drop_0. by rewrite Hdec.
    + wsimpl. split; [apply lookup_insert_eq|done].
  - intros Hlen. eexists. split.
    + eapply (readLastState_full _ c);
        [exact Hr|exact Hfile|apply lookup_insert_eq|wsimpl; by rewrite Hoff, drop_0].
    + wsimpl. done.
Qed.

(** C9: [Publish] and [readLastState] called on any controller [r] work on
    the singleton: the state handed to both sinks is the singleton's, the
    save before a publish with a command appends to the singleton's
    HistoryLog and writes the singleton's files, and the recovered snapshot,
    read from the file of [r], lands in the singleton's state.  A
    controller [r] other than the singleton is left as it was; the state
    acted on is that of [r] exactly when [r] is the singleton. *)
Theorem publish_and_recovery_use_singleton r c g (w : World) :
  ctrls w !! r = Some c →
  ctrls w !! RefBox = Some g →
  (∃ w',
     Publish r None w = Ok tt w' ∧
     trace w' = trace w ++ [EvApiPublishState r (State g); EvPublish RefBox (State g) None] ∧
     ctrls w' = ctrls w) ∧
  (∀ command fs fh sts sth js jc,
     lastStateFile g = Some fs → stateHistoryFile g = Some fh → fs ≠ fh →
     files w !! fs = Some sts → files w !! fh = Some sth →
     MarshalIndent (State g) (teams w) = Some js →
     Marshal (State g) (teams w) = Some jc →
     ∃ w',
       Publish r (Some command) w = Ok tt w' ∧
       trace w' = trace w ++ [EvTruncate fs 0; EvWriteAt fs js 0; EvSync fs;
                              EvWrite fh jc; EvWrite fh newline; EvSync fh;
                              EvApiPublishState r (State g);
                              EvPublish RefBox (State g) (Some command)] ∧
       ctrls w' !! RefBox = Some (withStateHistory g (StateHistory g ++ [State g])) ∧
       (r ≠ RefBox → ctrls w' !! r = Some c)) ∧
  (∀ f st s' h',
     lastStateFile c = Some f → files w !! f = Some st →
     0 < length (drop (offset st) (content st)) < bufSize →
     Unmarshal (drop (offset st) (content st)) (State g) (teams w) = Some (s', h') →
     ∃ w',
       readLastState r w = Ok tt w' ∧
       ctrls w' !! RefBox = Some (withState g s') ∧
       (r ≠ RefBox → ctrls w' !! r = Some c) ∧
       (r = RefBox → State <$> ctrls w' !! r = Some s')).
Proof.
  intros Hr Hg. split_and!.
  - eexists. split; [by eapply Publish_heartbeat|]. done.
  - intros command fs fh sts sth js jc Hfs Hfh Hne Hsts Hsth Hjs Hjc.
    eexists. split; [by eapply Publish_command|]. wsimpl.
    split; [done|]. split; [apply lookup_insert_eq|].
    intros Hne'. by rewrite lookup_insert_ne.
  - intros f st s' h' Hfile Hf Hlen Hdec.
    pose proof (readLastState_decode _ _ _ _ _ _ Hr Hg Hfile Hf Hlen) as Hcase.
    rewrite Hdec in Hcase.
    eexists. split; [exact Hcase|]. wsimpl.
    split; [apply lookup_insert_eq|].
    split.
    + intros Hne'. by rewrite lookup_insert_ne.
    + intros ->. by rewrite lookup_insert_eq.
Qed.

(** * Further properties of refBox.go *)

(** ** Calls on a file that is not open *)

Lemma openFile_None h (w : World) :
  (h ≫= λ f, files w !! f) = None → openFile h w = Ok None w.
Proof.
  intros Hh. unfold openFile. destruct h as [f|]; [|done].
  simpl in Hh. by rewrite Hh.
Qed.

Lemma file_Truncate_unopened h size (w : World) :
  (h ≫= λ f, files w !! f) = None → file_Truncate h size w = Ok (Some ErrInvalid) w.
Proof. intros Hh. unfold file_Truncate. by rewrite (bind_Ok _ _ _ _ _ (openFile_None _ _ Hh)). Qed.

Lemma file_Write_unopened h b (w : World) :
  (h ≫= λ f, files w !! f) = None → file_Write h b w = Ok (Some ErrInvalid) w.
Proof. intros Hh. unfold file_Write. by rewrite (bind_Ok _ _ _ _ _ (openFile_None _ _ Hh)). Qed.

Lemma file_Sync_unopened h (w : World) :
  (h ≫= λ f, files w !! f) = None → file_Sync h w = Ok (Some ErrInvalid) w.
Proof. intros Hh. unfold file_Sync. by rewrite (bind_Ok _ _ _ _ _ (openFile_None _ _ Hh)). Qed.

Lemma file_Read_unopened h n (w : World) :
  (h ≫= λ f, files w !! f) = None → file_Read h n w = Ok ([], Some ErrInvalid) w.
Proof. intros Hh. unfold file_Read. by rewrite (bind_Ok _ _ _ _ _ (openFile_None _ _ Hh)). Qed.

Lemma open_or_not h (w : World) :
  (∃ f st, h = Some f ∧ files w !! f = Some st) ∨ (h ≫= λ f, files w !! f) = None.
Proof.
  destruct h as [f|]; [|by right]. simpl.
  destruct (files w !! f) as [st|] eqn:Hf; [left; eauto|by right].
Qed.

(** ** [SaveStateHistory] and [SaveLatestState], case by case *)

(** What [SaveStateHistory] does after the append: the audit record. *)
Lemma SaveStateHistory_unfold r c (w : World) :
  ctrls w !! r = Some c →
  SaveStateHistory r w
  = match Marshal (State c) (teams w) with
    | None => logPrint "Can not marshal state "
    | Some jsonState =>
        file_Write (stateHistoryFile c) jsonState ;;
        file_Write (stateHistoryFile c) newline ;;
        file_Sync (stateHistoryFile c) ;;
        mret tt
    end (withCtrls w (<[r := withStateHistory c (StateHistory c ++ [State c])]> (ctrls w))).
Proof.
  intros Hr. unfold SaveStateHistory.
  rewrite (bind_Ok _ _ _ _ _ (getCtrl_Ok _ _ _ Hr)).
  erewrite bind_Ok; [|reflexivity].
  erewrite bind_Ok; [|reflexivity]. done.
Qed.

Lemma SaveStateHistory_unopened r c (w : World) :
  ctrls w !! r = Some c →
  (stateHistoryFile c ≫= λ f, files w !! f) = None →
  is_Some (Marshal (State c) (teams w)) →
  SaveStateHistory r w
  = Ok tt (withCtrls w (<[r := withStateHistory c (StateHistory c ++ [State c])]> (ctrls w))).
Proof.
  intros Hr Hfile [js Hjs].
  rewrite (SaveStateHistory_unfold _ _ _ Hr), Hjs.
  erewrite bind_Ok; [|by apply file_Write_unopened].
  erewrite bind_Ok; [|by apply file_Write_unopened].
  erewrite bind_Ok; [|by apply file_Sync_unopened]. done.
Qed.

Lemma SaveStateHistory_unencodable r c (w : World) :
  ctrls w !! r = Some c →
  Marshal (State c) (teams w) = None →
  SaveStateHistory r w
  = Ok tt {| ctrls := <[r := withStateHistory c (StateHistory c ++ [State c])]> (ctrls w);
             teams := teams w; files := files w;
             trace := trace w ++ [EvLog "Can not marshal state "] |}.
Proof. intros Hr Hjs. by rewrite (SaveStateHistory_unfold _ _ _ Hr), Hjs. Qed.

Lemma SaveLatestState_unencodable r c (w : World) :
  ctrls w !! r = Some c →
  MarshalIndent (State c) (teams w) = None →
  SaveLatestState r w
  = Ok tt {| ctrls := ctrls w; teams := teams w; files := files w;
             trace := trace w ++ [EvLog "Can not marshal state "] |}.
Proof.
  intros Hr Hjs. unfold SaveLatestState.
  rewrite (bind_Ok _ _ _ _ _ (getCtrl_Ok _ _ _ Hr)).
  erewrite bind_Ok; [|reflexivity]. by rewrite Hjs.
Qed.

Lemma SaveLatestState_unopened r c (w : World) :
  ctrls w !! r = Some c →
  is_Some (MarshalIndent (State c) (teams w)) →
  (lastStateFile c ≫= λ f, files w !! f) = None →
  SaveLatestState r w
  = Fatal {| ctrls := ctrls w; teams := teams w; files := files w;
             trace := trace w ++ [EvLog "Can not truncate last state file "] |}.
Proof.
  intros Hr [js Hjs] Hfile. unfold SaveLatestState.
  rewrite (bind_Ok _ _ _ _ _ (getCtrl_Ok _ _ _ Hr)).
  erewrite bind_Ok; [|reflexivity]. rewrite Hjs.
  erewrite bind_Ok; [|by apply file_Truncate_unopened]. done.
Qed.

(** X1: [SaveStateHistory] always returns and always appends the current
    state to the HistoryLog, also when the state cannot be encoded or the
    audit file is not open; the audit file then stays as it is.  With an
    encoding and an open file, the file grows by the encoding and a line
    break, what it held before staying in front.  State, team objects and
    all other files are left alone. *)
Theorem save_state_history_appends r c (w : World) :
  ctrls w !! r = Some c →
  ∃ w',
    SaveStateHistory r w = Ok tt w' ∧
    ctrls w' = <[r := withStateHistory c (StateHistory c ++ [State c])]> (ctrls w) ∧
    teams w' = teams w ∧
    (∀ f, stateHistoryFile c ≠ Some f → files w' !! f = files w !! f) ∧
    (∀ f st js,
       stateHistoryFile c = Some f → files w !! f = Some st →
       Marshal (State c) (teams w) = Some js →
       files w' !! f = Some {| content := content st ++ js ++ newline; offset := offset st |} ∧
       trace w' = trace w ++ [EvWrite f js; EvWrite f newline; EvSync f]) ∧
    (Marshal (State c) (teams w) = None ∨ (stateHistoryFile c ≫= λ f, files w !! f) = None →
     files w' = files w).
Proof.
  intros Hr.
  destruct (Marshal (State c) (teams w)) as [js|] eqn:Hjs.
  - destruct (open_or_not (stateHistoryFile c) w) as [(f & st & Hfile & Hf)|Hnone].
    + eexists. split; [by eapply SaveStateHistory_appended|]. wsimpl.
      split_and!; try done.
      * intros f' Hne. rewrite lookup_insert_ne; [done|congruence].
      * intros f' st' js' Hfile' Hf' [= <-].
        assert (f' = f) as -> by congruence.
        assert (st' = st) as -> by congruence.
        by rewrite lookup_insert_eq.
      * intros [?|Hnone]; [done|]. rewrite Hfile in Hnone. simpl in Hnone. congruence.
    + eexists. split; [by eapply SaveStateHistory_unopened|]. wsimpl.
      split_and!; try done.
      intros f st js' Hfile Hf. rewrite Hfile in Hnone. simpl in Hnone. congruence.
  - eexists. split; [by eapply SaveStateHistory_unencodable|]. wsimpl.
    split_and!; done.
Qed.

Global Instance memoryFrame_refl : Reflexive memoryFrame.
Proof. by intros w. Qed.

Global Instance memoryFrame_trans : Transitive memoryFrame.
Proof. intros w1 w2 w3 [??] [??]. split; congruence. Qed.

(** X2: [SaveLatestState] never changes the in-memory world, whatever its
    outcome.  When the state cannot be encoded it logs, writes nothing and
    returns, so the snapshot on disk goes stale; when the state encodes but
    the snapshot file is not open, the truncation fails and the process
    exits, with no file changed. *)
Theorem save_latest_state_failures r (w : World) :
  memoryFrame w (outcomeWorld (SaveLatestState r w)) ∧
  (∀ c,
     ctrls w !! r = Some c →
     MarshalIndent (State c) (teams w) = None →
     ∃ w', SaveLatestState r w = Ok tt w' ∧ files w' = files w ∧
           trace w' = trace w ++ [EvLog "Can not marshal state "]) ∧
  (∀ c,
     ctrls w !! r = Some c →
     is_Some (MarshalIndent (State c) (teams w)) →
     (lastStateFile c ≫= λ f, files w !! f) = None →
     ∃ w', SaveLatestState r w = Fatal w' ∧ files w' = files w).
Proof.
  split_and!.
  - destruct (ctrls w !! r) as [c|] eqn:Hr.
    + destruct (MarshalIndent (State c) (teams w)) as [js|] eqn:Hjs.
      * destruct (open_or_not (lastStateFile c) w) as [(f & st & Hfile & Hf)|Hnone].
        -- by rewrite (SaveLatestState_written _ _ _ _ _ _ Hr Hfile Hf Hjs).
        -- by rewrite (SaveLatestState_unopened _ _ _ Hr (mk_is_Some _ _ Hjs) Hnone).
      * by rewrite (SaveLatestState_unencodable _ _ _ Hr Hjs).
    + unfold SaveLatestState. by rewrite (bind_Panic _ _ _ _ (getCtrl_Panic _ _ Hr)).
  - intros c Hr Hjs. eexists. split; [by apply (SaveLatestState_unencodable _ c)|]. done.
  - intros c Hr Hjs Hnone. eexists. split; [by apply (SaveLatestState_unopened _ c)|]. done.
Qed.

(** X3: [SaveLatestState] overwrites: afterwards the snapshot file holds the
    indented encoding of the state and nothing else, whatever it held
    before, so a second save with the state unchanged leaves the same file;
    the read offset stays where it was and every other file is as before. *)
Theorem save_latest_state_overwrites r c f st js (w : World) :
  ctrls w !! r = Some c →
  lastStateFile c = Some f →
  files w !! f = Some st →
  MarshalIndent (State c) (teams w) = Some js →
  ∃ w1 w2,
    SaveLatestState r w = Ok tt w1 ∧
    files w1 = <[f := {| content := js; offset := offset st |}]> (files w) ∧
    SaveLatestState r w1 = Ok tt w2 ∧
    files w2 = files w1.
Proof.
  intros Hr Hfile Hf Hjs.
  eexists _, _. split; [by eapply SaveLatestState_written|]. wsimpl.
  split; [done|].
  split.
  - eapply SaveLatestState_written; [exact Hr|exact Hfile|apply lookup_insert_eq|exact Hjs].
  - wsimpl. by rewrite insert_insert_eq.
Qed.

(** ** Undo, repeated and after a commit *)

Lemma undoTimes_pops r k : ∀ c pre s l (w : World),
  ctrls w !! r = Some c →
  StateHistory c = pre ++ s :: l →
  length (s :: l) = 2 * S k →
  undoTimes (S k) r w
  = Ok tt (withCtrls w (<[r := withStateHistory (withState c s) pre]> (ctrls w))).
Proof.
  induction k as [|k IH]; intros c pre s l w Hr Hhist Hlen.
  - destruct l as [|last [|]]; simpl in Hlen; try lia.
    cbn [undoTimes].
    by rewrite (bind_Ok _ _ _ _ _ (UndoLastAction_pop _ _ _ _ _ _ Hr Hhist)).
  - assert (∃ l1 a b, l = l1 ++ [a; b] ∧ length (s :: l1) = 2 * S k) as (l1 & a & b & -> & Hlen1).
    { simpl in Hlen.
      pose proof (take_drop (length l - 2) l) as Hsplit.
      assert (Hdrop : length (drop (length l - 2) l) = 2) by (rewrite length_drop; lia).
      destruct (drop (length l - 2) l) as [|a [|b [|]]]; simpl in Hdrop; try lia.
      exists (take (length l - 2) l), a, b. split; [done|].
      simpl. rewrite length_take. lia. }
    change (undoTimes (S (S k)) r) with (UndoLastAction r ;; undoTimes (S k) r).
    erewrite bind_Ok; cycle 1.
    { eapply (UndoLastAction_pop _ _ (pre ++ s :: l1) a b); [exact Hr|].
      rewrite Hhist. by rewrite <- app_assoc. }
    erewrite (IH _ pre s l1); [|apply lookup_insert_eq|done|exact Hlen1].
    unfold withCtrls. wsimpl. by rewrite insert_insert_eq.
Qed.

(** X4: [k] calls of [UndoLastAction] in a row, on a history with at least
    [2k] entries, make the entry [2k] places from the end the current state
    and cut these [2k] entries off: every call drops two entries, so every
    other committed state is passed over.  Team objects, files and the other
    controllers are not touched. *)
Theorem undo_times r c k pre s l (w : World) :
  ctrls w !! r = Some c →
  0 < k →
  StateHistory c = pre ++ s :: l →
  length (s :: l) = 2 * k →
  ∃ w' c',
    undoTimes k r w = Ok tt w' ∧ ctrls w' !! r = Some c' ∧
    State c' = s ∧ StateHistory c' = pre ∧
    length (StateHistory c') + 2 * k = length (StateHistory c) ∧
    teams w' = teams w ∧ files w' = files w ∧ trace w' = trace w ∧
    (∀ r', r' ≠ r → ctrls w' !! r' = ctrls w !! r').
Proof.
  intros Hr Hk Hhist Hlen. destruct k as [|k]; [lia|].
  eexists _, _. split; [by eapply undoTimes_pops|]. wsimpl.
  split; [apply lookup_insert_eq|]. wsimpl.
  split_and!; try done.
  - rewrite Hhist, length_app. lia.
  - intros r' Hne. by rewrite lookup_insert_ne.
Qed.

Lemma SaveStateHistory_returns r c (w : World) :
  ctrls w !! r = Some c →
  ∃ w',
    SaveStateHistory r w = Ok tt w' ∧
    ctrls w' = <[r := withStateHistory c (StateHistory c ++ [State c])]> (ctrls w) ∧
    teams w' = teams w.
Proof.
  intros Hr.
  destruct (Marshal (State c) (teams w)) as [js|] eqn:Hjs.
  - destruct (open_or_not (stateHistoryFile c) w) as [(f & st & Hfile & Hf)|Hnone].
    + eexists. split; [by eapply SaveStateHistory_appended|]. done.
    + eexists. split; [by eapply SaveStateHistory_unopened|]. done.
  - eexists. split; [by eapply SaveStateHistory_unencodable|]. done.
Qed.

(** X5: an undo right after [SaveStateHistory].  On an empty history the
    call changes nothing: the first committed state cannot be undone.  On a
    history ending in [p] it makes [p] the current state and leaves the
    history without [p]: the state just committed and the one before it are
    both gone from the history. *)
Theorem commit_then_undo r c (w : World) :
  ctrls w !! r = Some c →
  ∃ w1,
    SaveStateHistory r w = Ok tt w1 ∧
    (StateHistory c = [] → UndoLastAction r w1 = Ok tt w1) ∧
    (∀ pre p,
       StateHistory c = pre ++ [p] →
       ∃ w2 c2,
         UndoLastAction r w1 = Ok tt w2 ∧ ctrls w2 !! r = Some c2 ∧
         State c2 = p ∧ StateHistory c2 = pre).
Proof.
  intros Hr.
  destruct (SaveStateHistory_returns _ _ _ Hr) as (w1 & Hsave & Hctrls & _).
  exists w1. split; [done|].
  assert (Hr1 : ctrls w1 !! r = Some (withStateHistory c (StateHistory c ++ [State c])))
    by (rewrite Hctrls; apply lookup_insert_eq).
  split.
  - intros Hempty. eapply UndoLastAction_short; [exact Hr1|].
    wsimpl. rewrite Hempty. simpl. lia.
  - intros pre p Hhist. eexists _, _.
    split.
    { eapply (UndoLastAction_pop _ _ pre p (State c)); [exact Hr1|].
      wsimpl. rewrite Hhist. by rewrite <- app_assoc. }
    wsimpl. split; [apply lookup_insert_eq|]. done.
Qed.

(** ** Ticks in play: composition, card invariant, panics *)

Lemma tickTeams_keep_allocation delta ps : ∀ (h : gmap positive TeamInfo) q,
  is_Some (foldl (tickTeam delta) h ps !! q) ↔ is_Some (h !! q).
Proof.
  induction ps as [|p ps IH]; intros h q; simpl; [done|].
  by rewrite IH, tickTeam_allocated.
Qed.

Lemma add_add a d1 d2 : Duration.add (Duration.add a d1) d2 = Duration.add a (d1 + d2).
Proof.
  unfold Duration.add. apply wrap_congr.
  destruct (wrap_diff (a + d1)) as [k ->].
  replace (a + d1 + k * 2 ^ 64 + d2 - (a + (d1 + d2)))%Z with (k * 2 ^ 64)%Z by lia.
  apply Z.mod_mul. lia.
Qed.

Lemma sub_sub a d1 d2 : Duration.sub (Duration.sub a d1) d2 = Duration.sub a (d1 + d2).
Proof.
  unfold Duration.sub. apply wrap_congr.
  destruct (wrap_diff (a - d1)) as [k ->].
  replace (a - d1 + k * 2 ^ 64 - d2 - (a - (d1 + d2)))%Z with (k * 2 ^ 64)%Z by lia.
  apply Z.mod_mul. lia.
Qed.

Lemma tickCards_compose d1 d2 info :
  (0 ≤ d1)%Z → (0 ≤ d2)%Z →
  Forall (λ x, Duration.inRange x ∧ Duration.inRange (x - (d1 + d2))) (YellowCardTimes info) →
  tickCards d2 (tickCards d1 info) = tickCards (d1 + d2) info.
Proof.
  intros Hd1 Hd2 Hrange. unfold tickCards, withYellowCardTimes. wsimpl. f_equal.
  induction Hrange as [|x l [Hx Hx'] _ IH]; [done|].
  assert (Hmid : Duration.inRange (x - d1))
    by (unfold Duration.inRange in *; lia).
  rewrite !fmap_cons.
  assert (Hs1 : Duration.sub x d1 = (x - d1)%Z) by (by apply wrap_inRange).
  assert (Hs12 : Duration.sub x (d1 + d2) = (x - (d1 + d2))%Z) by (by apply wrap_inRange).
  destruct (decide (0 < x - d1)%Z) as [Hpos|Hneg].
  - rewrite (filter_cons_True _ (Duration.sub x d1)) by (rewrite Hs1; done).
    rewrite fmap_cons, sub_sub, Hs12.
    destruct (decide (0 < x - (d1 + d2))%Z) as [Hpos'|Hneg'].
    + rewrite !filter_cons_True by done. by rewrite IH.
    + rewrite !filter_cons_False by done. apply IH.
  - rewrite (filter_cons_False _ (Duration.sub x d1)) by (rewrite Hs1; done).
    rewrite (filter_cons_False _ (Duration.sub x (d1 + d2))) by (rewrite Hs12; lia).
    apply IH.
Qed.

(** X6: ticks in play compose.  Two ticks of [d1 >= 0] and [d2 >= 0] leave
    the world exactly as one tick of [d1 + d2] taken at the time of the
    second: the stage times, every team's cards and the match duration do
    not depend on how the interval was cut, as long as every card, and every
    card less [d1 + d2], is an int64 and no two teams share an object. *)
Theorem ticks_compose r c d1 d2 now1 now2 (w : World) :
  ctrls w !! r = Some c →
  GameState (State c) = GameStateRunning →
  teamsAllocated (State c) (teams w) →
  teamsUnshared (State c) →
  (0 ≤ d1)%Z → (0 ≤ d2)%Z →
  cardsWithin (d1 + d2) (State c) (teams w) →
  (Tick r d1 now1 ;; Tick r d2 now2) w = Tick r (d1 + d2) now2 w.
Proof.
  intros Hr Hrun Hal Hun Hd1 Hd2 Hcards.
  rewrite (bind_Ok _ _ _ _ _ (Tick_running _ _ d1 now1 _ Hr Hrun Hal)).
  set (c1 := stampDuration _ now1).
  assert (Hstate1 : TeamState (State c1) = TeamState (State c) ∧
                    GameState (State c1) = GameStateRunning).
  { unfold c1. destruct (stampDuration_stage_times
      (withState c (withStageTimes (State c)
         (Duration.add (StageTimeElapsed (State c)) d1)
         (Duration.sub (StageTimeLeft (State c)) d1))) now1) as (_ & _ & -> & -> & _).
    done. }
  destruct Hstate1 as [Hteams1 Hrun1].
  erewrite Tick_running; [|apply lookup_insert_eq|exact Hrun1|].
  2:{ intros team p Hp. wsimpl. rewrite Hteams1 in Hp.
      apply tickTeams_keep_allocation. by eapply Hal. }
  rewrite (Tick_running _ _ (d1 + d2) now2 _ Hr Hrun Hal).
  wsimpl. f_equal. f_equal.
  - rewrite insert_insert_eq. f_equal.
    unfold c1. destruct c as [[g gf e l md ts] mts hist f1 f2]. clear.
    cbv [stampDuration withState withMatchDuration withStageTimes
         State MatchTimeStart StateHistory stateHistoryFile lastStateFile
         GameState GameStateFor StageTimeElapsed StageTimeLeft MatchDuration TeamState].
    destruct (Time.After mts Time.Unix00) eqn:Hafter;
      cbv [withState withMatchDuration withStageTimes
           State MatchTimeStart StateHistory stateHistoryFile lastStateFile
           GameState GameStateFor StageTimeElapsed StageTimeLeft MatchDuration TeamState];
      rewrite ?Hafter; by rewrite add_add, sub_sub.
  - unfold teamPointers. rewrite Hteams1. fold (teamPointers (State c)).
    apply map_eq. intros i.
    destruct (decide (i ∈ teamPointers (State c))) as [Hin|Hnotin].
    + rewrite !tickTeams_lookup_in by (done || by apply teamPointers_NoDup).
      destruct (teams w !! i) as [info|] eqn:Hi; [|done]. simpl. f_equal.
      apply teamPointers_spec in Hin as [team Hteam].
      apply tickCards_compose; [done..|]. by eapply Hcards.
    + by rewrite !tickTeams_lookup_notin.
Qed.

Lemma tickTeams_cards delta ps : ∀ (h : gmap positive TeamInfo) q info,
  h !! q = Some info →
  ∃ info',
    foldl (tickTeam delta) h ps !! q = Some info' ∧
    length (YellowCardTimes info') ≤ length (YellowCardTimes info) ∧
    TimeoutTimeLeft info' = TimeoutTimeLeft info ∧
    (q ∈ ps ∨ Forall (λ x, 0 < x)%Z (YellowCardTimes info) →
     Forall (λ x, 0 < x)%Z (YellowCardTimes info')).
Proof.
  induction ps as [|p ps IH]; intros h q info Hq; simpl.
  { exists info. split_and!; try done. intros [Hin|?]; [|done]. by apply elem_of_nil in Hin. }
  destruct (decide (q = p)) as [->|Hne].
  - destruct (IH (tickTeam delta h p) p (tickCards delta info)) as (info' & Hlook & Hlen & Hto & Hpos).
    { rewrite tickTeam_lookup, decide_True by done. by rewrite Hq. }
    exists info'. split; [done|]. split_and!.
    + etrans; [exact Hlen|]. unfold tickCards. wsimpl.
      etrans; [apply length_filter|]. by rewrite length_fmap.
    + by rewrite Hto.
    + intros _. apply Hpos. right. unfold tickCards. wsimpl.
      apply Forall_forall. by intros x [Hx _]%list_elem_of_filter.
  - destruct (IH (tickTeam delta h p) q info) as (info' & Hlook & Hlen & Hto & Hpos).
    { rewrite tickTeam_lookup, decide_False by done. done. }
    exists info'. split_and!; try done.
    intros [Hin|Hall]; apply Hpos; [left|by right].
    apply elem_of_cons in Hin as [?|?]; [done|done].
Qed.

(** X7: after a tick in play every card of every team is strictly positive,
    no team has more cards than before, and no team's remaining timeout has
    moved; this holds for every delta, also when teams share an object. *)
Theorem tick_cards_positive r c delta now team p info (w : World) :
  ctrls w !! r = Some c →
  GameState (State c) = GameStateRunning →
  teamsAllocated (State c) (teams w) →
  TeamState (State c) !! team = Some p →
  teams w !! p = Some info →
  ∃ w' info',
    Tick r delta now w = Ok tt w' ∧
    teams w' !! p = Some info' ∧
    Forall (λ x, 0 < x)%Z (YellowCardTimes info') ∧
    length (YellowCardTimes info') ≤ length (YellowCardTimes info) ∧
    TimeoutTimeLeft info' = TimeoutTimeLeft info.
Proof.
  intros Hr Hrun Hal Hteam Hp.
  destruct (tickTeams_cards delta (teamPointers (State c)) _ _ _ Hp)
    as (info' & Hlook & Hlen & Hto & Hpos).
  eexists _, info'. split; [by apply Tick_running|]. wsimpl.
  split; [exact Hlook|]. split_and!; try done.
  apply Hpos. left. apply teamPointers_spec. eauto.
Qed.

Lemma card_loop_panics delta ps : ∀ w : World,
  Exists (λ p, teams w !! p = None) ps →
  ∃ w',
    forEach (λ p, reduceYellowCardTimes p delta ;; removeElapsedYellowCards p) ps w
    = Panic w'.
Proof.
  induction ps as [|p ps IH]; intros w Hex; [by apply Exists_nil in Hex|].
  simpl. destruct (teams w !! p) as [info|] eqn:Hp.
  - rewrite (bind_Ok _ _ _ _ _ (card_iteration _ _ _ _ Hp)).
    apply IH. apply Exists_cons in Hex as [Hex|Hex]; [congruence|].
    eapply Exists_impl; [exact Hex|]. intros q Hq. wsimpl.
    apply eq_None_not_Some. rewrite tickTeam_allocated. by rewrite Hq; intros [].
  - eexists. do 2 apply bind_Panic. unfold reduceYellowCardTimes.
    by apply bind_Panic, getTeam_Panic.
Qed.

(** X8: a tick in play returns exactly when every pointer of [TeamState]
    has its object.  With a nil pointer in the map the tick panics, and it
    does so after the stage times have been moved: the world it dies in has
    the advanced stage times and unchanged files and HistoryLog. *)
Theorem tick_running_returns_iff_allocated r c delta now (w : World) :
  ctrls w !! r = Some c →
  GameState (State c) = GameStateRunning →
  ((∃ w', Tick r delta now w = Ok tt w') ↔ teamsAllocated (State c) (teams w)) ∧
  (¬ teamsAllocated (State c) (teams w) →
   ∃ w' c',
     Tick r delta now w = Panic w' ∧ ctrls w' !! r = Some c' ∧
     StageTimeElapsed (State c') = Duration.add (StageTimeElapsed (State c)) delta ∧
     StageTimeLeft (State c') = Duration.sub (StageTimeLeft (State c)) delta ∧
     StateHistory c' = StateHistory c ∧ files w' = files w ∧ trace w' = trace w).
Proof.
  intros Hr Hrun.
  assert (Hpanic : ¬ teamsAllocated (State c) (teams w) →
    ∃ w', Tick r delta now w = Panic w' ∧
          ctrls w' = <[r := withState c (withStageTimes (State c)
                              (Duration.add (StageTimeElapsed (State c)) delta)
                              (Duration.sub (StageTimeLeft (State c)) delta))]> (ctrls w) ∧
          files w' = files w ∧ trace w' = trace w).
  { intros Hnot.
    assert (Hex : Exists (λ p, teams w !! p = None) (teamPointers (State c))).
    { assert (Hex : Exists (not ∘ (λ p, is_Some (teams w !! p))) (teamPointers (State c))).
      { apply not_Forall_Exists; [intros p; apply _|]. intros Hall. apply Hnot.
        intros team p Hteam. rewrite Forall_forall in Hall.
        apply Hall, teamPointers_spec. eauto. }
      eapply Exists_impl; [exact Hex|]. intros p Hp. simpl in Hp.
      by apply eq_None_not_Some. }
    set (w1 := withCtrls w (<[r := withState c (withStageTimes (State c)
                              (Duration.add (StageTimeElapsed (State c)) delta)
                              (Duration.sub (StageTimeLeft (State c)) delta))]> (ctrls w))).
    destruct (card_loop_panics delta _ w1 Hex) as [w' Hloop].
    exists w'.
    split.
    { unfold Tick. apply bind_Panic.
      by rewrite (updateTimes_running_loop _ _ _ _ Hr Hrun). }
    pose proof (ctrls_card_loop delta (teamPointers (State c)) w1) as Hctrls.
    pose proof (tickFrame_updateTimes r delta w) as (Hfiles & Htrace & _).
    rewrite (updateTimes_running_loop _ _ _ _ Hr Hrun) in Hfiles, Htrace. fold w1 in Hfiles, Htrace.
    rewrite Hloop in Hctrls, Hfiles, Htrace. wsimpl.
    by rewrite Hctrls. }
  split.
  - split.
    + intros [w' Hok].
      destruct (decide (teamsAllocated (State c) (teams w))) as [|Hnot]; [done|].
      destruct (Hpanic Hnot) as (w'' & Htick & _). congruence.
    + intros Hal. eexists. by apply Tick_running.
  - intros Hnot. destruct (Hpanic Hnot) as (w' & Htick & Hctrls & Hfiles & Htrace).
    eexists w', _. split; [exact Htick|].
    split; [rewrite Hctrls; apply lookup_insert_eq|]. done.
Qed.

(** ** The match duration *)

Lemma Time_Sub_inRange a u : Duration.inRange (Time.Sub a u).
Proof.
  unfold Time.Sub, Duration.inRange. cbv zeta.
  repeat case_bool_decide; unfold Duration.minDuration, Duration.maxDuration in *; lia.
Qed.

Lemma Time_Sub_exact a u : Duration.inRange (a - u) → Time.Sub a u = (a - u)%Z.
Proof.
  unfold Time.Sub, Duration.inRange. cbv zeta. intros Hr.
  rewrite !bool_decide_eq_false_2; [done|lia..].
Qed.

Lemma updateTimes_Ok_ctrl r c delta (w w1 : World) :
  ctrls w !! r = Some c →
  updateTimes r delta w = Ok tt w1 →
  ∃ c1, ctrls w1 !! r = Some c1 ∧ MatchTimeStart c1 = MatchTimeStart c ∧
        MatchDuration (State c1) = MatchDuration (State c).
Proof.
  intros Hr Hup.
  destruct (decide (GameState (State c) = GameStateRunning)) as [Hrun|Hrun].
  - rewrite (updateTimes_running_loop _ _ _ _ Hr Hrun) in Hup.
    pose proof (ctrls_card_loop delta (teamPointers (State c))) as Hctrls.
    specialize (Hctrls (withCtrls w (<[r := withState c (withStageTimes (State c)
                              (Duration.add (StageTimeElapsed (State c)) delta)
                              (Duration.sub (StageTimeLeft (State c)) delta))]> (ctrls w)))).
    rewrite Hup in Hctrls. wsimpl.
    eexists. split; [rewrite Hctrls; apply lookup_insert_eq|]. done.
  - destruct (decide (GameState (State c) = GameStateTimeout)) as [Hmode|Hmode].
    + destruct (GameStateFor (State c)) as [team|] eqn:Hfor.
      * rewrite (updateTimes_timeout_lookup _ _ _ _ _ Hr Hmode Hfor) in Hup.
        destruct (TeamState (State c) !! team ≫= _) as [[p info]|]; [|done].
        injection Hup as <-. exists c. by wsimpl.
      * rewrite (updateTimes_idle _ _ _ _ Hr Hrun (or_intror Hfor)) in Hup.
        injection Hup as <-. by exists c.
    + rewrite (updateTimes_idle _ _ _ _ Hr Hrun (or_introl Hmode)) in Hup.
      injection Hup as <-. by exists c.
Qed.

(** X9: the match duration is recomputed, not accumulated.  Whenever a tick
    returns, in whatever run-mode and for whatever delta, the match start is
    as before and the match duration is [now - start], saturated to the
    int64 range, if the match start lies after the epoch, and the old match
    duration otherwise. *)
Theorem tick_match_duration r c delta now (w w' : World) :
  ctrls w !! r = Some c →
  Tick r delta now w = Ok tt w' →
  ∃ c',
    ctrls w' !! r = Some c' ∧ MatchTimeStart c' = MatchTimeStart c ∧
    MatchDuration (State c')
    = (if Time.After (MatchTimeStart c) Time.Unix00
       then Time.Sub now (MatchTimeStart c) else MatchDuration (State c)) ∧
    (Time.After (MatchTimeStart c) Time.Unix00 = true →
     Duration.inRange (MatchDuration (State c')) ∧
     (Duration.inRange (now - MatchTimeStart c) →
      MatchDuration (State c') = (now - MatchTimeStart c)%Z)).
Proof.
  intros Hr Htick.
  destruct (updateTimes r delta w) as [[] w1| |] eqn:Hup.
  2,3: unfold Tick in Htick; erewrite ?bind_Fatal, ?bind_Panic in Htick by exact Hup; done.
  destruct (updateTimes_Ok_ctrl _ _ _ _ _ Hr Hup) as (c1 & Hr1 & Hstart & Hdur).
  rewrite (Tick_after_update _ _ _ now _ _ Hup Hr1) in Htick.
  injection Htick as <-. wsimpl.
  exists (stampDuration c1 now).
  split; [apply lookup_insert_eq|].
  unfold stampDuration. rewrite Hstart.
  destruct (Time.After (MatchTimeStart c) Time.Unix00) eqn:Hafter; wsimpl.
  - split_and!; try done. intros _. split; [apply Time_Sub_inRange|].
    intros Hrange. by apply Time_Sub_exact.
  - split_and!; done.
Qed.

(** ** The heartbeat loop *)

Global Instance heartbeatFrame_refl : Reflexive heartbeatFrame.
Proof.
  intros w. split_and!; [done| |exists []; by rewrite app_nil_r].
  intros r. destruct (ctrls w !! r); by constructor.
Qed.

Global Instance heartbeatFrame_trans : Transitive heartbeatFrame.
Proof.
  intros w1 w2 w3 (Hf1 & Hc1 & evs1 & Ht1 & He1) (Hf2 & Hc2 & evs2 & Ht2 & He2).
  split_and!; [congruence| |].
  - intros r. specialize (Hc1 r). specialize (Hc2 r).
    destruct Hc1 as [c1 c2 H12|]; inversion Hc2 as [c2' c3 H23|]; subst; constructor.
    by etrans.
  - exists (evs1 ++ evs2). split; [by rewrite Ht2, Ht1, app_assoc|].
    by apply Forall_app.
Qed.

Lemma heartbeatFrame_tickFrame (w w' : World) : tickFrame w w' → heartbeatFrame w w'.
Proof.
  intros (Hf & Ht & Hc). split_and!; [done..|].
  exists []. by rewrite app_nil_r.
Qed.

Lemma heartbeatFrame_emit e : isHeartbeat e → preserves heartbeatFrame (emit e).
Proof.
  intros He w. unfold emit, heartbeatFrame. wsimpl. split_and!; [done| |].
  - intros r. destruct (ctrls w !! r); by constructor.
  - exists [e]. split; [done|]. by constructor.
Qed.

Lemma heartbeatFrame_Publish r : preserves heartbeatFrame (Publish r None).
Proof.
  unfold Publish.
  apply preserves_bind; [apply _|by apply preserves_ret; apply _|intros _].
  apply preserves_bind; [apply _|by apply preserves_getCtrl; apply _|intros _].
  apply preserves_bind; [apply _|by apply preserves_getCtrl; apply _|intros g].
  apply preserves_bind; [apply _|by apply heartbeatFrame_emit|intros _].
  apply preserves_bind; [apply _|by apply preserves_getCtrl; apply _|intros g'].
  by apply heartbeatFrame_emit.
Qed.

Lemma heartbeatFrame_round r delta now :
  preserves heartbeatFrame (Tick r delta now ;; Publish r None).
Proof.
  apply preserves_bind; [apply _| |intros _; apply heartbeatFrame_Publish].
  intros w. apply heartbeatFrame_tickFrame, tickFrame_Tick.
Qed.

Lemma Publish_heartbeat_Ok r (w w' : World) :
  Publish r None w = Ok tt w' → length (trace w') = length (trace w) + 2.
Proof.
  intros Hpub.
  destruct (ctrls w !! r) as [c|] eqn:Hr; cycle 1.
  { unfold Publish in Hpub. erewrite bind_Ok in Hpub; [|reflexivity].
    by rewrite (bind_Panic _ _ _ _ (getCtrl_Panic _ _ Hr)) in Hpub. }
  destruct (ctrls w !! RefBox) as [g|] eqn:Hg; cycle 1.
  { unfold Publish in Hpub. erewrite bind_Ok in Hpub; [|reflexivity].
    rewrite (bind_Ok _ _ _ _ _ (getCtrl_Ok _ _ _ Hr)) in Hpub.
    by rewrite (bind_Panic _ _ _ _ (getCtrl_Panic _ _ Hg)) in Hpub. }
  rewrite (Publish_heartbeat _ _ _ _ Hr Hg) in Hpub. injection Hpub as <-.
  wsimpl. rewrite length_app. simpl. lia.
Qed.

(** X10: the loop started by [Run] only ticks and sends heartbeats.  In
    every outcome of any number of rounds no file has changed, no
    HistoryLog has changed, and every call that left the controller is a
    publish without a command; rounds that all return have made exactly two
    such calls each. *)
Theorem run_loop_heartbeats r clock (w : World) :
  heartbeatFrame w (outcomeWorld (runLoop r clock w)) ∧
  (∀ w', runLoop r clock w = Ok tt w' →
         length (trace w') = length (trace w) + 2 * length clock).
Proof.
  split.
  - revert w. induction clock as [|[delta now] clock IH]; intros w; simpl.
    + reflexivity.
    + apply preserves_bind_at; [apply _|apply heartbeatFrame_tickFrame, tickFrame_Tick|].
      intros _. apply preserves_bind; [apply _|apply heartbeatFrame_Publish|].
      intros _ w1. apply IH.
  - revert w. induction clock as [|[delta now] clock IH]; intros w w' Hrun; simpl in *.
    + injection Hrun as <-. lia.
    + unfold mbind at 1, M_bind at 1 in Hrun.
      pose proof (tickFrame_Tick r delta now w) as (_ & Htrace & _).
      destruct (Tick r delta now w) as [[] w1| |]; [|done..].
      unfold mbind at 1, M_bind at 1 in Hrun.
      destruct (Publish r None w1) as [[] w2| |] eqn:Hpub; [|done..].
      apply Publish_heartbeat_Ok in Hpub. apply IH in Hrun.
      wsimpl. rewrite Htrace in Hpub. lia.
Qed.

(** ** Recovery: what it never does, and what a second call does *)

Lemma readLastState_unopened r c (w : World) :
  ctrls w !! r = Some c →
  (lastStateFile c ≫= λ f, files w !! f) = None →
  readLastState r w
  = Fatal {| ctrls := ctrls w; teams := teams w; files := files w;
             trace := trace w ++ [EvLog "Could not read from last state file "] |}.
Proof.
  intros Hr Hfile. unfold readLastState.
  rewrite (bind_Ok _ _ _ _ _ (getCtrl_Ok _ _ _ Hr)).
  by rewrite (bind_Ok _ _ _ _ _ (file_Read_unopened _ _ _ Hfile)).
Qed.

Lemma readLastState_empty r c f st (w : World) :
  ctrls w !! r = Some c →
  lastStateFile c = Some f →
  files w !! f = Some st →
  length (drop (offset st) (content st)) = 0 →
  readLastState r w = Ok tt w.
Proof.
  intros Hr Hfile Hf Hlen.
  rewrite (readLastState_read _ _ _ _ _ Hr Hfile Hf). cbv zeta.
  assert (Hb : length (take bufSize (drop (offset st) (content st))) = 0)
    by (rewrite length_take; lia).
  rewrite Hb.
  rewrite bool_decide_eq_false_2 by (unfold bufSize; lia).
  rewrite bool_decide_eq_false_2 by lia.
  rewrite file_eta by done. by rewrite world_files_eta.
Qed.

Lemma contentFrame_offset (w : World) f st n m t tr :
  files w !! f = Some st →
  contentFrame w {| ctrls := m; teams := t;
                    files := <[f := {| content := content st; offset := n |}]> (files w);
                    trace := tr |}.
Proof.
  intros Hf f'. wsimpl. destruct (decide (f' = f)) as [->|Hne].
  - by rewrite lookup_insert_eq, Hf.
  - by rewrite lookup_insert_ne.
Qed.

(** X11: recovery never writes.  In every outcome of [readLastState] every
    file holds what it held (only a read offset moves) and every controller
    but the singleton is as it was.  Called with a snapshot file that is
    not open, it exits fatally on the read error. *)
Theorem read_last_state_never_writes r (w : World) :
  contentFrame w (outcomeWorld (readLastState r w)) ∧
  (∀ r', r' ≠ RefBox → ctrls (outcomeWorld (readLastState r w)) !! r' = ctrls w !! r') ∧
  (∀ c,
     ctrls w !! r = Some c →
     (lastStateFile c ≫= λ f, files w !! f) = None →
     ∃ w', readLastState r w = Fatal w' ∧ ctrls w' = ctrls w ∧ teams w' = teams w).
Proof.
  assert (Hcases :
    contentFrame w (outcomeWorld (readLastState r w)) ∧
    (∀ r', r' ≠ RefBox → ctrls (outcomeWorld (readLastState r w)) !! r' = ctrls w !! r')).
  { destruct (ctrls w !! r) as [c|] eqn:Hr; cycle 1.
    { unfold readLastState. rewrite (bind_Panic _ _ _ _ (getCtrl_Panic _ _ Hr)). by wsimpl. }
    destruct (open_or_not (lastStateFile c) w) as [(f & st & Hfile & Hf)|Hnone]; cycle 1.
    { rewrite (readLastState_unopened _ _ _ Hr Hnone). by wsimpl. }
    rewrite (readLastState_read _ _ _ _ _ Hr Hfile Hf). cbv zeta.
    case_bool_decide; [split; [by apply contentFrame_offset|done]|].
    case_bool_decide; [|split; [by apply contentFrame_offset|done]].
    destruct (ctrls w !! RefBox) as [g|]; [|split; [by apply contentFrame_offset|done]].
    destruct (Unmarshal _ _ _) as [[s' h']|]; [|split; [by apply contentFrame_offset|done]].
    split; [by apply contentFrame_offset|].
    intros r' Hne. wsimpl. by rewrite lookup_insert_ne. }
  destruct Hcases as [Hcontent Hothers]. split_and!; [done..|].
  intros c Hr Hnone. eexists. split; [by apply (readLastState_unopened _ c)|]. done.
Qed.

(** X12: recovery consumes the snapshot.  The read moves the offset of the
    file to its end, so a second [readLastState] on the same controller
    right after a successful one reads nothing and leaves the world as the
    first one left it. *)
Theorem read_last_state_twice r c g f st s' h' (w : World) :
  ctrls w !! r = Some c →
  ctrls w !! RefBox = Some g →
  lastStateFile c = Some f →
  files w !! f = Some st →
  0 < length (drop (offset st) (content st)) < bufSize →
  Unmarshal (drop (offset st) (content st)) (State g) (teams w) = Some (s', h') →
  ∃ w1,
    readLastState r w = Ok tt w1 ∧
    offset <$> files w1 !! f = Some (length (content st)) ∧
    readLastState r w1 = Ok tt w1.
Proof.
  intros Hr Hg Hfile Hf Hlen Hdec.
  pose proof (readLastState_decode _ _ _ _ _ _ Hr Hg Hfile Hf Hlen) as Hread.
  rewrite Hdec in Hread.
  eexists. split; [exact Hread|]. wsimpl.
  assert (Hoff : offset st + length (drop (offset st) (content st)) = length (content st)).
  { rewrite length_drop in *. lia. }
  split; [rewrite lookup_insert_eq; simpl; by rewrite Hoff|].
  eapply (readLastState_empty _ (if decide (r = RefBox) then withState g s' else c));
    [apply (lookup_after_singleton_update _ _ _ _ _ Hr Hg)| |apply lookup_insert_eq|].
  - case_decide as Heq; [|done]. subst r. wsimpl. congruence.
  - wsimpl. rewrite Hoff. by rewrite drop_all.
Qed.

(** ** Publishing with a command when the save goes wrong *)

(** X13: a publish with a command on a singleton whose snapshot file is not
    open (as before [Run] has opened it) ends the process in the truncation:
    no sink is reached, the HistoryLog is not appended to, and nothing in
    memory or on disk has changed. *)
Theorem publish_unopened_snapshot_fatal r g command (w : World) :
  ctrls w !! RefBox = Some g →
  is_Some (MarshalIndent (State g) (teams w)) →
  (lastStateFile g ≫= λ f, files w !! f) = None →
  Publish r (Some command) w
  = Fatal {| ctrls := ctrls w; teams := teams w; files := files w;
             trace := trace w ++ [EvLog "Can not truncate last state file "] |}.
Proof.
  intros Hg Hjs Hnone. unfold Publish, SaveState.
  apply bind_Fatal, bind_Fatal. by apply (SaveLatestState_unopened _ g).
Qed.

(** X14: a state that cannot be encoded does not stop a publish with a
    command.  Both saves log the failure and write nothing, the HistoryLog
    is appended to all the same, and both sinks are reached with the
    command. *)
Theorem publish_unencodable_state r c g command (w : World) :
  ctrls w !! r = Some c →
  ctrls w !! RefBox = Some g →
  MarshalIndent (State g) (teams w) = None →
  Marshal (State g) (teams w) = None →
  Publish r (Some command) w
  = Ok tt {| ctrls := <[RefBox := withStateHistory g (StateHistory g ++ [State g])]> (ctrls w);
             teams := teams w; files := files w;
             trace := trace w ++ [EvLog "Can not marshal state "; EvLog "Can not marshal state ";
                                  EvApiPublishState r (State g);
                                  EvPublish RefBox (State g) (Some command)] |}.
Proof.
  intros Hr Hg Hjs Hjc. unfold Publish, SaveState.
  erewrite bind_Ok; cycle 1.
  { rewrite (bind_Ok _ _ _ _ _ (SaveLatestState_unencodable _ _ _ Hg Hjs)).
    by apply SaveStateHistory_unencodable. }
  erewrite Publish_sinks;
    [|apply (lookup_after_singleton_update _ _ _ _ _ Hr Hg)|apply lookup_insert_eq].
  wsimpl. by rewrite <- !app_assoc.
Qed.

(** X17: ticks during a timeout compose, without any side condition: two
    ticks of [d1] and [d2] leave the world exactly as one tick of
    [d1 + d2] taken at the time of the second, the subtraction being the
    int64 one in both. *)
Theorem ticks_compose_timeout r c team p info d1 d2 now1 now2 (w : World) :
  ctrls w !! r = Some c →
  GameState (State c) = GameStateTimeout →
  GameStateFor (State c) = Some team →
  TeamState (State c) !! team = Some p →
  teams w !! p = Some info →
  (Tick r d1 now1 ;; Tick r d2 now2) w = Tick r (d1 + d2) now2 w.
Proof.
  intros Hr Hmode Hfor Hteam Hp.
  rewrite (bind_Ok _ _ _ _ _ (Tick_timeout _ _ _ _ _ d1 now1 _ Hr Hmode Hfor Hteam Hp)).
  destruct (stampDuration_stage_times c now1) as (_ & _ & Hteams1 & Hmode1 & Hfor1).
  erewrite Tick_timeout;
    [|apply lookup_insert_eq|by rewrite Hmode1|by rewrite Hfor1|by rewrite Hteams1
     |apply lookup_insert_eq].
  rewrite (Tick_timeout _ _ _ _ _ (d1 + d2) now2 _ Hr Hmode Hfor Hteam Hp).
  wsimpl. rewrite !insert_insert_eq, sub_sub. do 3 f_equal.
  destruct c as [[g gf e l md ts] mts hist f1 f2]. clear.
  cbv [stampDuration withState withMatchDuration
       State MatchTimeStart StateHistory stateHistoryFile lastStateFile
       GameState GameStateFor StageTimeElapsed StageTimeLeft MatchDuration TeamState].
  destruct (Time.After mts Time.Unix00) eqn:Hafter;
    cbv [withState withMatchDuration
         State MatchTimeStart StateHistory stateHistoryFile lastStateFile
         GameState GameStateFor StageTimeElapsed StageTimeLeft MatchDuration TeamState];
    by rewrite ?Hafter.
Qed.

Lemma cardsWithin_checked d s (h : gmap positive TeamInfo) :
  map_Forall (λ _ p, from_option
                       (λ info, Forall (λ x, (Duration.minDuration ≤ x ≤ Duration.maxDuration)%Z ∧
                                             (Duration.minDuration ≤ x - d ≤ Duration.maxDuration)%Z)
                                       (YellowCardTimes info))
                       True (h !! p))
             (TeamState s) →
  cardsWithin d s h.
Proof.
  intros Hall team p info Hteam Hp.
  specialize (Hall team p Hteam). cbv beta in Hall. by rewrite Hp in Hall.
Qed.

End Properties.

(** * The stage table *)

Section StageTable.
Context {Stage : Type} `{Countable Stage}.

Lemma assign_lookup_notin kvs : ∀ (m : gmap Stage Z) k,
  k ∉ kvs.*1 → assign kvs m !! k = m !! k.
Proof.
  induction kvs as [|[k1 v1] kvs IH]; intros m k Hk; [done|].
  rewrite fmap_cons in Hk. apply not_elem_of_cons in Hk as [Hne Hk].
  unfold assign in *. simpl. rewrite IH by done. by rewrite lookup_insert_ne.
Qed.

Lemma assign_lookup_in kvs : ∀ (m : gmap Stage Z) k,
  k ∈ kvs.*1 → ∃ v, (k, v) ∈ kvs ∧ assign kvs m !! k = Some v.
Proof.
  induction kvs as [|[k1 v1] kvs IH]; intros m k Hk; [by apply elem_of_nil in Hk|].
  destruct (decide (k ∈ kvs.*1)) as [Hin|Hnotin].
  - destruct (IH (<[k1 := v1]> m) k Hin) as (v & Hv & Hlook).
    exists v. split; [by right|done].
  - rewrite fmap_cons in Hk. apply elem_of_cons in Hk as [->|?]; [|done].
    exists v1. split; [by left|].
    unfold assign. simpl. fold (assign kvs (<[k1 := v1]> m)).
    rewrite assign_lookup_notin by done. apply lookup_insert_eq.
Qed.

Lemma assign_lookup_NoDup kvs (m : gmap Stage Z) k v :
  NoDup kvs.*1 → (k, v) ∈ kvs → assign kvs m !! k = Some v.
Proof.
  intros Hnd Hkv.
  destruct (assign_lookup_in kvs m k) as (v' & Hv' & Hlook).
  { apply list_elem_of_fmap. by exists (k, v). }
  rewrite Hlook. f_equal.
  apply list_elem_of_lookup in Hkv as [i Hi]. apply list_elem_of_lookup in Hv' as [j Hj].
  assert (i = j) as ->.
  { eapply NoDup_lookup; [exact Hnd| |].
    - by rewrite list_lookup_fmap, Hi.
    - by rewrite list_lookup_fmap, Hj. }
  congruence.
Qed.

Variables StageFirstHalf StageHalfTime StageSecondHalf StageOvertimeBreak : Stage.
Variables StageOvertimeFirstHalf StageOvertimeHalfTime StageOvertimeSecondHalf : Stage.
Variable StageShootoutBreak : Stage.
Variable Stages : list Stage.

Abbreviation timed := (timedStages StageFirstHalf StageHalfTime StageSecondHalf StageOvertimeBreak
                     StageOvertimeFirstHalf StageOvertimeHalfTime StageOvertimeSecondHalf
                     StageShootoutBreak).
Abbreviation table := (loadStages StageFirstHalf StageHalfTime StageSecondHalf StageOvertimeBreak
                     StageOvertimeFirstHalf StageOvertimeHalfTime StageOvertimeSecondHalf
                     StageShootoutBreak Stages).
Abbreviation assignments := (stageAssignments StageFirstHalf StageHalfTime StageSecondHalf
                           StageOvertimeBreak StageOvertimeFirstHalf StageOvertimeHalfTime
                           StageOvertimeSecondHalf StageShootoutBreak).

Lemma loadStages_assign config :
  table config = assign (assignments config) (assign ((λ stage, (stage, 0%Z)) <$> Stages) ∅).
Proof.
  unfold loadStages, assign, stageAssignments. cbv zeta. simpl.
  do 8 f_equal. generalize (∅ : gmap Stage Z).
  induction Stages as [|stage l IH]; intros m; [done|]. simpl. apply IH.
Qed.

Lemma zero_table_lookup (k : Stage) :
  assign ((λ stage, (stage, 0%Z)) <$> Stages) ∅ !! k = if decide (k ∈ Stages) then Some 0%Z else None.
Proof.
  assert (Hkeys : ((λ stage : Stage, (stage, 0%Z)) <$> Stages).*1 = Stages).
  { rewrite <- list_fmap_compose. apply list_fmap_id. }
  case_decide as Hin.
  - destruct (assign_lookup_in ((λ stage, (stage, 0%Z)) <$> Stages) ∅ k) as (v & Hv & ->).
    { by rewrite Hkeys. }
    apply list_elem_of_fmap in Hv as (stage & [= -> ->] & _). done.
  - rewrite assign_lookup_notin by (by rewrite Hkeys). apply lookup_empty.
Qed.

(** X16: the table [StageTimes] built by [loadStages], the eight named
    stage constants being distinct.  It has an entry exactly for the stages of [Stages] and
    the eight named ones; each named stage carries the duration assigned to
    it from the configuration, whether or not [Stages] lists it (so both
    halves carry the same duration, in regulation and in overtime), and
    every other listed stage carries zero. *)
Theorem load_stages_table config (StageTimes : gmap Stage Z) :
  StageTimes = loadStages StageFirstHalf StageHalfTime StageSecondHalf StageOvertimeBreak
                 StageOvertimeFirstHalf StageOvertimeHalfTime StageOvertimeSecondHalf
                 StageShootoutBreak Stages config →
  NoDup (timedStages StageFirstHalf StageHalfTime StageSecondHalf StageOvertimeBreak
           StageOvertimeFirstHalf StageOvertimeHalfTime StageOvertimeSecondHalf
           StageShootoutBreak) →
  (∀ stage, is_Some (StageTimes !! stage) ↔ stage ∈ Stages ∨ stage ∈ timed) ∧
  (∀ stage, stage ∈ Stages → stage ∉ timed → StageTimes !! stage = Some 0%Z) ∧
  (∀ stage d, (stage, d) ∈ assignments config → StageTimes !! stage = Some d) ∧
  StageTimes !! StageFirstHalf = StageTimes !! StageSecondHalf ∧
  StageTimes !! StageOvertimeFirstHalf = StageTimes !! StageOvertimeSecondHalf.
Proof.
  intros -> Hnd.
  assert (Hkeys : (assignments config).*1 = timed) by done.
  assert (Hnamed : ∀ stage d, (stage, d) ∈ assignments config → table config !! stage = Some d).
  { intros stage d Hin. rewrite loadStages_assign.
    apply assign_lookup_NoDup; [by rewrite Hkeys|done]. }
  assert (Hother : ∀ stage, stage ∉ timed →
            table config !! stage = if decide (stage ∈ Stages) then Some 0%Z else None).
  { intros stage Hnot. rewrite loadStages_assign.
    rewrite assign_lookup_notin by (by rewrite Hkeys). apply zero_table_lookup. }
  split_and!.
  - intros stage. destruct (decide (stage ∈ timed)) as [Hin|Hnot].
    + split; [by right|intros _].
      rewrite <- Hkeys in Hin. apply list_elem_of_fmap in Hin as ([k d] & -> & Hin).
      simpl. rewrite (Hnamed _ _ Hin). eauto.
    + rewrite (Hother _ Hnot). case_decide as Hin.
      * split; [by left|eauto].
      * split; [by intros []|]. by intros [?|?].
  - intros stage Hin Hnot. rewrite (Hother _ Hnot). by rewrite decide_True.
  - exact Hnamed.
  - rewrite (Hnamed StageFirstHalf (HalfDuration (Normal config))) by (by left).
    by rewrite (Hnamed StageSecondHalf (HalfDuration (Normal config)))
      by (by do 2 right; left).
  - rewrite (Hnamed StageOvertimeFirstHalf (HalfDuration (Overtime config)))
      by (by do 4 right; left).
    by rewrite (Hnamed StageOvertimeSecondHalf (HalfDuration (Overtime config)))
      by (by do 6 right; left).
Qed.

End StageTable.

(** * The codec

    The parser reads back what the indenting encoder writes, and the decoder
    reads a state back from the value that the encoder makes of it. *)

Section CodecRoundTrip.
Import Json.

Lemma Json_induction (P : Json → Prop) :
  P JNull → (∀ z, P (JNum z)) → (∀ s, P (JStr s)) →
  (∀ l, Forall P l → P (JArr l)) →
  (∀ l, Forall (λ kv, P kv.2) l → P (JObj l)) →
  ∀ j, P j.
Proof.
  intros Hnull Hnum Hstr Harr Hobj. fix IH 1. intros [|z|s|l|l].
  - exact Hnull.
  - apply Hnum.
  - apply Hstr.
  - apply Harr. induction l as [|v l IHl]; constructor; [apply IH|exact IHl].
  - apply Hobj. induction l as [|[k v] l IHl]; constructor; [apply IH|exact IHl].
Qed.

Lemma renderIndent_arr d v l :
  renderIndent d (JArr (v :: l))
  = bytes "[" ++ indentation (S d) ++
    intercalate (bytes "," ++ indentation (S d)) (renderIndent (S d) <$> (v :: l)) ++
    indentation d ++ bytes "]".
Proof. reflexivity. Qed.

Lemma members_fmap d l :
  (fix members (l : list (list byte * Json)) : list (list byte) :=
     match l with
     | [] => []
     | (k, v) :: l' => (quoted k ++ bytes ": " ++ renderIndent (S d) v) :: members l'
     end) l
  = (λ '(k, v), quoted k ++ bytes ": " ++ renderIndent (S d) v) <$> l.
Proof. induction l as [|[k v] l IH]; [done|]. cbn [fmap list_fmap]. by rewrite <- IH. Qed.

Lemma renderIndent_obj d kv l :
  renderIndent d (JObj (kv :: l))
  = bytes "{" ++ indentation (S d) ++
    intercalate (bytes "," ++ indentation (S d))
      ((λ '(k, v), quoted k ++ bytes ": " ++ renderIndent (S d) v) <$> (kv :: l)) ++
    indentation d ++ bytes "}".
Proof.
  destruct kv as [k v]. cbn [renderIndent]. rewrite members_fmap. reflexivity.
Qed.

Lemma lex_idle_cons b bs :
  lex LexIdle (b :: bs) = '(ts, st') ← lexIdle b; rest ← lex st' bs; Some (ts ++ rest).
Proof. reflexivity. Qed.

Lemma lex_num_cons neg acc b bs :
  lex (LexNum neg acc) (b :: bs)
  = match digit b with
    | Some d => lex (LexNum neg (10 * acc + d)) bs
    | None => '(ts, st') ← lexIdle b; rest ← lex st' bs; Some (numToken neg acc :: ts ++ rest)
    end.
Proof. reflexivity. Qed.

Lemma lex_str_cons acc b bs :
  lex (LexStr acc) (b :: bs)
  = if bool_decide (b = quote) then rest ← lex LexIdle bs; Some (TStr (rev acc) :: rest)
    else lex (LexStr (b :: acc)) bs.
Proof. reflexivity. Qed.

(** A byte that is a token, or a space, on its own. *)
Lemma lex_single b ts bs :
  lexIdle b = Some (ts, LexIdle) →
  lex LexIdle (b :: bs) = (ts ++.) <$> lex LexIdle bs.
Proof. intros Hb. rewrite lex_idle_cons, Hb. simpl. by destruct (lex LexIdle bs). Qed.

Lemma fmap_app_nil (o : option (list Token)) : ([] ++.) <$> o = o.
Proof. by destruct o. Qed.

Lemma fmap_app_app (ts1 ts2 : list Token) (o : option (list Token)) :
  (ts1 ++.) <$> ((ts2 ++.) <$> o) = ((ts1 ++ ts2) ++.) <$> o.
Proof. destruct o; simpl; [|done]. by rewrite app_assoc. Qed.

Lemma lex_spaces n bs : lex LexIdle (concat (replicate n (bytes "  ")) ++ bs) = lex LexIdle bs.
Proof.
  induction n as [|n IH]; [done|].
  change (concat (replicate (S n) (bytes "  ")) ++ bs)
    with (Byte.x20 :: Byte.x20 :: concat (replicate n (bytes "  ")) ++ bs).
  rewrite !(lex_single _ []) by reflexivity. by rewrite !fmap_app_nil.
Qed.

Lemma lex_indentation d bs : lex LexIdle (indentation d ++ bs) = lex LexIdle bs.
Proof.
  unfold indentation. rewrite <- app_comm_cons.
  rewrite (lex_single _ []) by reflexivity. rewrite fmap_app_nil. apply lex_spaces.
Qed.

Lemma lex_string_acc acc s bs :
  quote ∉ s →
  lex (LexStr acc) (s ++ quote :: bs) = ([TStr (rev acc ++ s)] ++.) <$> lex LexIdle bs.
Proof.
  revert acc. induction s as [|b s IH]; intros acc Hs.
  - simpl app at 1. rewrite lex_str_cons, bool_decide_eq_true_2 by done.
    rewrite app_nil_r. by destruct (lex LexIdle bs).
  - rewrite <- app_comm_cons, lex_str_cons.
    rewrite bool_decide_eq_false_2 by (intros ->; apply Hs; left).
    rewrite IH by (intros Hin; apply Hs; by right).
    simpl rev. by rewrite <- app_assoc.
Qed.

Lemma lex_quoted s bs :
  quote ∉ s → lex LexIdle (quoted s ++ bs) = ([TStr s] ++.) <$> lex LexIdle bs.
Proof.
  intros Hs. unfold quoted. rewrite <- app_comm_cons, lex_idle_cons.
  change (lexIdle quote) with (Some ([] : list Token, LexStr [])). simpl.
  rewrite <- app_assoc. simpl. rewrite (lex_string_acc [] s bs Hs). simpl.
  by destruct (lex LexIdle bs).
Qed.

Lemma bytes_cons c s : bytes (String c s) = Ascii.byte_of_ascii c :: bytes s.
Proof. reflexivity. Qed.

Ltac eval_digit :=
  match goal with
  | |- context [digit ?b] =>
      let x := eval vm_compute in (digit b) in change (digit b) with x
  end.

Lemma lex_num_end neg acc bs :
  follows bs →
  lex (LexNum neg acc) bs = ([numToken neg acc] ++.) <$> lex LexIdle bs.
Proof.
  destruct bs as [|b bs]; [done|]. intros [Hdigit _].
  rewrite lex_num_cons, Hdigit, lex_idle_cons.
  destruct (lexIdle b) as [[ts st']|]; simpl; [|done].
  by destruct (lex st' bs).
Qed.

Lemma lex_digits d neg acc bs :
  follows bs →
  lex (LexNum neg acc) (bytes (NilEmpty.string_of_uint d) ++ bs)
  = ([numToken neg (horner d acc)] ++.) <$> lex LexIdle bs.
Proof.
  intros Hbs. revert acc.
  induction d as [|d IH|d IH|d IH|d IH|d IH|d IH|d IH|d IH|d IH|d IH]; intros acc;
    cbn [NilEmpty.string_of_uint horner];
    [by apply lex_num_end|..].
  all: rewrite bytes_cons, <- app_comm_cons, lex_num_cons; eval_digit; cbv iota.
  all: rewrite ?Z.add_0_r; apply IH.
Qed.

Lemma horner_acc d acc : horner d (Zpos acc) = Zpos (Pos.of_uint_acc d acc).
Proof.
  revert acc. induction d; intros acc; cbn [horner Pos.of_uint_acc]; [done|..].
  all: rewrite <- IHd; f_equal; lia.
Qed.

Lemma horner_of_uint d : horner d 0 = Z.of_N (Pos.of_uint d).
Proof.
  induction d; cbn [horner Pos.of_uint]; [done|exact IHd|..].
  all: cbn [Z.of_N]; rewrite <- horner_acc; reflexivity.
Qed.

Lemma horner_to_uint p : horner (Pos.to_uint p) 0 = Zpos p.
Proof. rewrite horner_of_uint. by rewrite DecimalPos.Unsigned.of_to. Qed.

Lemma lex_uint d neg bs :
  follows bs →
  lex (LexNum neg 0) (bytes (NilZero.string_of_uint d) ++ bs)
  = ([numToken neg (horner d 0)] ++.) <$> lex LexIdle bs.
Proof.
  intros Hbs. destruct d; [exact (lex_digits (Decimal.D0 Decimal.Nil) neg 0 bs Hbs)|..].
  all: apply lex_digits, Hbs.
Qed.

Lemma lex_idle_digit b d bs :
  lexIdle b = Some ([], LexNum false d) → digit b = Some d →
  lex LexIdle (b :: bs) = lex (LexNum false 0) (b :: bs).
Proof.
  intros Hidle Hdigit. rewrite lex_idle_cons, lex_num_cons, Hidle, Hdigit. simpl.
  replace (10 * 0 + d)%Z with d by lia.
  by destruct (lex (LexNum false d) bs).
Qed.

Lemma lex_idle_uint d bs :
  lex LexIdle (bytes (NilZero.string_of_uint d) ++ bs)
  = lex (LexNum false 0) (bytes (NilZero.string_of_uint d) ++ bs).
Proof.
  destruct d; cbn [NilZero.string_of_uint NilEmpty.string_of_uint];
    rewrite bytes_cons, <- app_comm_cons.
  1: by eapply lex_idle_digit.
  all: by eapply lex_idle_digit.
Qed.

Lemma lex_decimal z bs :
  follows bs → lex LexIdle (decimal z ++ bs) = ([TNum z] ++.) <$> lex LexIdle bs.
Proof.
  intros Hbs. unfold decimal. destruct z as [|p|p]; cbn [Z.to_int NilZero.string_of_int].
  - change Decimal.zero with (Decimal.D0 Decimal.Nil).
    rewrite lex_idle_uint, lex_uint by done. reflexivity.
  - rewrite lex_idle_uint, lex_uint by done.
    cbn [numToken]. by rewrite horner_to_uint.
  - rewrite bytes_cons, <- app_comm_cons, lex_idle_cons.
    change (lexIdle (Ascii.byte_of_ascii _)) with (Some ([] : list Token, LexNum true 0)).
    cbn [mbind option_bind].
    rewrite lex_uint by done. cbn [numToken]. rewrite horner_to_uint.
    by destruct (lex LexIdle bs).
Qed.

Lemma lex_word_cons acc b bs :
  lex (LexWord acc) (b :: bs)
  = if isLetter b then lex (LexWord (b :: acc)) bs
    else t ← wordToken acc; '(ts, st') ← lexIdle b; rest ← lex st' bs; Some (t :: ts ++ rest).
Proof. reflexivity. Qed.

Lemma lex_null bs :
  follows bs → lex LexIdle (bytes "null" ++ bs) = ([TNull] ++.) <$> lex LexIdle bs.
Proof.
  intros Hbs.
  change (bytes "null" ++ bs) with ("n"%byte :: "u"%byte :: "l"%byte :: "l"%byte :: bs).
  rewrite lex_idle_cons.
  change (lexIdle "n"%byte) with (Some ([] : list Token, LexWord ["n"%byte])).
  cbn [mbind option_bind]. rewrite !lex_word_cons.
  change (isLetter "u"%byte) with true. change (isLetter "l"%byte) with true. cbv iota.
  destruct bs as [|b bs]; [reflexivity|]. destruct Hbs as [_ Hletter].
  rewrite lex_word_cons, Hletter, lex_idle_cons.
  change (wordToken _) with (Some TNull). cbn [mbind option_bind].
  destruct (lexIdle b) as [[ts st']|]; simpl; [|done].
  by destruct (lex st' bs).
Qed.


Lemma follows_indentation d bs : follows (indentation d ++ bs).
Proof. by split. Qed.

Lemma lex_separated d parts toks rest :
  Forall2 lexesTo parts toks → follows rest →
  lex LexIdle (concat ((λ q, (bytes "," ++ indentation d) ++ q) <$> parts) ++ rest)
  = (concat ((λ q, TComma :: q) <$> toks) ++.) <$> lex LexIdle rest ∧
  follows (concat ((λ q, (bytes "," ++ indentation d) ++ q) <$> parts) ++ rest).
Proof.
  intros Hparts Hrest. induction Hparts as [|p t ps ts Hp Hps [IH Hfollows]].
  - simpl. by rewrite fmap_app_nil.
  - split; [|by split].
    cbn [fmap list_fmap concat]. rewrite <- !app_assoc.
    change (bytes "," ++ ?x) with (","%byte :: x).
    rewrite (lex_single _ [TComma]) by reflexivity.
    by rewrite lex_indentation, (Hp _ Hfollows), IH, !fmap_app_app.
Qed.

Lemma lex_intercalate d parts toks rest :
  Forall2 lexesTo parts toks → follows rest →
  lex LexIdle (intercalate (bytes "," ++ indentation d) parts ++ rest)
  = (joinTokens toks ++.) <$> lex LexIdle rest.
Proof.
  intros Hparts Hrest. destruct Hparts as [|p t ps ts Hp Hps].
  - simpl. by rewrite fmap_app_nil.
  - destruct (lex_separated d ps ts rest Hps Hrest) as [Htail Hfollows].
    cbn [intercalate joinTokens]. rewrite <- app_assoc.
    by rewrite (Hp _ Hfollows), Htail, fmap_app_app.
Qed.

Lemma good_arr l : good (JArr l) ↔ Forall good l.
Proof.
  cbn [good]. induction l as [|v l IH]; simpl.
  - split; [constructor|done].
  - rewrite Forall_cons. by rewrite IH.
Qed.

Lemma good_obj l : good (JObj l) ↔ Forall (λ kv, (quote ∉ kv.1) ∧ good kv.2) l.
Proof.
  cbn [good]. induction l as [|[k v] l IH]; simpl.
  - split; [constructor|done].
  - rewrite Forall_cons. by rewrite IH.
Qed.

Lemma lex_value j : good j → ∀ d, lexesTo (renderIndent d j) (tokens j).
Proof.
  induction j as [|z|s|l IH|l IH] using Json_induction; intros Hgood d rest Hrest.
  - by apply lex_null.
  - by apply lex_decimal.
  - by apply lex_quoted.
  - apply good_arr in Hgood. destruct l as [|v l].
    { change (renderIndent d (JArr []) ++ rest) with ("["%byte :: "]"%byte :: rest).
      rewrite (lex_single _ [TLBrack]), (lex_single _ [TRBrack]) by reflexivity.
      by rewrite fmap_app_app. }
    rewrite renderIndent_arr. cbn [tokens]. rewrite <- !app_assoc.
    change (bytes "[" ++ ?x) with ("["%byte :: x).
    rewrite (lex_single _ [TLBrack]) by reflexivity.
    rewrite lex_indentation.
    rewrite (lex_intercalate (S d) _ (tokens <$> v :: l));
      [| |apply follows_indentation].
    + rewrite lex_indentation.
      change (bytes "]" ++ rest) with ("]"%byte :: rest).
      rewrite (lex_single _ [TRBrack]) by reflexivity.
      by rewrite !fmap_app_app.
    + apply Forall2_fmap, Forall_Forall2_diag.
      rewrite Forall_forall in IH, Hgood. apply Forall_forall. intros x Hx.
      by apply IH, Hgood.
  - apply good_obj in Hgood. destruct l as [|kv l].
    { change (renderIndent d (JObj []) ++ rest) with ("{"%byte :: "}"%byte :: rest).
      rewrite (lex_single _ [TLBrace]), (lex_single _ [TRBrace]) by reflexivity.
      by rewrite fmap_app_app. }
    rewrite renderIndent_obj. cbn [tokens]. rewrite <- !app_assoc.
    change (bytes "{" ++ ?x) with ("{"%byte :: x).
    rewrite (lex_single _ [TLBrace]) by reflexivity.
    rewrite lex_indentation.
    rewrite (lex_intercalate (S d) _ ((λ '(k, v), TStr k :: TColon :: tokens v) <$> kv :: l));
      [| |apply follows_indentation].
    + rewrite lex_indentation.
      change (bytes "}" ++ rest) with ("}"%byte :: rest).
      rewrite (lex_single _ [TRBrace]) by reflexivity.
      by rewrite !fmap_app_app.
    + apply Forall2_fmap, Forall_Forall2_diag.
      rewrite Forall_forall in IH, Hgood. apply Forall_forall. intros [k v] Hkv.
      pose proof (IH _ Hkv) as Hv. destruct (Hgood _ Hkv) as [Hk Hgv].
      cbn [fst snd] in Hv, Hk, Hgv. intros rest' Hrest'.
      rewrite <- !app_assoc. rewrite (lex_quoted k _ Hk).
      change (bytes ": " ++ ?x) with (":"%byte :: " "%byte :: x).
      rewrite (lex_single _ [TColon]), (lex_single _ []) by reflexivity.
      rewrite fmap_app_nil, (Hv Hgv (S d) _ Hrest'), !fmap_app_app. done.
Qed.

(** *** Parsing the tokens of a value *)

Lemma parseValue_S fuel ts :
  parseValue (S fuel) ts
  = match ts with
    | TNull :: r => Some (JNull, r)
    | TNum z :: r => Some (JNum z, r)
    | TStr s :: r => Some (JStr s, r)
    | TLBrack :: TRBrack :: r => Some (JArr [], r)
    | TLBrack :: r => '(l, r') ← parseElements fuel r; Some (JArr l, r')
    | TLBrace :: TRBrace :: r => Some (JObj [], r)
    | TLBrace :: r => '(l, r') ← parseMembers fuel r; Some (JObj l, r')
    | _ => None
    end.
Proof. reflexivity. Qed.

Lemma parseElements_S fuel ts :
  parseElements (S fuel) ts
  = '(v, r) ← parseValue fuel ts;
    match r with
    | TComma :: r1 => '(l, r2) ← parseElements fuel r1; Some (v :: l, r2)
    | TRBrack :: r1 => Some ([v], r1)
    | _ => None
    end.
Proof. reflexivity. Qed.

Lemma parseMembers_S fuel ts :
  parseMembers (S fuel) ts
  = match ts with
    | TStr k :: TColon :: r =>
        '(v, r1) ← parseValue fuel r;
        match r1 with
        | TComma :: r2 => '(l, r3) ← parseMembers fuel r2; Some ((k, v) :: l, r3)
        | TRBrace :: r2 => Some ([(k, v)], r2)
        | _ => None
        end
    | _ => None
    end.
Proof. reflexivity. Qed.

Lemma tokens_head j : ∃ t ts, tokens j = t :: ts ∧ opens t.
Proof. destruct j; simpl; by eexists _, _. Qed.

Lemma parse_elements v l :
  parsesAs v → Forall parsesAs l →
  ∀ fuel r,
    S (weight v) + foldr (λ v n, S (weight v) + n) 0 l ≤ fuel →
    parseElements fuel
      (tokens v ++ concat ((λ q, TComma :: q) <$> (tokens <$> l)) ++ TRBrack :: r)
    = Some (v :: l, r).
Proof.
  intros Hv Hl. revert v Hv. induction Hl as [|v' l Hv' Hl IH]; intros v Hv fuel r Hfuel.
  - destruct fuel as [|fuel]; [simpl in Hfuel; lia|].
    rewrite parseElements_S. simpl in Hfuel |- *.
    rewrite Hv by lia. reflexivity.
  - destruct fuel as [|fuel]; [simpl in Hfuel; lia|].
    rewrite parseElements_S. cbn [foldr fmap list_fmap concat] in Hfuel |- *.
    rewrite <- !app_assoc, <- app_comm_cons.
    rewrite Hv by lia. cbn [mbind option_bind].
    rewrite <- ?app_assoc, IH by (done || lia). reflexivity.
Qed.

Lemma parse_members k v (l : list (list byte * Json)) :
  parsesAs v → Forall (λ kv, parsesAs kv.2) l →
  ∀ fuel r,
    S (weight v) + foldr (λ '(k, v) n, S (weight v) + n) 0 l ≤ fuel →
    parseMembers fuel
      (TStr k :: TColon :: tokens v ++
       concat ((λ q, TComma :: q) <$> ((λ '(k, v), TStr k :: TColon :: tokens v) <$> l)) ++
       TRBrace :: r)
    = Some ((k, v) :: l, r).
Proof.
  intros Hv Hl. revert k v Hv.
  induction Hl as [|[k' v'] l Hv' Hl IH]; intros k v Hv fuel r Hfuel.
  - destruct fuel as [|fuel]; [simpl in Hfuel; lia|].
    rewrite parseMembers_S. simpl in Hfuel |- *.
    rewrite Hv by lia. reflexivity.
  - destruct fuel as [|fuel]; [simpl in Hfuel; lia|].
    rewrite parseMembers_S. cbn [foldr fmap list_fmap concat] in Hfuel |- *.
    rewrite <- !app_assoc, <- !app_comm_cons.
    rewrite Hv by lia. cbn [mbind option_bind].
    rewrite <- ?app_assoc, IH by (done || lia). reflexivity.
Qed.

Lemma parse_value j : parsesAs j.
Proof.
  induction j as [|z|s|l IH|l IH] using Json_induction; intros fuel r Hfuel.
  1-3: destruct fuel as [|fuel]; [simpl in Hfuel; lia|reflexivity].
  - destruct fuel as [|fuel]; [simpl in Hfuel; lia|].
    destruct l as [|v l]; [reflexivity|].
    apply Forall_cons in IH as [Hv Hl].
    rewrite parseValue_S. cbn [tokens joinTokens fmap list_fmap].
    rewrite <- !app_comm_cons, <- !app_assoc.
    destruct (tokens_head v) as (t & ts & Hts & Hopen).
    assert (Helems : parseElements fuel
                       (tokens v ++ concat ((λ q, TComma :: q) <$> (tokens <$> l)) ++
                        TRBrack :: r) = Some (v :: l, r)).
    { apply parse_elements; [done..|]. cbn [weight foldr] in Hfuel. lia. }
    simpl app at 3. rewrite Hts in Helems |- *. rewrite <- app_comm_cons in Helems |- *.
    change ((t :: ts) ++ ?x ++ [TRBrack] ++ r) with (t :: ts ++ x ++ TRBrack :: r).
    destruct t; try done; by rewrite Helems.
  - destruct fuel as [|fuel]; [simpl in Hfuel; lia|].
    destruct l as [|[k v] l]; [reflexivity|].
    apply Forall_cons in IH as [Hv Hl].
    rewrite parseValue_S. cbn [tokens joinTokens fmap list_fmap].
    rewrite <- !app_comm_cons, <- !app_assoc.
    change ([TRBrace] ++ r) with (TRBrace :: r).
    rewrite parse_members; [reflexivity|done..|].
    cbn [weight foldr] in Hfuel. lia.
Qed.

Lemma weight_tokens j : weight j ≤ length (tokens j).
Proof.
  induction j as [|z|s|l IH|l IH] using Json_induction; [done..| |].
  - cbn [weight tokens length]. rewrite length_app. simpl length.
    destruct l as [|v l]; [simpl; lia|].
    apply Forall_cons in IH as [Hv Hl]. cbn [foldr fmap list_fmap joinTokens].
    rewrite length_app.
    assert (foldr (λ v n, S (weight v) + n) 0 l
            ≤ length (concat ((λ q, TComma :: q) <$> (tokens <$> l)))); [|lia].
    clear Hv. induction Hl as [|v' l Hv' Hl IHl]; [done|].
    cbn [foldr fmap list_fmap concat]. rewrite length_app. simpl length. lia.
  - cbn [weight tokens length]. rewrite length_app. simpl length.
    destruct l as [|[k v] l]; [simpl; lia|].
    apply Forall_cons in IH as [Hv Hl]. cbn [foldr fmap list_fmap joinTokens].
    rewrite length_app. simpl length. cbn [snd] in Hv.
    assert (foldr (λ '(k, v) n, S (weight v) + n) 0 l
            ≤ length (concat ((λ q, TComma :: q) <$>
                                ((λ '(k, v), TStr k :: TColon :: tokens v) <$> l)))); [|lia].
    clear Hv. induction Hl as [|[k' v'] l Hv' Hl IHl]; [done|].
    cbn [foldr fmap list_fmap concat]. rewrite length_app. simpl length.
    cbn [snd] in Hv'. lia.
Qed.

(** The parser reads back what the indenting encoder wrote. *)
Lemma parse_renderIndent j : good j → parse (renderIndent 0 j) = Some j.
Proof.
  intros Hgood. unfold parse.
  pose proof (lex_value j Hgood 0 [] I) as Hlex. rewrite app_nil_r in Hlex.
  rewrite Hlex. cbn [lex fmap option_fmap option_map mbind option_bind]. rewrite app_nil_r.
  pose proof (parse_value j (S (length (tokens j))) []) as Hparse.
  rewrite app_nil_r in Hparse. rewrite Hparse; [done|].
  pose proof (weight_tokens j). lia.
Qed.

(** *** States *)

Lemma plain_quote name : plain name → quote ∉ bytes name.
Proof.
  intros Hplain Hin. unfold plain in Hplain. rewrite Forall_forall in Hplain.
  by specialize (Hplain _ Hin).
Qed.

Lemma good_nums l : good (JArr (JNum <$> l)).
Proof. apply good_arr, Forall_fmap, Forall_true. done. Qed.

Lemma good_teamInfoJson info : good (teamInfoJson info).
Proof.
  apply good_obj. repeat constructor; simpl.
  1,3: apply (bool_decide_unpack _); vm_compute; exact I.
  apply good_nums.
Qed.

Lemma stateJson_teams s h :
  stateJson s h
  = JObj [ (bytes "gameState", JStr (bytes (gameStateName (GameState s))));
           (bytes "gameStateForTeam",
              match GameStateFor s with
              | Some team => JStr (bytes team)
              | None => JNull
              end);
           (bytes "stageTimeElapsed", JNum (StageTimeElapsed s));
           (bytes "stageTimeLeft", JNum (StageTimeLeft s));
           (bytes "matchDuration", JNum (MatchDuration s));
           (bytes "teamState", JObj (teamEntry h <$> map_to_list (TeamState s))) ].
Proof. reflexivity. Qed.

Lemma good_stateJson s h : encodable s h → good (stateJson s h).
Proof.
  intros (_ & Hmode & Hfor & Hteams). rewrite stateJson_teams.
  apply good_obj. repeat constructor; cbn [fst snd].
  all: try (apply (bool_decide_unpack _); vm_compute; exact I).
  - by apply plain_quote.
  - destruct (GameStateFor s) as [team|]; [|done]. by apply plain_quote, Hfor.
  - apply good_obj, Forall_fmap, Forall_forall. intros [team p] Hin.
    apply elem_of_map_to_list in Hin. destruct (Hteams _ _ Hin) as [Hplain [info Hp]].
    unfold teamEntry. cbn [fst snd compose]. rewrite Hp.
    split; [by apply plain_quote|apply good_teamInfoJson].
Qed.

Lemma bytes_inj k k' : bytes k = bytes k' → k = k'.
Proof.
  intros Heq. apply (f_equal String.string_of_list_byte) in Heq.
  unfold bytes in Heq. by rewrite !String.string_of_list_byte_of_string in Heq.
Qed.

Lemma field_cons k k' v l :
  field k ((bytes k', v) :: l) = if bool_decide (k' = k) then Some v else field k l.
Proof.
  unfold field. cbn [list_find]. cbn [fst].
  destruct (decide (bytes k' = bytes k)) as [Heq|Hne].
  - apply bytes_inj in Heq. by rewrite bool_decide_eq_true_2.
  - rewrite bool_decide_eq_false_2 by (by intros ->).
    by destruct (list_find _ l) as [[i kv]|].
Qed.

Ltac eval_names :=
  repeat match goal with
  | |- context [bool_decide (?a = ?b)] =>
      let v := eval vm_compute in (bool_decide (a = b)) in
      change (bool_decide (a = b)) with v
  end.

Lemma asNums_nums l : asNums (JArr (JNum <$> l)) = Some l.
Proof.
  cbn [asNums]. induction l as [|z l IH]; [done|].
  cbn [fmap list_fmap mapM asNum mbind option_bind]. by rewrite IH.
Qed.

Lemma teamInfoOfJson_teamInfoJson info : teamInfoOfJson (teamInfoJson info) = Some info.
Proof.
  unfold teamInfoOfJson, teamInfoJson.
  rewrite !field_cons. eval_names.
  cbn [mbind option_bind]. rewrite asNums_nums. by destruct info.
Qed.

Lemma decodeTeam_entry m h0 h team p info :
  h !! p = Some info →
  decodeTeam (Some (m, h0)) (teamEntry h (team, p))
  = Some (<[team := fresh (dom h0)]> m, <[fresh (dom h0) := info]> h0).
Proof.
  intros Hp. unfold decodeTeam, teamEntry. cbn [fst snd mbind option_bind].
  rewrite Hp, teamInfoOfJson_teamInfoJson. cbn [mbind option_bind].
  unfold bytes. by rewrite String.string_of_list_byte_of_string.
Qed.

(** Decoding the teams of a state over a map [m0] and a store [h0]: every
    team gets a fresh object holding what its object held, the other entries
    of [m0] and the objects of [h0] are kept. *)
Lemma decode_teams (h : gmap positive TeamInfo) (L : list (string * positive)) :
  NoDup L.*1 →
  (∀ team p, (team, p) ∈ L → is_Some (h !! p)) →
  ∀ m0 h0, ∃ m h1,
    foldl decodeTeam (Some (m0, h0)) (teamEntry h <$> L) = Some (m, h1) ∧
    (∀ team, team ∉ L.*1 → m !! team = m0 !! team) ∧
    (∀ team p, (team, p) ∈ L → ∃ q, m !! team = Some q ∧ h1 !! q = h !! p) ∧
    (∀ q, is_Some (h0 !! q) → h1 !! q = h0 !! q).
Proof.
  induction L as [|[team p] L IH]; intros Hnd Halloc m0 h0.
  { exists m0, h0. split; [done|]. split; [done|]. split; [|done].
    intros team p Hin. by apply elem_of_nil in Hin. }
  apply NoDup_cons in Hnd as [Hteam Hnd]. cbn [fst] in Hteam.
  destruct (Halloc team p) as [info Hp]; [left|].
  set (q := fresh (dom h0)).
  assert (Hq : h0 !! q = None) by (apply not_elem_of_dom, is_fresh).
  destruct (IH Hnd (λ t p' Hin, Halloc t p' (list_elem_of_further _ _ _ Hin))
              (<[team := q]> m0) (<[q := info]> h0))
    as (m & h1 & Hfold & Hout & Hin & Hkept).
  exists m, h1. split.
  { cbn [fmap list_fmap foldl]. by rewrite (decodeTeam_entry _ _ _ _ _ _ Hp). }
  split; [|split].
  - intros team' Hnot. apply not_elem_of_cons in Hnot as [Hne Hnot].
    rewrite (Hout _ Hnot). by rewrite lookup_insert_ne.
  - intros team' p' Hel. apply elem_of_cons in Hel as [[= -> ->]|Hel].
    + exists q. rewrite (Hout team Hteam), lookup_insert_eq. split; [done|].
      rewrite Hkept by (rewrite lookup_insert_eq; eauto).
      by rewrite lookup_insert_eq.
    + by apply Hin.
  - intros q' Hq'. rewrite Hkept.
    + apply lookup_insert_ne. intros <-. rewrite Hq in Hq'. by destruct Hq'.
    + destruct (decide (q' = q)) as [->|Hne];
        [rewrite lookup_insert_eq|rewrite lookup_insert_ne]; eauto.
Qed.

(** The decoder reads a state back from what the encoder made of it: over
    any state [s0] whose teams are teams of [s], and any store, it yields a
    state that shows what [s] showed. *)
Lemma stateOfJson_stateJson s h s0 h0 :
  encodable s h →
  dom (TeamState s0) ⊆ dom (TeamState s) →
  ∃ s' h',
    stateOfJson (stateJson s h) s0 h0 = Some (s', h') ∧
    deep s' h' = deep s h.
Proof.
  intros (Hmode & _ & _ & Hteams) Hdom.
  destruct (decode_teams h (map_to_list (TeamState s)) (NoDup_fst_map_to_list _)
              (λ team p Hin, proj2 (Hteams team p (proj1 (elem_of_map_to_list _ _ _) Hin)))
              (TeamState s0) h0)
    as (m & h1 & Hfold & Hout & Hin & _).
  exists {| GameState := GameState s; GameStateFor := GameStateFor s;
            StageTimeElapsed := StageTimeElapsed s; StageTimeLeft := StageTimeLeft s;
            MatchDuration := MatchDuration s; TeamState := m |}, h1.
  split.
  - rewrite stateJson_teams. unfold stateOfJson.
    rewrite !field_cons. eval_names.
    cbn [mbind option_bind asNum]. rewrite Hfold. cbn [mbind option_bind].
    unfold bytes at 1. rewrite String.string_of_list_byte_of_string, Hmode.
    destruct (GameStateFor s) as [team|]; cbn [mbind option_bind]; [|reflexivity].
    unfold bytes. rewrite String.string_of_list_byte_of_string. reflexivity.
  - unfold deep. cbn [GameState GameStateFor StageTimeElapsed StageTimeLeft
                        MatchDuration TeamState]. f_equal.
    unfold deepTeams. cbn [TeamState]. apply map_eq. intros team.
    rewrite !lookup_fmap.
    destruct (TeamState s !! team) as [p|] eqn:Hp.
    + destruct (Hin team p) as (q & Hq & Hobj); [by apply elem_of_map_to_list|].
      rewrite Hq. simpl. by rewrite Hobj.
    + rewrite Hout.
      * assert (TeamState s0 !! team = None) as ->; [|done].
        apply not_elem_of_dom. intros Hel. apply Hdom in Hel.
        by apply not_elem_of_dom in Hp.
      * intros Hel. apply list_elem_of_fmap in Hel as ([t p] & -> & Hel).
        apply elem_of_map_to_list in Hel. simpl in Hp. congruence.
Qed.

Lemma renderIndent_stateJson_nonempty s h :
  0 < length (Json.renderIndent 0 (Json.stateJson s h)).
Proof.
  rewrite stateJson_teams, renderIndent_obj, length_app. simpl. lia.
Qed.

(** The modelled codec reads back what it wrote: decoding the indented
    encoding of a state over a state that has no team of its own yields a
    state that shows, field for field, what the encoded one showed. *)
Lemma Unmarshal_MarshalIndent s h s0 h0 :
  Json.encodable s h →
  dom (TeamState s0) ⊆ dom (TeamState s) →
  ∃ js s' h',
    @MarshalIndent sampleCollaborators s h = Some js ∧
    0 < length js ∧
    @Unmarshal sampleCollaborators js s0 h0 = Some (s', h') ∧
    deep s' h' = deep s h.
Proof.
  intros Henc Hdom.
  destruct (stateOfJson_stateJson s h s0 h0 Henc Hdom) as (s' & h' & Hdec & Hdeep).
  exists (Json.renderIndent 0 (Json.stateJson s h)), s', h'.
  split; [reflexivity|]. split; [apply renderIndent_stateJson_nonempty|].
  split; [|exact Hdeep].
  cbn [Unmarshal sampleCollaborators].
  rewrite (parse_renderIndent _ (good_stateJson _ _ Henc)). exact Hdec.
Qed.

Lemma encodable_checked s h :
  Json.gameStateOfName (Json.gameStateName (GameState s)) = GameState s →
  Json.plain (Json.gameStateName (GameState s)) →
  from_option Json.plain True (GameStateFor s) →
  map_Forall (λ team p, Json.plain team ∧ is_Some (h !! p)) (TeamState s) →
  Json.encodable s h.
Proof.
  intros Hmode Hname Hfor Hteams. split; [done|]. split; [done|]. split.
  - intros team Heq. by rewrite Heq in Hfor.
  - intros team p Hteam. exact (Hteams team p Hteam).
Qed.

End CodecRoundTrip.


(** * The theorems at work on the sample worlds *)

#[local] Instance from_option_dec {A} (P : A → Prop) (Q : Prop) `{∀ a, Decision (P a)}
    `{Decision Q} (o : option A) : Decision (from_option P Q o).
Proof. destruct o; simpl; apply _. Defined.

Lemma NoDup_teamPointers_unshared s : NoDup (teamPointers s) → teamsUnshared s.
Proof.
  unfold teamPointers. intros Hnd t1 t2 p H1 H2.
  apply elem_of_map_to_list, list_elem_of_lookup in H1 as [i Hi].
  apply elem_of_map_to_list, list_elem_of_lookup in H2 as [j Hj].
  assert (i = j) as ->.
  { eapply NoDup_lookup; [exact Hnd| |].
    - by rewrite list_lookup_fmap, Hi.
    - by rewrite list_lookup_fmap, Hj. }
  congruence.
Qed.

Lemma sample_allocated mode team : teamsAllocated (Sample.state mode team) Sample.store.
Proof. apply (bool_decide_unpack _). vm_compute. exact I. Defined.

Lemma sample_unshared mode team : teamsUnshared (Sample.state mode team).
Proof.
  apply NoDup_teamPointers_unshared. apply (bool_decide_unpack _). vm_compute. exact I.
Defined.

(** Undo on the history [S0; S1; S2]. *)
Lemma undo_last_action_witness :
  ctrls Sample.afterTwoCommits !! RefBox = Some (Sample.controller Sample.S2 [Sample.S0; Sample.S1; Sample.S2]) ∧
  ∃ w' c',
    UndoLastAction RefBox Sample.afterTwoCommits = Ok tt w' ∧ ctrls w' !! RefBox = Some c' ∧
    State c' = Sample.S1 ∧ StateHistory c' = [Sample.S0].
Proof.
  split; [reflexivity|].
  exact (proj2 (proj2 (undo_last_action RefBox _ Sample.afterTwoCommits eq_refl))
           Sample.S0 Sample.S1 Sample.S2 eq_refl).
Defined.

(** One second of play: ten minutes left become 599 seconds. *)
Lemma tick_running_stage_times_witness :
  ∃ w' c',
    Tick RefBox Duration.Second 5 Sample.inPlay = Ok tt w' ∧ ctrls w' !! RefBox = Some c' ∧
    StageTimeElapsed (State c') = Duration.Second ∧
    StageTimeLeft (State c') = (599 * Duration.Second)%Z.
Proof.
  destruct (tick_running_stage_times RefBox (Sample.controller Sample.S1 []) Duration.Second 5 Sample.inPlay
              eq_refl eq_refl (sample_allocated _ _))
    as (w' & c' & Htick & Hc' & Hel & Hleft & _).
  exists w', c'. split; [exact Htick|]. split; [exact Hc'|].
  split; [exact Hel|exact Hleft].
Defined.

(** One second of play: the card with one second left goes, the other has
    119 seconds left. *)
Lemma tick_running_cards_witness :
  ∃ w' info',
    Tick RefBox Duration.Second 5 Sample.inPlay = Ok tt w' ∧
    teams w' !! 1%positive = Some info' ∧
    YellowCardTimes info' = [119 * Duration.Second]%Z.
Proof.
  destruct (tick_running_cards RefBox (Sample.controller Sample.S1 []) Duration.Second 5
              "Yellow" 1%positive Sample.yellow Sample.inPlay
              eq_refl eq_refl (sample_allocated _ _) (sample_unshared _ _) eq_refl eq_refl)
    as (w' & c' & info' & Htick & _ & _ & Hinfo & Hcards & _).
  exists w', info'. split; [exact Htick|]. split; [exact Hinfo|exact Hcards].
Defined.

(** One second of Yellow's timeout: only Yellow's remaining timeout moves. *)
Lemma tick_timeout_decrement_witness :
  ∃ w',
    Tick RefBox Duration.Second 5 Sample.inTimeout = Ok tt w' ∧
    teams w' !! 1%positive
    = Some {| YellowCardTimes := YellowCardTimes Sample.yellow;
              TimeoutTimeLeft := (299 * Duration.Second)%Z |} ∧
    teams w' !! 2%positive = Some Sample.blue.
Proof.
  destruct (proj1 (tick_timeout_decrement RefBox (Sample.controller Sample.S2 [])
                     Duration.Second 5 Sample.inTimeout eq_refl)
              "Yellow" 1%positive Sample.yellow eq_refl eq_refl eq_refl eq_refl)
    as (w' & c' & Htick & _ & _ & Hp & _ & Hother & _).
  exists w'. split; [exact Htick|]. split; [exact Hp|].
  rewrite (Hother 2%positive); [reflexivity|discriminate].
Defined.

(** A tick while Halted, match not started: nothing changes.  A tick in
    play: an entry of the HistoryLog whose team has an object of its own
    shows what it showed. *)
Lemma tick_idle_frame_witness :
  Tick RefBox Duration.Second 5 Sample.whileHalted = Ok tt Sample.whileHalted ∧
  deep Further.ownEntry (teams (outcomeWorld (Tick RefBox Duration.Second 5 Further.detached)))
  = deep Further.ownEntry (teams Further.detached).
Proof.
  split.
  - refine (proj2 (proj1 (tick_idle_frame RefBox Duration.Second 5 Sample.whileHalted)
                     (Sample.controller Sample.S0 [Sample.S0]) eq_refl _ _) eq_refl);
      discriminate.
  - apply (proj1 (proj2 (proj2 (proj2 (proj2 (tick_idle_frame RefBox Duration.Second 5
                                                Further.detached)))
                          (Sample.controller Sample.S1 [Further.ownEntry]) eq_refl))).
    intros team p Hteam.
    cbv [Further.ownEntry TeamState] in Hteam.
    apply lookup_singleton_Some in Hteam as [_ <-].
    apply (bool_decide_unpack _). vm_compute. exact I.
Defined.

(** A commit in play, then a second of play: the HistoryLog still holds the
    entry that the commit appended, and what the entry shows of the teams is
    no longer what it showed when it was appended. *)
Lemma tick_changes_history_entry :
  ∃ w1 w2 e,
    SaveStateHistory RefBox Sample.inPlay = Ok tt w1 ∧
    StateHistory <$> ctrls w1 !! RefBox = Some [e] ∧
    Tick RefBox Duration.Second 5 w1 = Ok tt w2 ∧
    StateHistory <$> ctrls w2 !! RefBox = Some [e] ∧
    dTeamState (deep e (teams w1)) !! "Yellow" = Some (Some Sample.yellow) ∧
    dTeamState (deep e (teams w2)) !! "Yellow"
    = Some (Some {| YellowCardTimes := [119 * Duration.Second]%Z;
                    TimeoutTimeLeft := TimeoutTimeLeft Sample.yellow |}) ∧
    deep e (teams w2) ≠ deep e (teams w1).
Proof.
  exists (outcomeWorld (SaveStateHistory RefBox Sample.inPlay)),
         (outcomeWorld (Tick RefBox Duration.Second 5
                          (outcomeWorld (SaveStateHistory RefBox Sample.inPlay)))),
         Sample.S1.
  do 4 (split; [reflexivity|]). do 2 (split; [vm_compute; reflexivity|]).
  intros Heq. apply (f_equal (λ d, dTeamState d !! "Yellow")) in Heq.
  vm_compute in Heq. discriminate.
Qed.

(** A timeout for a team that has no entry in [TeamState]: the tick panics. *)
Lemma tick_timeout_unguarded_witness :
  Tick RefBox Duration.Second 5 Sample.strayTimeout = Panic Sample.strayTimeout.
Proof.
  exact (proj1 (tick_timeout_unguarded RefBox
                  (Sample.controller (Sample.state GameStateTimeout (Some "Green")) [])
                  "Green" Duration.Second 5 Sample.strayTimeout eq_refl eq_refl eq_refl) eq_refl).
Defined.

(** A start command while Halted: committed, then published. *)
Lemma on_new_event_commit_witness :
  ∃ w',
    @OnNewEvent sampleCollaborators RefBox Sample.startEvent Sample.whileHalted = Ok tt w' ∧
    StateHistory <$> ctrls w' !! RefBox = Some [Sample.S0; Sample.S1] ∧
    trace w'
    = [EvTruncate 1%positive 0;
       EvWriteAt 1%positive (Json.renderIndent 0 (Json.stateJson Sample.S1 Sample.store)) 0;
       EvSync 1%positive;
       EvWrite 2%positive (Json.render (Json.stateJson Sample.S1 Sample.store));
       EvWrite 2%positive newline;
       EvSync 2%positive;
       EvApiPublishState RefBox Sample.S1;
       @EvPublish sampleCollaborators RefBox Sample.S1 (Some "start")].
Proof.
  eexists. split.
  - refine (proj2 (proj2 (@on_new_event_commit sampleCollaborators RefBox (Sample.controller Sample.S0 [Sample.S0])
                            (Sample.controller Sample.S0 [Sample.S0])
                            Sample.startEvent Sample.whileHalted eq_refl eq_refl))
              Sample.startEvent Sample.S1 Sample.store "start" 1%positive 2%positive
              {| content := []; offset := 0 |} {| content := []; offset := 0 |}
              _ _ eq_refl eq_refl eq_refl eq_refl _ eq_refl eq_refl eq_refl eq_refl);
      discriminate.
  - split; reflexivity.
Defined.

(** A yellow card while in play is accepted and published, and nothing is
    written: no snapshot, no audit record, no HistoryLog entry. *)
Lemma card_event_published_uncommitted :
  ∃ event' h' w',
    @processEvent sampleCollaborators Sample.cardEvent Sample.S1 Sample.store
    = Accepted event' Sample.S1 h' ∧
    h' !! 1%positive
    = Some {| YellowCardTimes := YellowCardTimes Sample.yellow ++ [120 * Duration.Second]%Z;
              TimeoutTimeLeft := TimeoutTimeLeft Sample.yellow |} ∧
    @Command sampleCollaborators event' = None ∧
    @OnNewEvent sampleCollaborators RefBox Sample.cardEvent Sample.inPlay = Ok tt w' ∧
    teams w' = h' ∧
    trace w' = [EvApiPublishState RefBox Sample.S1; EvPublish RefBox Sample.S1 None] ∧
    files w' = files Sample.inPlay ∧
    StateHistory <$> ctrls w' !! RefBox = Some [].
Proof.
  eexists _, _, _.
  split; [reflexivity|]. split; [reflexivity|]. split; [reflexivity|].
  split; [reflexivity|]. split; [reflexivity|]. split; [reflexivity|].
  split; reflexivity.
Defined.

Lemma sample_snapshot_fits : 0 < length Sample.snapshot < bufSize.
Proof. split; apply Nat.ltb_lt; vm_compute; reflexivity. Defined.

Lemma sample_snapshot_decodes s0 :
  TeamState s0 = TeamState Sample.S0 →
  @Unmarshal sampleCollaborators Sample.snapshot s0 Sample.store = Some Sample.decoded.
Proof. intros Hteams. destruct s0. simpl in Hteams. subst. vm_compute. reflexivity. Defined.

Lemma sample_decoded_deep :
  deep Sample.decoded.1 Sample.decoded.2 = deep Sample.S1 Sample.store.
Proof. vm_compute. reflexivity. Defined.


Lemma sample_encodable : Json.encodable Sample.S1 Sample.store.
Proof.
  apply encodable_checked; [reflexivity|..].
  all: apply (bool_decide_unpack _); vm_compute; exact I.
Defined.



(** Recovery called on the second controller reads that controller's file
    and replaces the singleton's state; the second controller keeps its
    own. *)
Lemma publish_and_recovery_use_singleton_witness :
  ∃ w',
    readLastState Sample.other (Sample.twoControllers Sample.S0 Sample.snapshot) = Ok tt w' ∧
    ctrls w' !! RefBox = Some (withState (Sample.controller Sample.S0 []) Sample.decoded.1) ∧
    ctrls w' !! Sample.other = Some Sample.otherController.
Proof.
  destruct (proj2 (proj2 (publish_and_recovery_use_singleton Sample.other
                            Sample.otherController (Sample.controller Sample.S0 [])
                            (Sample.twoControllers Sample.S0 Sample.snapshot)
                            eq_refl eq_refl))
              3%positive {| content := Sample.snapshot; offset := 0 |}
              Sample.decoded.1 Sample.decoded.2 eq_refl eq_refl
              sample_snapshot_fits (sample_snapshot_decodes Sample.S0 eq_refl))
    as (w' & Hread & Hg & Hother & _).
  exists w'. split; [exact Hread|]. split; [exact Hg|].
  apply Hother. discriminate.
Defined.

(** ** The scenarios of the specification *)

Example five_seconds_of_play :
  Sample.reading (runLoop RefBox (Sample.seconds 5) Sample.oneCard)
  = (Some (5 * Duration.Second, 595 * Duration.Second)%Z, Some [115 * Duration.Second]%Z).
Proof. vm_compute. reflexivity. Qed.

Example card_last_second :
  Sample.reading (runLoop RefBox (Sample.seconds 119) Sample.oneCard)
  = (Some (119 * Duration.Second, 481 * Duration.Second)%Z, Some [1 * Duration.Second]%Z).
Proof. vm_compute. reflexivity. Qed.

Example card_expired :
  Sample.reading (runLoop RefBox (Sample.seconds 120) Sample.oneCard)
  = (Some (120 * Duration.Second, 480 * Duration.Second)%Z, Some []) ∧
  Sample.reading (runLoop RefBox (Sample.seconds 125) Sample.oneCard)
  = (Some (125 * Duration.Second, 475 * Duration.Second)%Z, Some []).
Proof. split; vm_compute; reflexivity. Qed.

Example undo_with_one_entry :
  UndoLastAction RefBox Sample.whileHalted = Ok tt Sample.whileHalted.
Proof. reflexivity. Qed.

(** The entries of the HistoryLog are copies of the [State] struct: they hold
    the same pointers as the current state.  A tick in play leaves the
    HistoryLog as it is, and yet the cards seen through its entry have
    moved with the current ones. *)
Example history_entry_shares_objects :
  ∃ w',
    Tick RefBox Duration.Second 5 Sample.afterCommit = Ok tt w' ∧
    StateHistory <$> ctrls w' !! RefBox = Some [Sample.S1] ∧
    dTeamState (deep Sample.S1 (teams Sample.afterCommit)) !! "Yellow"
    = Some (Some Sample.yellow) ∧
    dTeamState (deep Sample.S1 (teams w')) !! "Yellow"
    = Some (Some {| YellowCardTimes := [119 * Duration.Second]%Z;
                    TimeoutTimeLeft := TimeoutTimeLeft Sample.yellow |}).
Proof.
  eexists. split; [reflexivity|]. split; [reflexivity|].
  split; vm_compute; reflexivity.
Qed.

(** The remaining stage time is not clamped: a second after the stage has
    run out it is minus one second. *)
Example stage_time_left_goes_negative :
  Sample.reading
    (Tick RefBox Duration.Second 0
       {| ctrls := {[ RefBox := Sample.controller
                                  {| GameState := GameStateRunning; GameStateFor := None;
                                     StageTimeElapsed := (300 * Duration.Second)%Z;
                                     StageTimeLeft := 0; MatchDuration := 0;
                                     TeamState := ∅ |} [] ]};
          teams := ∅; files := ∅; trace := [] |})
  = (Some (301 * Duration.Second, - Duration.Second)%Z, None).
Proof. vm_compute. reflexivity. Qed.

(** * The further properties at work *)

(** The audit record of [S1] appended to the empty audit log. *)
Lemma save_state_history_appends_witness :
  ∃ w',
    SaveStateHistory RefBox Sample.inPlay = Ok tt w' ∧
    StateHistory <$> ctrls w' !! RefBox = Some [Sample.S1] ∧
    content <$> files w' !! 2%positive
    = Some (Json.render (Json.stateJson Sample.S1 Sample.store) ++ newline).
Proof.
  destruct (save_state_history_appends RefBox (Sample.controller Sample.S1 []) Sample.inPlay
              eq_refl) as (w' & Hsave & Hctrls & _ & _ & Hfile & _).
  destruct (Hfile 2%positive {| content := []; offset := 0 |}
              (Json.render (Json.stateJson Sample.S1 Sample.store)) eq_refl eq_refl eq_refl)
    as [Hcontent _].
  exists w'. split; [exact Hsave|]. split.
  - rewrite Hctrls. reflexivity.
  - rewrite Hcontent. reflexivity.
Defined.

(** A snapshot twice as long as the new one is replaced, not overlaid. *)
Lemma save_latest_state_overwrites_witness :
  ∃ w1 w2,
    SaveLatestState RefBox Further.staleSnapshot = Ok tt w1 ∧
    content <$> files w1 !! 1%positive = Some Sample.snapshot ∧
    SaveLatestState RefBox w1 = Ok tt w2 ∧
    files w2 = files w1.
Proof.
  destruct (save_latest_state_overwrites RefBox (Sample.controller Sample.S1 []) 1%positive
              {| content := Sample.snapshot ++ Sample.snapshot; offset := 0 |}
              Sample.snapshot Further.staleSnapshot eq_refl eq_refl eq_refl eq_refl)
    as (w1 & w2 & Hsave1 & Hfiles & Hsave2 & Hsame).
  exists w1, w2. split; [exact Hsave1|]. split; [|split; [exact Hsave2|exact Hsame]].
  rewrite Hfiles. reflexivity.
Defined.

(** Two undos after four commits: back to the first committed state, the
    history empty. *)
Lemma undo_times_witness :
  ∃ w' c',
    undoTimes 2 RefBox Further.afterFourCommits = Ok tt w' ∧
    ctrls w' !! RefBox = Some c' ∧ State c' = Sample.S0 ∧ StateHistory c' = [].
Proof.
  destruct (undo_times RefBox
              (Sample.controller Sample.S1 [Sample.S0; Sample.S1; Sample.S2; Sample.S1])
              2 [] Sample.S0 [Sample.S1; Sample.S2; Sample.S1] Further.afterFourCommits
              eq_refl (Nat.lt_0_succ 1) eq_refl eq_refl)
    as (w' & c' & Hundo & Hc' & Hstate & Hhist & _).
  exists w', c'. repeat split; assumption.
Defined.

(** The first commit cannot be undone. *)
Lemma commit_then_undo_witness :
  ∃ w1,
    SaveStateHistory RefBox Sample.inPlay = Ok tt w1 ∧
    UndoLastAction RefBox w1 = Ok tt w1.
Proof.
  destruct (commit_then_undo RefBox (Sample.controller Sample.S1 []) Sample.inPlay eq_refl)
    as (w1 & Hsave & Hfirst & _).
  exists w1. split; [exact Hsave|exact (Hfirst eq_refl)].
Defined.

Lemma sample_cards_within : cardsWithin (2 * Duration.Second) Sample.S1 Sample.store.
Proof.
  apply cardsWithin_checked.
  apply (bool_decide_unpack _). vm_compute. exact I.
Defined.

(** Two ticks of one second are one tick of two seconds. *)
Lemma ticks_compose_witness :
  (Tick RefBox Duration.Second 3 ;; Tick RefBox Duration.Second 5) Sample.inPlay
  = Tick RefBox (2 * Duration.Second) 5 Sample.inPlay.
Proof.
  exact (ticks_compose RefBox (Sample.controller Sample.S1 []) Duration.Second Duration.Second
           3 5 Sample.inPlay eq_refl eq_refl (sample_allocated _ _) (sample_unshared _ _)
           ltac:(discriminate) ltac:(discriminate) sample_cards_within).
Defined.

(** After a second of play Yellow's cards are positive and no more than
    before. *)
Lemma tick_cards_positive_witness :
  ∃ w' info',
    Tick RefBox Duration.Second 5 Sample.inPlay = Ok tt w' ∧
    teams w' !! 1%positive = Some info' ∧
    Forall (λ x, 0 < x)%Z (YellowCardTimes info') ∧
    length (YellowCardTimes info') ≤ 2.
Proof.
  destruct (tick_cards_positive RefBox (Sample.controller Sample.S1 []) Duration.Second 5
              "Yellow" 1%positive Sample.yellow Sample.inPlay
              eq_refl eq_refl (sample_allocated _ _) eq_refl eq_refl)
    as (w' & info' & Htick & Hinfo & Hpos & Hlen & _).
  exists w', info'. repeat split; assumption.
Defined.

Lemma stray_not_allocated : ¬ teamsAllocated Further.strayState Sample.store.
Proof. intros Hal. by destruct (Hal "Green" 9%positive eq_refl). Defined.

(** A team pointing to no object: the tick panics, the stage times moved. *)
Lemma tick_running_returns_iff_allocated_witness :
  ∃ w' c',
    Tick RefBox Duration.Second 5 Further.strayPointer = Panic w' ∧
    ctrls w' !! RefBox = Some c' ∧
    StageTimeElapsed (State c') = Duration.Second ∧
    StageTimeLeft (State c') = (599 * Duration.Second)%Z.
Proof.
  destruct (proj2 (tick_running_returns_iff_allocated RefBox
                     (Sample.controller Further.strayState []) Duration.Second 5
                     Further.strayPointer eq_refl eq_refl) stray_not_allocated)
    as (w' & c' & Htick & Hc' & Hel & Hleft & _).
  exists w', c'. repeat split; assumption.
Defined.

(** Two thousand seconds after the epoch, a match started at a thousand has
    lasted a thousand, whatever the delta. *)
Lemma tick_match_duration_witness :
  ∃ c',
    ctrls (outcomeWorld (Tick RefBox 7 (2000 * Duration.Second) Further.started)) !! RefBox
    = Some c' ∧
    MatchDuration (State c') = (1000 * Duration.Second)%Z.
Proof.
  destruct (tick_match_duration RefBox Further.startedController 7 (2000 * Duration.Second)
              Further.started
              (outcomeWorld (Tick RefBox 7 (2000 * Duration.Second) Further.started))
              eq_refl eq_refl)
    as (c' & Hc' & _ & Hdur & _).
  exists c'. split; [exact Hc'|exact Hdur].
Defined.

(** A second recovery finds the snapshot consumed. *)
Lemma read_last_state_twice_witness :
  ∃ w1,
    readLastState RefBox Sample.atStartup = Ok tt w1 ∧
    readLastState RefBox w1 = Ok tt w1.
Proof.
  destruct (read_last_state_twice RefBox (Sample.controller Sample.S0 [])
              (Sample.controller Sample.S0 []) 1%positive
              {| content := Sample.snapshot; offset := 0 |}
              Sample.decoded.1 Sample.decoded.2 Sample.atStartup
              eq_refl eq_refl eq_refl eq_refl sample_snapshot_fits
              (sample_snapshot_decodes Sample.S0 eq_refl))
    as (w1 & Hread & _ & Hagain).
  exists w1. split; [exact Hread|exact Hagain].
Defined.

(** A publish with a command before the files are open. *)
Lemma publish_unopened_snapshot_fatal_witness :
  @Publish sampleCollaborators RefBox (Some "start") Further.unopened
  = Fatal {| ctrls := ctrls Further.unopened; teams := teams Further.unopened;
             files := ∅;
             trace := [EvLog "Can not truncate last state file "] |}.
Proof.
  exact (@publish_unopened_snapshot_fatal sampleCollaborators RefBox Further.unopenedController
           "start" Further.unopened eq_refl (mk_is_Some _ _ eq_refl) eq_refl).
Defined.

(** A publish with a command when the encoder fails. *)
Lemma publish_unencodable_state_witness :
  ∃ w',
    @Publish brokenCollaborators RefBox (Some "start") Further.unencodable = Ok tt w' ∧
    files w' = files Further.unencodable ∧
    StateHistory <$> ctrls w' !! RefBox = Some [Sample.S1].
Proof.
  eexists. split.
  - exact (@publish_unencodable_state brokenCollaborators RefBox
             (Sample.controller Sample.S1 []) (Sample.controller Sample.S1 []) "start"
             Further.unencodable eq_refl eq_refl eq_refl eq_refl).
  - split; reflexivity.
Defined.

(** Yellow first or Blue first: the same world. *)
Lemma card_loop_order_witness :
  forEach (λ p, reduceYellowCardTimes p Duration.Second ;; removeElapsedYellowCards p)
    [1%positive; 2%positive] Sample.inPlay
  = forEach (λ p, reduceYellowCardTimes p Duration.Second ;; removeElapsedYellowCards p)
      [2%positive; 1%positive] Sample.inPlay.
Proof.
  apply card_loop_order.
  - apply perm_swap.
  - repeat constructor; by eexists.
Defined.

(** The sample stage table. *)
Lemma load_stages_table_witness :
  sampleLoadStages sampleConfig !! "Second Half" = Some (300 * Duration.Second)%Z ∧
  sampleLoadStages sampleConfig !! "Shootout" = Some 0%Z.
Proof.
  destruct (load_stages_table "First Half" "Half Time" "Second Half" "Overtime Break"
              "Overtime First Half" "Overtime Half Time" "Overtime Second Half"
              "Shootout Break" sampleStages sampleConfig (sampleLoadStages sampleConfig)
              eq_refl)
    as (_ & Hzero & Hnamed & _).
  { apply (bool_decide_unpack _). vm_compute. exact I. }
  split.
  - apply Hnamed. by do 2 right; left.
  - apply Hzero.
    + apply (bool_decide_unpack _). vm_compute. exact I.
    + apply (bool_decide_unpack _). vm_compute. exact I.
Defined.

(** Two seconds of Yellow's timeout, in one tick or in two. *)
Lemma ticks_compose_timeout_witness :
  (Tick RefBox Duration.Second 3 ;; Tick RefBox Duration.Second 5) Sample.inTimeout
  = Tick RefBox (2 * Duration.Second) 5 Sample.inTimeout.
Proof.
  exact (ticks_compose_timeout RefBox (Sample.controller Sample.S2 []) "Yellow" 1%positive
           Sample.yellow Duration.Second Duration.Second 3 5 Sample.inTimeout
           eq_refl eq_refl eq_refl eq_refl eq_refl).
Defined.

(** With a failing encoder the save logs and leaves the files alone; with no
    file open it exits. *)
Lemma save_latest_state_failures_witness :
  (∃ w', @SaveLatestState brokenCollaborators RefBox Further.unencodable = Ok tt w' ∧
         files w' = files Further.unencodable) ∧
  (∃ w', @SaveLatestState sampleCollaborators RefBox Further.unopened = Fatal w' ∧
         files w' = files Further.unopened).
Proof.
  split.
  - destruct (proj1 (proj2 (@save_latest_state_failures brokenCollaborators RefBox
                              Further.unencodable))
                (Sample.controller Sample.S1 []) eq_refl eq_refl)
      as (w' & Hsave & Hfiles & _).
    exists w'. split; assumption.
  - destruct (proj2 (proj2 (@save_latest_state_failures sampleCollaborators RefBox
                              Further.unopened))
                Further.unopenedController eq_refl (mk_is_Some _ _ eq_refl) eq_refl)
      as (w' & Hsave & Hfiles).
    exists w'. split; assumption.
Defined.

(** Recovery before the files are open. *)
Lemma read_last_state_never_writes_witness :
  ∃ w', @readLastState sampleCollaborators RefBox Further.unopened = Fatal w' ∧
        ctrls w' = ctrls Further.unopened ∧ teams w' = teams Further.unopened.
Proof.
  exact (proj2 (proj2 (@read_last_state_never_writes sampleCollaborators RefBox
                         Further.unopened))
           Further.unopenedController eq_refl eq_refl).
Defined.

Lemma returned_Ok (o : @Outcome sampleCollaborators unit) :
  returned o = true → o = Ok tt (outcomeWorld o).
Proof. by destruct o as [[] w|w|w]. Defined.

(** Three rounds of the loop: six heartbeats. *)
Lemma run_loop_heartbeats_witness :
  ∃ w', runLoop RefBox (Sample.seconds 3) Sample.oneCard = Ok tt w' ∧
        length (trace w') = 6.
Proof.
  assert (Hrun : runLoop RefBox (Sample.seconds 3) Sample.oneCard
                 = Ok tt (outcomeWorld (runLoop RefBox (Sample.seconds 3) Sample.oneCard)))
    by (apply returned_Ok; vm_compute; reflexivity).
  eexists. split; [exact Hrun|].
  exact (proj2 (@run_loop_heartbeats sampleCollaborators RefBox (Sample.seconds 3)
                  Sample.oneCard) _ Hrun).
Defined.
